(** * heat: node-classification evaluation, result aggregation and the
    hyperbolic softmax loss

    A shallow embedding of [evaluate_nc.py] and [heat/losses.py].

    - Part I models the pandas result table and [save_test_results].
    - Part II models the file lock of [lock_method] and
      [threadsafe_save_test_results].
    - Part III models [evaluate_node_classification] over an interface
      for the scikit-learn calls it makes.
    - Part IV models [minkowski_dot] and [hyperbolic_softmax_loss] over
      the real numbers.
    - Part V models [touch] and [read_edgelist], the latter over text of
      code points below 256.

    Numbers.  A Python float is modelled as [float64]: either [NaN] or
    its exact value, a rational.  The subtraction [1 - p], whose result
    the evaluator hands to the library, rounds to the nearest double;
    the sums and the division of the column means are exact.  The
    infinities are not modelled.  The loss of Part IV uses [acosh],
    [exp] and [ln] and is stated over [R]; it has a value only while
    the magnitudes on the way stay inside a range that float32 holds. *)

From Stdlib Require Import ZArith QArith Reals Lra Lia String List Ascii.
From Stdlib Require Lqa.
From stdpp Require Import base option list sorting gmap strings.

Open Scope Z_scope.

(* ================================================================= *)
(** * Part I: the result table *)

Module Float.

(** A float as pandas and numpy see it here: missing ([NaN]) or a
    number. *)
Inductive float64 : Type :=
| NaN
| Num (q : Q).

(** [pd.isna] on a scalar. *)
Definition isna (x : float64) : bool :=
  match x with NaN => true | Num _ => false end.

Definition fadd (x y : float64) : float64 :=
  match x, y with
  | Num a, Num b => Num (a + b)
  | _, _ => NaN
  end.

(** [2 ^ e] for an exponent of either sign. *)
Definition pow2 (e : Z) : Q :=
  if decide (0 ≤ e) then inject_Z (2 ^ e) else (/ inject_Z (2 ^ (- e)))%Q.

(** The exponent [e] of a positive number [a]:
    [2 ^ e <= a < 2 ^ (e + 1)]. *)
Definition exponent (a : Q) : Z :=
  let e := Z.log2 (Qnum a) - Z.log2 (Zpos (Qden a)) in
  if Qle_bool (pow2 e) a then e else e - 1.

(** The integer nearest to [q], the even one of two that are equally
    near. *)
Definition round_half_even (q : Q) : Z :=
  let f := Qnum q / Z.pos (Qden q) in
  match (q - inject_Z f ?= 1 # 2)%Q with
  | Lt => f
  | Gt => f + 1
  | Eq => if Z.even f then f else f + 1
  end.

(** The double nearest to [q], as an arithmetic operation on doubles
    rounds its exact result: 53 significant bits, exponents from -1022
    (below which the spacing stays that of -1022) to 1023, ties to the
    even neighbour.  A result beyond the largest double is an infinity,
    which the model does not have: [None]. *)
Definition round64 (q : Q) : option Q :=
  if Qeq_bool q 0 then Some 0%Q
  else
    let a := (if Qle_bool 0 q then q else - q)%Q in
    let ulp := pow2 (Z.max (exponent a) (-1022) - 52) in
    let r := Qred (inject_Z (round_half_even (a / ulp)) * ulp) in
    if Qle_bool (pow2 1024) r then None
    else Some (if Qle_bool 0 q then r else Qred (- r)).

(** [x - y] on doubles: the exact difference, rounded.  An infinite
    result reads as [NaN] here; [1 - p] is never infinite for a double
    [p]. *)
Definition fsub (x y : float64) : float64 :=
  match x, y with
  | Num a, Num b =>
      match round64 (a - b) with
      | Some r => Num r
      | None => NaN
      end
  | _, _ => NaN
  end.

(** Division of a float by a count.  [0.0 / 0] is [nan] in numpy; a
    non-zero numerator over zero would be an infinity, which the
    callers below never produce (the numerator is then an empty sum). *)
Definition fdiv_count (x : float64) (n : nat) : float64 :=
  match x, n with
  | Num a, S _ => Num (a / inject_Z (Z.of_nat n))
  | _, _ => NaN
  end.

(** [0 <= x <= 1], false of [NaN]. *)
Definition in_unit (x : float64) : Prop :=
  match x with
  | NaN => False
  | Num q => (0 <= q)%Q /\ (q <= 1)%Q
  end.

End Float.
Export Float.

Module Pandas.

(** A data frame with integer row labels, string column labels and
    float cells.  [values] holds the cells by label; a cell that is
    not stored reads as [NaN] (see [cell]).  The row and column
    labels are kept in frame order. *)
Record DataFrame : Type := mkDataFrame {
  index : list Z;
  columns : list string;
  values : gmap (Z * string) float64
}.

(** [df.at[r, c]], with a missing cell read as NaN. *)
Definition cell (df : DataFrame) (r : Z) (c : string) : float64 :=
  default NaN (values df !! (r, c)).

(** A Python [dict] from column label to scalar, as its items in
    insertion order.  The keys of a dict are pairwise distinct. *)
Definition dict : Type := list (string * float64).

Definition dict_get (data : dict) (c : string) : option float64 :=
  (list_to_map data : gmap string float64) !! c.

(** [pd.DataFrame(index=idx, data=data)] for a dict of scalars: one
    row per label of [idx], every row holding the dict's values. *)
Definition DataFrame_of_dict (idx : list Z) (data : dict) : DataFrame :=
  {| index := idx;
     columns := data.*1;
     values := list_to_map (r ← idx; (λ cv, ((r, cv.1), cv.2)) <$> data) |}.

Definition string_le (a b : string) : Prop := Is_true (String.leb a b).

#[global] Instance string_le_dec : RelDecision string_le.
Proof. intros a b. unfold string_le. apply _. Defined.

(** The outer join of two label lists, as [Index.union] computes it
    for lists without repeated labels: equal lists are returned as
    they are, otherwise the distinct labels of both in sorted order.
    Which labels the join has does not depend on the version of
    pandas; their order does (later versions do not sort in
    [combine_first], and an empty list leaves the other as it is).  The
    statements below speak of the labels by membership and up to
    permutation, never by position. *)
Definition union_labels {A : Type} `{EqDecision A}
    (R : relation A) `{!RelDecision R} (l1 l2 : list A) : list A :=
  if decide (l1 = l2) then l1 else merge_sort R (remove_dups (l1 ++ l2)).

(** [self.combine_first(other)]: the frame over the union of the
    labels whose cell is [self]'s where [self] has a non-null value
    there and [other]'s elsewhere. *)
Definition combine_first (self other : DataFrame) : DataFrame :=
  {| index := union_labels Z.le (index self) (index other);
     columns := union_labels string_le (columns self) (columns other);
     values := union_with (λ x y, Some (if isna x then y else x))
                          (values self) (values other) |}.

End Pandas.
Export Pandas.

Module Files.

(** What a path holds: a file without content (a lock sentinel made
    by [touch]) or a result table written by [to_csv].  The CSV text
    itself is not modelled: a [Csv] file is the frame that
    [read_csv(..., index_col=0)] parses from it. *)
Inductive file : Type :=
| Empty
| Csv (df : DataFrame).

Inductive exn : Type :=
| FileNotFoundError (path : string)
| EmptyDataError.

Inductive result (A : Type) : Type :=
| Ok (a : A)
| Raise (e : exn).
Arguments Ok {A} a.
Arguments Raise {A} e.

#[global] Instance result_ret : MRet result := λ A a, Ok a.
#[global] Instance result_bind : MBind result := λ A B f m,
  match m with Ok a => f a | Raise e => Raise e end.

Definition os_path_exists (fs : gmap string file) (path : string) : bool :=
  bool_decide (is_Some (fs !! path)).

(** [pd.read_csv(path, sep=",", index_col=0)]. *)
Definition read_csv (fs : gmap string file) (path : string) : result DataFrame :=
  match fs !! path with
  | None => Raise (FileNotFoundError path)
  | Some Empty => Raise EmptyDataError
  | Some (Csv df) => Ok df
  end.

(** [df.to_csv(path, sep=",")]: creates or overwrites the file. *)
Definition to_csv (df : DataFrame) (path : string) (fs : gmap string file)
    : gmap string file :=
  <[path := Csv df]> fs.

Definition save_test_results (filename : string) (seed : Z) (data : dict)
    (fs : gmap string file) : result (gmap string file) :=
  let d := DataFrame_of_dict [seed] data in
  test_df ← (if os_path_exists fs filename
             then test_df ← read_csv fs filename;
                  mret (combine_first d test_df)
             else mret d);
  mret (to_csv test_df filename fs).

(** A sequence of calls on one file, each a seed and its record. *)
Fixpoint save_sequence (filename : string) (saves : list (Z * dict))
    (fs : gmap string file) : result (gmap string file) :=
  match saves with
  | [] => Ok fs
  | (seed, data) :: rest =>
      fs' ← save_test_results filename seed data fs;
      save_sequence filename rest fs'
  end.

(** The invariant of a frame: row labels are not repeated and every
    stored cell lies at a row label and a column label. *)
Definition frame_ok (df : DataFrame) : Prop :=
  NoDup (index df) ∧
  ∀ r c, is_Some (values df !! (r, c)) → r ∈ index df ∧ c ∈ columns df.

(** The result file is absent or holds a frame that satisfies the
    invariant. *)
Definition file_ok (fs : gmap string file) (filename : string) : Prop :=
  fs !! filename = None ∨
  ∃ df, fs !! filename = Some (Csv df) ∧ frame_ok df.

(** The table a path holds; no table is the frame without rows. *)
Definition table (fs : gmap string file) (filename : string) : DataFrame :=
  match fs !! filename with
  | Some (Csv df) => df
  | _ => mkDataFrame [] [] ∅
  end.

End Files.
Export Files.

(* ================================================================= *)
(** * Part II: the file lock *)

Module Lock.

(** The operation flags of [fcntl.lockf]. *)
Definition LOCK_SH : Z := 1.
Definition LOCK_EX : Z := 2.
Definition LOCK_NB : Z := 4.
Definition LOCK_UN : Z := 8.

(** What a call does to the operating system, in order.  [ev_lockf]
    records one [fcntl.lockf] call and whether it took the lock;
    [ev_close] is the closing of a file handle; [ev_call] marks the
    invocation of the wrapped function. *)
Inductive event : Type :=
| ev_open (path mode : string)
| ev_lockf (path : string) (op : Z) (acquired : bool)
| ev_close (path : string)
| ev_call.

(** A lock is given up explicitly by [lockf(fp, LOCK_UN)] or by
    closing the handle. *)
Definition is_release (e : event) : bool :=
  match e with
  | ev_lockf _ op _ => Z.testbit op 3
  | ev_close _ => true
  | _ => false
  end.

(** The flags of an operation: bit 1 is [LOCK_EX], bit 2 is
    [LOCK_NB]. *)
Definition is_exclusive (op : Z) : bool := Z.testbit op 1.
Definition is_nonblocking (op : Z) : bool := Z.testbit op 2.

Definition is_call (e : event) : bool :=
  match e with ev_call => true | _ => false end.

Record world : Type := mkWorld {
  fs : gmap string file;
  trace : list event
}.

(** How a call ends: it returns, it raises, or it is still spinning
    on the lock when the fuel of the model runs out. *)
Inductive status : Type :=
| Returned
| Raised (e : exn)
| Spinning.

(** [open(path, 'r+')]: the file must exist; nothing is created or
    truncated. *)
Definition open_rw (path : string) (w : world) : result world :=
  if os_path_exists (fs w) path
  then Ok (mkWorld (fs w) (trace w ++ [ev_open path "r+"]))
  else Raise (FileNotFoundError path).

Section lock_method.
(** [busy k] tells whether the [k]-th [lockf] attempt of the call
    raises [IOError] (another process holds the lock). *)
Variable busy : nat → bool.
Variable lock_filename : string.

(** The loop [while not done: try: lockf(...); done = True
    except IOError: pass], from attempt number [k] on: whether the
    lock was taken before the fuel ran out, and the events so far. *)
Fixpoint spin (fuel : nat) (k : nat) (tr : list event) : bool * list event :=
  match fuel with
  | O => (false, tr)
  | S fuel' =>
      if busy k
      then spin fuel' (S k)
             (tr ++ [ev_lockf lock_filename (Z.lor LOCK_EX LOCK_NB) false])
      else (true, tr ++ [ev_lockf lock_filename (Z.lor LOCK_EX LOCK_NB) true])
  end.

(** [lock_method(lock_filename)(func)(...)], with [func] acting on
    the file system.  A [func] that raises leaves the files as they
    were, as [save_test_results] does (its only write is its last
    statement). *)
Definition lock_and_run_method
    (func : gmap string file → result (gmap string file))
    (fuel : nat) (w : world) : status * world :=
  match open_rw lock_filename w with
  | Raise e => (Raised e, w)
  | Ok w0 =>
      match spin fuel 0%nat (trace w0) with
      | (false, tr1) => (Spinning, mkWorld (fs w0) tr1)
      | (true, tr1) =>
          let tr2 := tr1 ++ [ev_call] in
          match func (fs w0) with
          | Ok fs' => (Returned, mkWorld fs' tr2)
          | Raise e => (Raised e, mkWorld (fs w0) tr2)
          end
      end
  end.
End lock_method.

Definition threadsafe_fn (busy : nat → bool) (lock_filename : string)
    (fn : gmap string file → result (gmap string file))
    (fuel : nat) (w : world) : status * world :=
  lock_and_run_method busy lock_filename fn fuel w.

Definition threadsafe_save_test_results (busy : nat → bool)
    (lock_filename filename : string) (seed : Z) (data : dict)
    (fuel : nat) (w : world) : status * world :=
  threadsafe_fn busy lock_filename (save_test_results filename seed data) fuel w.

End Lock.
Export Lock.

(* ================================================================= *)
(** * Part III: the evaluator *)

Module Evaluate.

Inductive average : Type := micro | macro.

(** The two cross-validation splitters the evaluator chooses from. *)
Inductive splitter : Type := StratifiedShuffleSplit | ShuffleSplit.

(** The numpy and scikit-learn operations the evaluator calls.  They
    are library code; the evaluator is modelled over any
    implementation of them.  A call that raises returns [None].

    [iter_indices cv test_size X y rng] is the first split that a
    splitter [cv(n_splits=1, test_size=test_size)] draws from the
    generator [rng], with the generator it leaves behind.
    [fit], [predict] and [f1_score] do not draw random numbers (the
    default solver of [LogisticRegressionCV] is deterministic).
    [fit] returns the classifier object as the fit leaves it.  An
    [Embedding] is a two-dimensional array, one row per node. *)
Class Sklearn : Type := {
  Embedding : Type;
  Labels : Type;
  Indices : Type;
  Estimator : Type;
  Predictions : Type;
  RandomState : Type;
  ndim : Labels → nat;
  take_rows : Embedding → Indices → Embedding;
  take_labels : Labels → Indices → Labels;
  LogisticRegressionCV : Estimator;
  OneVsRestClassifier : Estimator → Estimator;
  RandomState_of_seed : Z → RandomState;
  iter_indices : splitter → float64 → Embedding → Labels → RandomState
                 → option ((Indices * Indices) * RandomState);
  fit : Estimator → Embedding → Labels → option Estimator;
  predict : Estimator → Embedding → option Predictions;
  f1_score : Labels → Predictions → average → option float64
}.

(** A two-dimensional float array.  The number of columns is part of
    the array: numpy knows it even when there are no rows. *)
Record ndarray2 : Type := mkArray {
  ncols : nat;
  rows : list (list float64)
}.

(** [np.zeros((n, k))]; a negative dimension raises [ValueError]. *)
Definition np_zeros (n : Z) (k : nat) : option ndarray2 :=
  if decide (n < 0) then None
  else Some (mkArray k (replicate (Z.to_nat n) (replicate k (Num 0)))).

(** [a[r, c] = v]. *)
Definition set_item (a : ndarray2) (r c : nat) (v : float64) : ndarray2 :=
  mkArray (ncols a) (alter (<[c := v]>) r (rows a)).

(** [a[r, c]]. *)
Definition get_item (a : ndarray2) (r c : nat) : option float64 :=
  row ← rows a !! r; row !! c.

Definition column (a : ndarray2) (c : nat) : list float64 :=
  (λ row, default NaN (row !! c)) <$> rows a.

Definition fsum (l : list float64) : float64 := foldl fadd (Num 0) l.

(** [a.mean(axis=0)]: one mean per column; the mean over no rows is
    [nan]. *)
Definition mean_axis0 (a : ndarray2) : list float64 :=
  (λ c, fdiv_count (fsum (column a c)) (length (rows a))) <$> seq 0 (ncols a).

(** One library call, as the evaluator issues it. *)
Inductive call {sk : Sklearn} : Type :=
| call_split (cv : splitter) (n_splits : nat) (test_size : float64) (random_state : Z)
| call_fit (train : Indices)
| call_predict (test : Indices)
| call_f1_score (test : Indices) (avg : average).

(** The variables of the loops. *)
Record loop_state {sk : Sklearn} : Type := mkLoop {
  model : Estimator;
  f1_micros : ndarray2;
  f1_macros : ndarray2;
  np_random : RandomState;
  calls : list call
}.

Arguments mkLoop {sk} model f1_micros f1_macros np_random calls.

(** A [for] loop over a list whose body may raise. *)
Fixpoint for_each {A S : Type} (body : A → S → option S) (l : list A) (s : S)
    : option S :=
  match l with
  | [] => Some s
  | a :: l' => s' ← body a s; for_each body l' s'
  end.

Section evaluate.
Context {sk : Sklearn}.

(** [check_random_state]: an integer seeds a fresh generator, [None]
    stands for the global generator of numpy. *)
Definition first_split (cv : splitter) (test_size : float64)
    (random_state : option Z) (X : Embedding) (y : Labels)
    (g : RandomState) : option ((Indices * Indices) * RandomState) :=
  match random_state with
  | Some seed =>
      r ← iter_indices cv test_size X y (RandomState_of_seed seed);
      Some (r.1, g)
  | None => iter_indices cv test_size X y g
  end.

(** The classifier and the splitter, chosen by the shape of the
    labels. *)
Definition select_mode (labels : Labels) : Estimator * splitter :=
  if decide (1 < ndim labels)%nat
  then (OneVsRestClassifier LogisticRegressionCV, ShuffleSplit)
  else (LogisticRegressionCV, StratifiedShuffleSplit).

Section loops.
Variable klein_embedding : Embedding.
Variable labels : Labels.
Variable split : splitter.

(** The body of the inner loop, lines 39 to 46. *)
Definition inner_body (seed : nat) (ip : nat * float64) (st : loop_state)
    : option loop_state :=
  let '(i, label_percentage) := ip in
  let test_size := fsub (Num 1) label_percentage in
  '(split_train, split_test, g) ←
    first_split split test_size (Some (Z.of_nat seed))
                klein_embedding labels (np_random st);
  model' ← fit (model st) (take_rows klein_embedding split_train)
               (take_labels labels split_train);
  predictions ← predict model' (take_rows klein_embedding split_test);
  f1_micro ← f1_score (take_labels labels split_test) predictions micro;
  f1_macro ← f1_score (take_labels labels split_test) predictions macro;
  Some (mkLoop model'
          (set_item (f1_micros st) seed i f1_micro)
          (set_item (f1_macros st) seed i f1_macro)
          g
          (calls st ++ [call_split split 1 test_size (Z.of_nat seed);
                        call_fit split_train;
                        call_predict split_test;
                        call_f1_score split_test micro;
                        call_f1_score split_test macro])).

(** [enumerate(label_percentages)]. *)
Definition enumerate (l : list float64) : list (nat * float64) :=
  zip (seq 0 (length l)) l.

Definition outer_body (label_percentages : list float64) (seed : nat)
    (st : loop_state) : option loop_state :=
  for_each (inner_body seed) (enumerate label_percentages) st.

Definition run_repeats (label_percentages : list float64) (n_repeats : nat)
    (st : loop_state) : option loop_state :=
  for_each (outer_body label_percentages) (seq 0 n_repeats) st.
End loops.

(** The state at the entry of the loops, lines 23 to 31. *)
Definition initial_state (labels : Labels) (label_percentages : list float64)
    (n_repeats : Z) (g : RandomState) : option loop_state :=
  micros ← np_zeros n_repeats (length label_percentages);
  macros ← np_zeros n_repeats (length label_percentages);
  Some (mkLoop (select_mode labels).1 micros macros g []).

(** The loops of lines 35 to 47, from the initial state. *)
Definition evaluate_loops (klein_embedding : Embedding) (labels : Labels)
    (label_percentages : list float64) (n_repeats : Z) (g : RandomState)
    : option loop_state :=
  st ← initial_state labels label_percentages n_repeats g;
  run_repeats klein_embedding labels (select_mode labels).2
              label_percentages (Z.to_nat n_repeats) st.

(** The function: the loops, then the column means of line 49.  The
    result comes with the global generator as the call leaves it. *)
Definition evaluate_node_classification (klein_embedding : Embedding)
    (labels : Labels) (label_percentages : list float64) (n_repeats : Z)
    (g : RandomState)
    : option (list float64 * list float64 * list float64) * RandomState :=
  match evaluate_loops klein_embedding labels label_percentages n_repeats g with
  | Some st =>
      (Some (label_percentages, mean_axis0 (f1_micros st), mean_axis0 (f1_macros st)),
       np_random st)
  | None => (None, g)
  end.
End evaluate.

(** One round as the specification words it: one split with
    [test_size = 1 - p] seeded by the repeat index, a fit of the
    classifier [est] on the train partition that leaves it as [est'],
    a prediction on the held-out partition, and the two F1 averages of
    that prediction. *)
Definition split_fit_score {sk : Sklearn} (cv : splitter) (X : Embedding)
    (y : Labels) (seed : nat) (p : float64) (est est' : Estimator)
    (f1_micro f1_macro : float64) : Prop :=
  ∃ train test g predictions,
    iter_indices cv (fsub (Num 1) p) X y (RandomState_of_seed (Z.of_nat seed))
      = Some ((train, test), g) ∧
    fit est (take_rows X train) (take_labels y train) = Some est' ∧
    predict est' (take_rows X test) = Some predictions ∧
    f1_score (take_labels y test) predictions micro = Some f1_micro ∧
    f1_score (take_labels y test) predictions macro = Some f1_macro.

(** The rounds of one repeat in the specification's words, one after
    the other on one classifier object: [scored_row cv X y seed est ps
    row est'] when the rounds for the percentages [ps], the first on
    the classifier [est] and each next one on the classifier as the
    fit before it left it, give the pairs of micro and macro F1 [row]
    and leave the classifier as [est']. *)
Inductive scored_row {sk : Sklearn} (cv : splitter) (X : Embedding) (y : Labels)
    (seed : nat)
    : Estimator → list float64 → list (float64 * float64) → Estimator → Prop :=
| scored_row_nil est : scored_row cv X y seed est [] [] est
| scored_row_cons est est' est'' p ps f1_micro f1_macro row :
    split_fit_score cv X y seed p est est' f1_micro f1_macro →
    scored_row cv X y seed est' ps row est'' →
    scored_row cv X y seed est (p :: ps) ((f1_micro, f1_macro) :: row) est''.

(** The repeats, one after the other on the same classifier object:
    one row of scores per repeat index. *)
Inductive scored_repeats {sk : Sklearn} (cv : splitter) (X : Embedding) (y : Labels)
    (ps : list float64)
    : Estimator → list nat → list (list (float64 * float64)) → Estimator → Prop :=
| scored_repeats_nil est : scored_repeats cv X y ps est [] [] est
| scored_repeats_cons est est' est'' seed seeds row scores :
    scored_row cv X y seed est ps row est' →
    scored_repeats cv X y ps est' seeds scores est'' →
    scored_repeats cv X y ps est (seed :: seeds) (row :: scores) est''.

(** The scores of repeat [seed] at percentage number [i]. *)
Definition score_at (scores : list (list (float64 * float64))) (seed i : nat)
    : option (float64 * float64) :=
  row ← scores !! seed; row !! i.

(** Column [i] of the micro and of the macro scores, one entry per
    repeat, and the mean of a list of floats. *)
Definition micro_column (scores : list (list (float64 * float64))) (i : nat)
    : list float64 :=
  (λ row : list (float64 * float64), default NaN (fst <$> row !! i)) <$> scores.

Definition macro_column (scores : list (list (float64 * float64))) (i : nat)
    : list float64 :=
  (λ row : list (float64 * float64), default NaN (snd <$> row !! i)) <$> scores.

Definition mean (l : list float64) : float64 := fdiv_count (fsum l) (length l).

(** A completed run in the specification's words: every round draws
    its split with the splitter [cv], the classifier object is [est0]
    before the first round, and cell (seed, i) of the two score arrays
    holds the scores of repeat [seed] at percentage number [i]. *)
Definition scored_with {sk : Sklearn} (cv : splitter) (est0 : Estimator)
    (X : Embedding) (y : Labels) (ps : list float64) (n : nat)
    (st : loop_state) (scores : list (list (float64 * float64))) : Prop :=
  scored_repeats cv X y ps est0 (seq 0 n) scores (model st) ∧
  ∀ (seed i : nat) (p : float64),
    (seed < n)%nat → ps !! i = Some p →
    ∃ f1_micro f1_macro,
      score_at scores seed i = Some (f1_micro, f1_macro) ∧
      get_item (f1_micros st) seed i = Some f1_micro ∧
      get_item (f1_macros st) seed i = Some f1_macro.

(** The invariant of the loops for the chain of rounds: the repeats
    below [s] are scored, repeat [s] is scored up to percentage number
    [j], the classifier is as the last fit left it, and the cells
    written so far hold those scores. *)
Definition chain_inv {sk : Sklearn} (X : Embedding) (y : Labels) (cv : splitter)
    (ps : list float64) (est0 : Estimator) (s j : nat) (st : loop_state) : Prop :=
  ∃ scores row est_s,
    scored_repeats cv X y ps est0 (seq 0 s) scores est_s ∧
    scored_row cv X y s est_s (take j ps) row (model st) ∧
    ∀ seed i v,
      score_at (scores ++ [row]) seed i = Some v →
      get_item (f1_micros st) seed i = Some v.1 ∧
      get_item (f1_macros st) seed i = Some v.2.

Definition is_split {sk : Sklearn} (c : call) : bool :=
  match c with call_split _ _ _ _ => true | _ => false end.

(** The splits of [n] repeats over the percentages [ps], in loop
    order: one per repeat and percentage. *)
Definition expected_splits {sk : Sklearn} (cv : splitter) (ps : list float64)
    (n : nat) : list call :=
  seed ← seq 0 n;
  (λ p, call_split cv 1 (fsub (Num 1) p) (Z.of_nat seed)) <$> ps.

(** The library calls of one round, in order, when its split succeeds:
    the split, the fit on its train partition, the prediction on its
    test partition and the two scores of that prediction. *)
Definition round_calls {sk : Sklearn} (cv : splitter) (X : Embedding) (y : Labels)
    (seed : nat) (p : float64) : list call :=
  match iter_indices cv (fsub (Num 1) p) X y (RandomState_of_seed (Z.of_nat seed)) with
  | Some ((train, test), _) =>
      [call_split cv 1 (fsub (Num 1) p) (Z.of_nat seed);
       call_fit train; call_predict test;
       call_f1_score test micro; call_f1_score test macro]
  | None => []
  end.

(** The library calls of [n] repeats over the percentages [ps]. *)
Definition expected_calls {sk : Sklearn} (cv : splitter) (X : Embedding)
    (y : Labels) (ps : list float64) (n : nat) : list call :=
  seed ← seq 0 n; p ← ps; round_calls cv X y seed p.

(** An array of [n] rows and [k] columns. *)
Definition well_shaped (n k : nat) (a : ndarray2) : Prop :=
  ncols a = k ∧ length (rows a) = n ∧ Forall (λ row, length row = k) (rows a).

(** The invariant of the loops when the repeats below [s] and, of
    repeat [s], the percentages below [j] are done. *)
Definition loop_inv {sk : Sklearn} (X : Embedding) (y : Labels) (cv : splitter)
    (ps : list float64) (n : nat) (g : RandomState) (s j : nat)
    (st : loop_state) : Prop :=
  well_shaped n (length ps) (f1_micros st) ∧
  well_shaped n (length ps) (f1_macros st) ∧
  np_random st = g ∧
  filter (λ c, is_split c = true) (calls st)
    = expected_splits cv ps s
      ++ ((λ p, call_split cv 1 (fsub (Num 1) p) (Z.of_nat s)) <$> take j ps) ∧
  calls st
    = expected_calls cv X y ps s ++ (p ← take j ps; round_calls cv X y s p) ∧
  ∀ seed i p,
    (seed < s ∨ seed = s ∧ i < j)%nat → ps !! i = Some p →
    ∃ est est' f1_micro f1_macro,
      split_fit_score cv X y seed p est est' f1_micro f1_macro ∧
      get_item (f1_micros st) seed i = Some f1_micro ∧
      get_item (f1_macros st) seed i = Some f1_macro.

(** The state with the global generator replaced. *)
Definition with_np_random {sk : Sklearn} (g : RandomState) (st : loop_state)
    : loop_state :=
  mkLoop (model st) (f1_micros st) (f1_macros st) g (calls st).

(** The library calls of a run of [n] repeats succeed: whatever state
    the classifier is in, each repeat and percentage can be split,
    fitted, predicted and scored. *)
Definition calls_succeed {sk : Sklearn} (cv : splitter) (X : Embedding)
    (y : Labels) (ps : list float64) (n : nat) : Prop :=
  ∀ (seed : nat) (p : float64) (est : Estimator),
    (seed < n)%nat → p ∈ ps →
    ∃ est' f1_micro f1_macro,
      split_fit_score cv X y seed p est est' f1_micro f1_macro.

(** [f1_score] returns a value between 0 and 1. *)
Definition f1_score_in_unit {sk : Sklearn} : Prop :=
  ∀ (y : Labels) (predictions : Predictions) (avg : average) (v : float64),
    f1_score y predictions avg = Some v → in_unit v.

(** The mean over the repeats [0 .. n-1] of column [i]. *)
Definition mean_over_repeats (a : ndarray2) (n i : nat) : float64 :=
  fdiv_count (fsum ((λ seed, default NaN (get_item a seed i)) <$> seq 0 n)) n.

(** A stand-in for the library, to run the evaluator on: nodes are
    numbered, a split trains on node 0 and tests on node 1, the
    classifier predicts the label it was fitted on, and a prediction
    scores 1 when it equals the labels and 0 otherwise. *)
Definition stub_sklearn : Sklearn :=
  {| Embedding := list Z;
     Labels := nat * list Z;
     Indices := list nat;
     Estimator := option Z;
     Predictions := list Z;
     RandomState := Z;
     ndim := fst;
     take_rows := λ X idx, omap (λ i, X !! i) idx;
     take_labels := λ y idx, (y.1, omap (λ i, y.2 !! i) idx);
     LogisticRegressionCV := None;
     OneVsRestClassifier := λ est, est;
     RandomState_of_seed := λ seed, seed;
     iter_indices := λ cv test_size X y g, Some (([0%nat], [1%nat]), g + 1);
     fit := λ est X y, Some (head y.2);
     predict := λ est X, (λ l, (λ _, l) <$> X) <$> est;
     f1_score := λ y predictions avg,
       Some (if decide (y.2 = predictions) then Num 1 else Num 0) |}.

(** A second stand-in whose scores differ from round to round.  The
    nodes are numbered; a split rotates them by the seed (one place
    further for [ShuffleSplit]) and trains on the first two when
    [test_size] is at most a half, on the first one otherwise; a fit
    keeps whether the classifier is wrapped and learns the label of the
    first train node; the classifier predicts that label everywhere;
    the micro score is the share of correct predictions and the macro
    score half of it. *)
Definition toy_split (cv : splitter) (test_size : float64) (X : list Z)
    (g : Z) : option ((list nat * list nat) * Z) :=
  match test_size, X with
  | Num q, _ :: _ =>
      let shift := match cv with ShuffleSplit => 1%nat | StratifiedShuffleSplit => 0%nat end in
      let nodes := rotate (Z.to_nat (Z.abs g) + shift) (seq 0 (length X)) in
      let k := if Qle_bool q (1 # 2) then 2%nat else 1%nat in
      Some ((take k nodes, drop k nodes), g + 1)
  | _, _ => None
  end.

Definition toy_correct (y predictions : list Z) : nat :=
  length (filter (λ ab : Z * Z, ab.1 = ab.2) (zip y predictions)).

Definition toy_f1_score (y predictions : list Z) (avg : average) : float64 :=
  match avg with
  | micro => Num (Qred (Z.of_nat (toy_correct y predictions) # Pos.of_nat (length y)))
  | macro => Num (Qred (Z.of_nat (toy_correct y predictions) # Pos.of_nat (2 * length y)))
  end.

Definition toy_sklearn : Sklearn :=
  {| Embedding := list Z;
     Labels := nat * list Z;
     Indices := list nat;
     Estimator := bool * option Z;
     Predictions := list Z;
     RandomState := Z;
     ndim := fst;
     take_rows := λ X idx, omap (λ i, X !! i) idx;
     take_labels := λ y idx, (y.1, omap (λ i, y.2 !! i) idx);
     LogisticRegressionCV := (false, None);
     OneVsRestClassifier := λ est, (true, est.2);
     RandomState_of_seed := λ seed, seed;
     iter_indices := λ cv test_size X y g, toy_split cv test_size X g;
     fit := λ est X y, label ← head y.2; Some (est.1, Some label);
     predict := λ est X, (λ l, (λ _, l) <$> X) <$> est.2;
     f1_score := λ y predictions avg, Some (toy_f1_score y.2 predictions avg) |}.

End Evaluate.
Export Evaluate.

(* ================================================================= *)
(** * Part IV: the hyperbolic softmax loss *)

Module Losses.
Local Open Scope R_scope.

(** Tensors are nested lists, outermost axis first.  The loss receives
    [y_pred] of shape (batch, 1 + K, D) and [y_true] of shape
    (batch, 1).

    The program computes in float32, which holds magnitudes up to about
    [2 ^ 128] and positive numbers down to about [2 ^ -149]; beyond
    them it goes on with infinities, zeros and NaN.  The model computes
    over the real numbers and follows the program only while the
    magnitudes on the way are at most [bound], with the squared
    bandwidth at least [/ bound], where nothing overflows and no
    division by zero or NaN arises.  Outside that range the loss has no
    value in the model.  Rounding is not modelled. *)
Definition bound : R := 2 ^ 100.

Definition in_range (x : R) : Prop := Rabs x <= bound.

Definition all_in_range (t : list (list R)) : Prop := Forall (Forall in_range) t.

#[global] Instance Rle_rel_dec : RelDecision Rle := Rle_dec.

#[global] Instance in_range_dec (x : R) : Decision (in_range x).
Proof. unfold in_range. apply _. Defined.

#[global] Instance all_in_range_dec (t : list (list R)) : Decision (all_in_range t).
Proof. unfold all_in_range. apply _. Defined.

(** The shape predicates of a rank-3 and a rank-2 tensor. *)
Definition has_shape3 {A : Type} (t : list (list (list A))) (b k d : nat) : Prop :=
  length t = b ∧ Forall (λ m, length m = k ∧ Forall (λ v, length v = d) m) t.

Definition has_shape2 {A : Type} (t : list (list A)) (b k : nat) : Prop :=
  length t = b ∧ Forall (λ v, length v = k) t.

(** [x[..., :-1]] and [x[..., -1:]] on one vector of the last axis. *)
Definition but_last (x : list R) : list R := take (length x - 1) x.
Definition only_last (x : list R) : list R := drop (length x - 1) x.

Definition sum_list (l : list R) : R := foldr Rplus 0 l.

(** An elementwise operation on a rank-2 tensor. *)
Definition elementwise (f : R → R) (t : list (list R)) : list (list R) :=
  (λ row : list R, f <$> row) <$> t.

(** [K.batch_dot(x, y, axes=(1, 2))] for [x] of shape (B, D) and [y]
    of shape (B, K, D): entry (b, k) is the sum over the last axis of
    [x[b, j] * y[b, k, j]]. *)
Definition batch_dot (x : list (list R)) (y : list (list (list R)))
    : list (list R) :=
  zip_with (λ (u : list R) (vs : list (list R)),
              (λ v, sum_list (zip_with Rmult u v)) <$> vs) x y.

(** [minkowski_dot(x, y)] at the ranks the loss calls it with, where
    [axes] is [(1, 2)]. *)
Definition minkowski_dot (x : list (list R)) (y : list (list (list R)))
    : list (list R) :=
  zip_with (zip_with Rminus)
    (batch_dot (but_last <$> x) ((λ m : list (list R), but_last <$> m) <$> y))
    (batch_dot (only_last <$> x) ((λ m : list (list R), only_last <$> m) <$> y)).

(** [tf.acosh] on its domain [1 <= x]. *)
Definition acosh (x : R) : R := ln (x + sqrt (x * x - 1)).

(** [K.stop_gradient]: the identity on values. *)
Definition stop_gradient (x : R) : R := x.

(** [tf.nn.sparse_softmax_cross_entropy_with_logits] on one example:
    the log of the sum of the exponentials minus the logit of the
    label; a label outside the logits is an error. *)
Definition sparse_softmax_cross_entropy_1 (label : nat) (logits : list R)
    : option R :=
  z ← logits !! label; Some (ln (sum_list (exp <$> logits)) - z).

Definition sparse_softmax_cross_entropy_with_logits
    (labels : list nat) (logits : list (list R)) : option (list R) :=
  mapM (λ lz, sparse_softmax_cross_entropy_1 lz.1 lz.2) (zip labels logits).

(** [K.mean] of a vector; the mean of no element is not a number. *)
Definition K_mean (l : list R) : option R :=
  match l with
  | [] => None
  | _ => Some (sum_list l / INR (length l))
  end.

Section loss.
(** [K.epsilon()], the fuzz factor of the backend. *)
Variable epsilon : R.
Variable sigma : R.

(** [y_pred[:,0]] and [y_pred[:,1:]]. *)
Definition u_emb (y_pred : list (list (list R))) : list (list R) :=
  (λ m : list (list R), default [] (m !! 0%nat)) <$> y_pred.
Definition samples_emb (y_pred : list (list (list R))) : list (list (list R)) :=
  drop 1 <$> y_pred.

(** [inner_uv] after line 20. *)
Definition inner_uv (y_pred : list (list (list R))) : list (list R) :=
  let inner_uv := minkowski_dot (u_emb y_pred) (samples_emb y_pred) in
  let inner_uv := elementwise (λ t, - t - 1 + epsilon) inner_uv in
  elementwise (λ t, Rmax t epsilon) inner_uv.

Definition d_uv (y_pred : list (list (list R))) : list (list R) :=
  elementwise (λ t, acosh (1 + t)) (inner_uv y_pred).

(** For each entry of [minkowski_dot], the sum of the magnitudes of
    the products that it adds up or subtracts: no partial sum of the
    entry exceeds it. *)
Definition dot_magnitude (y_pred : list (list (list R))) : list (list R) :=
  batch_dot ((λ u : list R, Rabs <$> u) <$> u_emb y_pred)
            ((λ m : list (list R), (λ v : list R, Rabs <$> v) <$> m)
               <$> samples_emb y_pred).

(** The distances are followed: the fuzz factor and the products of
    [minkowski_dot] are in range, and [acosh] is taken on its domain
    (its argument is one plus an entry of [inner_uv]). *)
Definition distances_in_range (y_pred : list (list (list R))) : Prop :=
  in_range epsilon ∧
  all_in_range (dot_magnitude y_pred) ∧
  Forall (Forall (λ t, 0 <= t)) (inner_uv y_pred).

#[global] Instance distances_in_range_dec (y_pred : list (list (list R)))
  : Decision (distances_in_range y_pred).
Proof. unfold distances_in_range. apply _. Defined.

(** The scaled distances are followed: the squared bandwidth is
    neither too small to divide by nor too large, and every quotient
    is in range. *)
Definition logits_in_range (y_pred : list (list (list R))) : Prop :=
  / bound <= sigma ^ 2 <= bound ∧
  all_in_range (elementwise (λ d, - 0.5 * (d * d) / sigma ^ 2) (d_uv y_pred)).

#[global] Instance logits_in_range_dec (y_pred : list (list (list R)))
  : Decision (logits_in_range y_pred).
Proof. unfold logits_in_range. apply _. Defined.

(** [minus_d_uv_sq] after line 26, where it is followed. *)
Definition minus_d_uv_sq (y_pred : list (list (list R))) : option (list (list R)) :=
  let sigma_sq := stop_gradient (sigma ^ 2) in
  if decide (logits_in_range y_pred)
  then Some (elementwise (λ d, - 0.5 * (d * d) / sigma_sq) (d_uv y_pred))
  else None.

(** The loss; [None] when TensorFlow raises, when the result is not a
    number, and when a magnitude on the way, the sum that [K.mean]
    divides among them, leaves the range that the model follows. *)
Definition loss (y_true : list (list nat)) (y_pred : list (list (list R)))
    : option R :=
  labels ← mapM (λ row : list nat, row !! 0%nat) y_true;
  if decide (distances_in_range y_pred) then
    logits ← minus_d_uv_sq y_pred;
    ce ← sparse_softmax_cross_entropy_with_logits labels logits;
    if decide (in_range (sum_list ce)) then K_mean ce else None
  else None.
End loss.

Definition hyperbolic_softmax_loss (epsilon sigma : R) := loss epsilon sigma.

(** [t[b, k]]. *)
Definition entry2 (t : list (list R)) (b k : nat) : option R :=
  row ← t !! b; row !! k.

End Losses.

(** The formulas of the loss as the specification words them, for
    comparison with the tensor program above. *)
Module LossSpec.
Local Open Scope R_scope.
Import Losses.

(** The sum of the products of the spatial coordinates minus the
    product of the last (time) coordinates. *)
Definition minkowski_form (u v : list R) : R :=
  let d := length u in
  sum_list ((λ j, nth j u 0 * nth j v 0) <$> seq 0 (d - 1))
  - nth (d - 1) u 0 * nth (d - 1) v 0.

Definition hyperbolic_distance (epsilon : R) (u v : list R) : R :=
  acosh (1 + Rmax (- minkowski_form u v - 1 + epsilon) epsilon).

Definition logit (epsilon sigma : R) (u v : list R) : R :=
  - 0.5 * (hyperbolic_distance epsilon u v) ^ 2 / sigma ^ 2.

(** The softmax weight of candidate [k] and the categorical
    cross-entropy of the scores against the true index [k]. *)
Definition softmax (z : list R) (k : nat) : R :=
  exp (nth k z 0) / sum_list (exp <$> z).

Definition cross_entropy (z : list R) (k : nat) : R := - ln (softmax z k).

(** The scores of one example: the query is entry 0, the candidates
    are the rest. *)
Definition example_logits (epsilon sigma : R) (m : list (list R)) : list R :=
  logit epsilon sigma (nth 0 m []) <$> drop 1 m.

(** The sum over the batch of the cross-entropy of each example's
    scores against the index that [y_true] gives for it, and the loss
    as the mean over the batch. *)
Definition sum_cross_entropy (epsilon sigma : R) (y_true : list (list nat))
    (y_pred : list (list (list R))) : R :=
  sum_list (zip_with (λ (row : list nat) (m : list (list R)),
                        cross_entropy (example_logits epsilon sigma m) (nth 0 row 0%nat))
                     y_true y_pred).

Definition mean_cross_entropy (epsilon sigma : R) (y_true : list (list nat))
    (y_pred : list (list (list R))) : R :=
  sum_cross_entropy epsilon sigma y_true y_pred / INR (length y_pred).

(** The same with the true index fixed to 0, whatever [y_true] holds. *)
Definition mean_cross_entropy_index_0 (epsilon sigma : R)
    (y_pred : list (list (list R))) : R :=
  sum_list ((λ m : list (list R), cross_entropy (example_logits epsilon sigma m) 0)
              <$> y_pred)
  / INR (length y_pred).

(** The batch is one that the model follows to the end. *)
Definition in_range_batch (epsilon sigma : R) (y_true : list (list nat))
    (y_pred : list (list (list R))) : Prop :=
  distances_in_range epsilon y_pred ∧
  logits_in_range epsilon sigma y_pred ∧
  in_range (sum_cross_entropy epsilon sigma y_true y_pred).

(** A batch of moderate size and entries, which the model follows (see
    [moderate_batch_in_range]). *)
Definition moderate_batch (epsilon sigma : R) (y_pred : list (list (list R)))
    (B K D : nat) : Prop :=
  0 <= epsilon <= 1 ∧
  1 / 1000 <= sigma ^ 2 <= 1000 ∧
  (B ≤ 1000)%nat ∧ (K ≤ 1000)%nat ∧ (D ≤ 1000)%nat ∧
  Forall (Forall (Forall (λ x, Rabs x <= 10))) y_pred.

End LossSpec.

(** The gradient with respect to the bandwidth.  A [dual] is the value
    of a tensor entry with its derivative with respect to [sigma] as
    backpropagation computes it: the rules of the derivative for the
    arithmetic, and no gradient through [K.stop_gradient]. *)
Module Gradient.
Local Open Scope R_scope.

Record dual : Type := mkDual {
  value : R;
  d_sigma : R
}.

(** A tensor that does not depend on [sigma], and [sigma] itself. *)
Definition constant (x : R) : dual := mkDual x 0.
Definition variable (x : R) : dual := mkDual x 1.

Definition mul (a b : dual) : dual :=
  mkDual (value a * value b) (d_sigma a * value b + value a * d_sigma b).

Definition div (a b : dual) : dual :=
  mkDual (value a / value b)
         ((d_sigma a * value b - value a * d_sigma b) / (value b * value b)).

Definition square (a : dual) : dual := mul a a.

(** [K.stop_gradient]: the value, with no gradient. *)
Definition stop_gradient (a : dual) : dual := mkDual (value a) 0.

(** Lines 24 to 26 on one distance [d], which does not depend on
    [sigma]. *)
Definition minus_d_sq (sigma d : R) : dual :=
  let sigma := variable sigma in
  let sigma_sq := stop_gradient (square sigma) in
  div (mul (constant (- 0.5)) (square (constant d))) sigma_sq.

(** The same without [K.stop_gradient], for comparison. *)
Definition minus_d_sq_through (sigma d : R) : dual :=
  let sigma := variable sigma in
  let sigma_sq := square sigma in
  div (mul (constant (- 0.5)) (square (constant d))) sigma_sq.

End Gradient.

(* ================================================================= *)
(** * Part V: the rest of [evaluate_nc.py] *)

Module Rest.

(** [touch(path)]: [open(path, 'a')] creates the file when it is
    missing and leaves an existing one as it is; [os.utime] then sets
    its times, which the model of the files does not keep. *)
Definition touch (path : string) (fs : gmap string file) : gmap string file :=
  match fs !! path with
  | Some _ => fs
  | None => <[path := Empty]> fs
  end.

(** The calls of the log that fit the classifier, that predict and that
    score. *)
Definition is_fit {sk : Sklearn} (c : call) : bool :=
  match c with call_fit _ => true | _ => false end.

Definition is_predict {sk : Sklearn} (c : call) : bool :=
  match c with call_predict _ => true | _ => false end.

Definition is_f1_score {sk : Sklearn} (c : call) : bool :=
  match c with call_f1_score _ _ => true | _ => false end.

End Rest.
Export Rest.

(** [read_edgelist]: the text of the file is split into lines, each
    line is stripped of the white space at its end and split at the
    tabs, and every field is read with [int]. *)
Module Edgelist.

(** Text is a list of characters with code points below 256, as the
    file decodes to. *)
Definition TAB : ascii := "009"%char.
Definition LF : ascii := "010"%char.
Definition CR : ascii := "013"%char.

(** The white space of [str.rstrip]: the characters 9 to 13, 28 to 31,
    the blank, the next-line character and the no-break space. *)
Definition is_space (c : ascii) : bool :=
  let n := N_of_ascii c in
  ((9 <=? n) && (n <=? 13) || (28 <=? n) && (n <=? 31) || (n =? 32)
   || (n =? 133) || (n =? 160))%N.

(** The white space [int] drops around a literal: the same without the
    separators 28 to 31. *)
Definition is_int_space (c : ascii) : bool :=
  let n := N_of_ascii c in
  ((9 <=? n) && (n <=? 13) || (n =? 32) || (n =? 133) || (n =? 160))%N.

Fixpoint lstrip (space : ascii → bool) (s : list ascii) : list ascii :=
  match s with
  | c :: s' => if space c then lstrip space s' else s
  | [] => []
  end.

(** [s.rstrip()], for a given white space. *)
Definition rstrip (space : ascii → bool) (s : list ascii) : list ascii :=
  reverse (lstrip space (reverse s)).

(** [s.split(sep)] for a separator of one character: at least one
    field, and an empty field wherever two separators meet or the text
    starts or ends with one. *)
Fixpoint split (sep : ascii) (s : list ascii) : list (list ascii) :=
  match s with
  | [] => [[]]
  | c :: s' =>
      if decide (c = sep) then [] :: split sep s'
      else match split sep s' with
           | f :: fs => (c :: f) :: fs
           | [] => [[c]]
           end
  end.

Definition digit_value (c : ascii) : option Z :=
  let n := N_of_ascii c in
  if ((48 <=? n) && (n <=? 57))%N then Some (Z.of_N (n - 48)) else None.

(** The digits of a decimal literal after its first digit, with the
    value read so far: digits, each of which one underscore may
    precede. *)
Fixpoint digits_from (acc : Z) (s : list ascii) : option Z :=
  match s with
  | [] => Some acc
  | c :: s' =>
      match digit_value c with
      | Some d => digits_from (10 * acc + d) s'
      | None =>
          if decide (c = "_"%char) then
            match s' with
            | c' :: s'' =>
                match digit_value c' with
                | Some d => digits_from (10 * acc + d) s''
                | None => None
                end
            | [] => None
            end
          else None
      end
  end.

(** The most digits [int] reads in a literal: the default of
    [sys.set_int_max_str_digits] in the interpreters that have the
    limit (3.11 and later). *)
Definition max_str_digits : nat := 4300.

(** [int(s)] for a string: white space around the literal is dropped,
    a sign may come first, and the digits are read in base ten.  A
    literal of more than [max_str_digits] digits, underscores not
    counted, is refused.  [None] stands for [ValueError]. *)
Definition int (s : list ascii) : option Z :=
  let s := lstrip is_int_space (rstrip is_int_space s) in
  let '(negative, body) :=
    match s with
    | c :: r => if decide (c = "-"%char) then (true, r)
                else if decide (c = "+"%char) then (false, r)
                else (false, s)
    | [] => (false, s)
    end in
  match body with
  | c :: r =>
      d ← digit_value c;
      v ← digits_from d r;
      if decide (length (filter (λ c, is_Some (digit_value c)) body) ≤ max_str_digits)%nat
      then Some (if negative : bool then - v else v)
      else None
  | [] => None
  end.

(** [f.readlines()] of a file opened in text mode: the lines with
    their ends, where a line ends at a line feed, a carriage return or
    the two in a row, each read as one line feed. *)
Fixpoint readlines (s : list ascii) : list (list ascii) :=
  match s with
  | [] => []
  | c :: s' =>
      if decide (c = LF) then [LF] :: readlines s'
      else if decide (c = CR) then
        match s' with
        | c' :: s'' =>
            if decide (c' = LF) then [LF] :: readlines s''
            else [LF] :: readlines s'
        | [] => [[LF]]
        end
      else match readlines s' with
           | l :: ls => (c :: l) :: ls
           | [] => [[c]]
           end
  end.

(** How [read_edgelist] ends. *)
Inductive outcome : Type :=
| Edges (edges : list (list Z))
| FileNotFound
| ValueError.

(** The loop over the lines of the text. *)
Definition parse_edges (content : list ascii) : option (list (list Z)) :=
  mapM (λ l, mapM int (split TAB (rstrip is_space l))) (readlines content).

(** [read_edgelist(fn)], over the text files by name. *)
Definition read_edgelist (texts : gmap string string) (fn : string) : outcome :=
  match texts !! fn with
  | None => FileNotFound
  | Some content =>
      match parse_edges (list_ascii_of_string content) with
      | Some edges => Edges edges
      | None => ValueError
      end
  end.

(** The text of an edge list, for comparison: one line per edge, its
    integers in decimal notation with tabs between them. *)
Definition digit_char (d : N) : ascii := ascii_of_N (48 + d).

Fixpoint dec_digits (fuel : nat) (n : N) (acc : list ascii) : list ascii :=
  match fuel with
  | O => acc
  | S fuel' =>
      let acc' := digit_char (n mod 10) :: acc in
      if (n <? 10)%N then acc' else dec_digits fuel' (n / 10) acc'
  end.

(** [str(z)]. *)
Definition str (z : Z) : list ascii :=
  let n := Z.to_N (Z.abs z) in
  let ds := dec_digits (S (N.to_nat (N.log2 n))) n [] in
  if decide (z < 0) then "-"%char :: ds else ds.

Fixpoint join (sep : ascii) (fields : list (list ascii)) : list ascii :=
  match fields with
  | [] => []
  | [f] => f
  | f :: fs => f ++ sep :: join sep fs
  end.

Definition write_edgelist (edges : list (list Z)) : list ascii :=
  edge ← edges; join TAB (str <$> edge) ++ [LF].

(** Decimal digits, the value of a run of them read from the left, and
    the characters [str] writes. *)
Definition is_digit (c : ascii) : Prop :=
  ((48 <=? N_of_ascii c) && (N_of_ascii c <=? 57))%N = true.

Definition horner (acc : Z) (ds : list ascii) : Z :=
  foldl (λ a c, 10 * a + default 0 (digit_value c)) acc ds.

Definition field_char (c : ascii) : Prop := is_digit c ∨ c = "-"%char.

End Edgelist.

(* ================================================================= *)
(** * Facts about the result table *)

Section pandas_facts.
Implicit Types (df self other : DataFrame) (data : dict) (seed r : Z) (c : string).

Lemma dict_get_cons k v data c :
  dict_get ((k, v) :: data) c = if decide (k = c) then Some v else dict_get data c.
Proof.
  unfold dict_get. cbn [list_to_map foldr uncurry fst snd].
  rewrite lookup_insert. by repeat case_decide.
Qed.

Lemma elem_of_dict_keys data c : c ∈ data.*1 ↔ is_Some (dict_get data c).
Proof.
  induction data as [|[k v] data IH].
  - cbn. rewrite elem_of_nil. split; [done|]. intros [x Hx]. done.
  - rewrite fmap_cons, elem_of_cons, dict_get_cons, IH. cbn [fst].
    destruct (decide (k = c)) as [->|Hkc].
    + split; [by eexists | by left].
    + split; [intros [?|?]; [congruence | done] | by right].
Qed.

(** The cells of the one-row frame built from a record. *)
Lemma values_of_dict seed data r c :
  values (DataFrame_of_dict [seed] data) !! (r, c)
  = if decide (r = seed) then dict_get data c else None.
Proof.
  unfold DataFrame_of_dict. cbn [values mbind list_bind]. rewrite app_nil_r.
  destruct (decide (r = seed)) as [->|Hr].
  - induction data as [|[k v] data IH]; [done|].
    rewrite fmap_cons. cbn [list_to_map foldr uncurry fst snd].
    rewrite lookup_insert, dict_get_cons.
    destruct (decide (k = c)) as [->|Hkc].
    + by rewrite decide_True.
    + rewrite decide_False by congruence. done.
  - induction data as [|[k v] data IH]; [done|].
    rewrite fmap_cons. cbn [list_to_map foldr uncurry fst snd].
    rewrite lookup_insert_ne by congruence. done.
Qed.

Lemma frame_ok_of_dict seed data : frame_ok (DataFrame_of_dict [seed] data).
Proof.
  split.
  - cbn. apply NoDup_singleton.
  - intros r c. rewrite values_of_dict. case_decide as Hr.
    + subst. intros Hc. split; [by apply list_elem_of_singleton|].
      by apply elem_of_dict_keys.
    + intros [x Hx]. done.
Qed.

Section union_labels.
Context {A : Type} `{EqDecision A} (R : relation A) `{!RelDecision R}.

Lemma elem_of_union_labels (l1 l2 : list A) x :
  x ∈ union_labels R l1 l2 ↔ x ∈ l1 ∨ x ∈ l2.
Proof.
  unfold union_labels. case_decide as Heq.
  - subst. tauto.
  - rewrite merge_sort_Permutation, elem_of_remove_dups, elem_of_app. done.
Qed.

Lemma NoDup_union_labels (l1 l2 : list A) :
  NoDup l1 → NoDup (union_labels R l1 l2).
Proof.
  intros Hl1. unfold union_labels. case_decide; [done|].
  rewrite merge_sort_Permutation. apply NoDup_remove_dups.
Qed.

Lemma union_labels_Permutation (x : A) (l : list A) :
  NoDup l → x ∉ l → union_labels R [x] l ≡ₚ x :: l.
Proof.
  intros Hl Hx. unfold union_labels. case_decide as Heq.
  - exfalso. apply Hx. rewrite <- Heq. set_solver.
  - rewrite merge_sort_Permutation. cbn [app].
    cbn [remove_dups]. destruct (decide_rel elem_of x l) as [|_]; [done|].
    apply NoDup_Permutation.
    + constructor; [by rewrite elem_of_remove_dups | apply NoDup_remove_dups].
    + by constructor.
    + intros y. by rewrite !elem_of_cons, elem_of_remove_dups.
Qed.
End union_labels.

Lemma cell_combine_first self other r c :
  cell (combine_first self other) r c
  = match values self !! (r, c) with
    | Some x => if isna x then cell other r c else x
    | None => cell other r c
    end.
Proof.
  unfold cell, combine_first. cbn [values]. rewrite lookup_union_with.
  destruct (values self !! (r, c)) as [x|], (values other !! (r, c)) as [y|];
    cbn; try done.
  by destruct x.
Qed.

Lemma frame_ok_combine_first self other :
  frame_ok self → frame_ok other → frame_ok (combine_first self other).
Proof.
  intros [Hs1 Hs2] [Ho1 Ho2]. split.
  - cbn. by apply NoDup_union_labels.
  - intros r c. cbn [combine_first values index columns].
    rewrite lookup_union_with, !elem_of_union_labels.
    destruct (values self !! (r, c)) as [x|] eqn:Hx.
    + intros _. destruct (Hs2 r c) as [? ?]; [by rewrite Hx|]. tauto.
    + destruct (values other !! (r, c)) as [y|] eqn:Hy; cbn; [|by intros [? ?]].
      intros _. destruct (Ho2 r c) as [? ?]; [by rewrite Hy|]. tauto.
Qed.
End pandas_facts.

Section save_facts.
Implicit Types (fs : gmap string file) (filename : string) (data : dict).

Lemma union_labels_present {A : Type} `{EqDecision A} (R : relation A)
    `{!RelDecision R} (x : A) (l : list A) :
  NoDup l → x ∈ l → union_labels R [x] l ≡ₚ l.
Proof.
  intros Hl Hx. unfold union_labels. case_decide as Heq; [by rewrite Heq|].
  rewrite merge_sort_Permutation. cbn [app remove_dups].
  destruct (decide_rel elem_of x l) as [_|]; [|done].
  apply NoDup_Permutation; [apply NoDup_remove_dups | done |].
  intros y. by rewrite elem_of_remove_dups.
Qed.

(** One call on a file that satisfies the invariant: it succeeds,
    rewrites only that file, and the new table is the old one with
    the row of [seed] merged in. *)
Lemma save_step filename seed data fs :
  file_ok fs filename →
  ∃ new,
    save_test_results filename seed data fs = Ok (<[filename := Csv new]> fs) ∧
    frame_ok new ∧
    (∀ r, r ∈ index new ↔ r = seed ∨ r ∈ index (table fs filename)) ∧
    (seed ∉ index (table fs filename) →
       index new ≡ₚ seed :: index (table fs filename)) ∧
    (seed ∈ index (table fs filename) →
       index new ≡ₚ index (table fs filename)) ∧
    (∀ c, c ∈ columns new ↔ c ∈ data.*1 ∨ c ∈ columns (table fs filename)) ∧
    (∀ r c, cell new r c =
       match (if decide (r = seed) then dict_get data c else None) with
       | Some x => if isna x then cell (table fs filename) r c else x
       | None => cell (table fs filename) r c
       end).
Proof.
  intros [Hnone | (old & Hold & Hok)].
  - exists (DataFrame_of_dict [seed] data).
    unfold save_test_results, os_path_exists, table. rewrite Hnone.
    rewrite bool_decide_eq_false_2 by (intros [? ?]; done). cbn.
    split; [done|]. split; [apply frame_ok_of_dict|].
    split; [intros r; rewrite list_elem_of_singleton, elem_of_nil; tauto|].
    split; [done|]. split; [intros H; by apply elem_of_nil in H|].
    split; [intros c; rewrite elem_of_nil; tauto|].
    intros r c. unfold cell at 1. rewrite values_of_dict.
    destruct (decide (r = seed)); [|done].
    by destruct (dict_get data c) as [[|q]|].
  - exists (combine_first (DataFrame_of_dict [seed] data) old).
    unfold save_test_results, os_path_exists, read_csv, table. rewrite Hold.
    rewrite bool_decide_eq_true_2 by (by eexists). cbn.
    split; [done|].
    split; [apply frame_ok_combine_first; [apply frame_ok_of_dict | done]|].
    split; [intros r; by rewrite elem_of_union_labels, list_elem_of_singleton|].
    split; [intros H; apply union_labels_Permutation; [apply Hok | done]|].
    split; [intros H; apply union_labels_present; [apply Hok | done]|].
    split; [intros c; by rewrite elem_of_union_labels|].
    intros r c. by rewrite cell_combine_first, values_of_dict.
Qed.

Lemma file_ok_insert fs filename df :
  frame_ok df → file_ok (<[filename := Csv df]> fs) filename.
Proof. intros Hdf. right. exists df. by rewrite lookup_insert_eq. Qed.

(** Any sequence of calls succeeds on a file that satisfies the
    invariant and leaves it satisfying the invariant. *)
Lemma save_sequence_ok filename saves fs :
  file_ok fs filename →
  ∃ fs', save_sequence filename saves fs = Ok fs' ∧ file_ok fs' filename.
Proof.
  revert fs. induction saves as [|[seed data] saves IH]; intros fs Hok.
  - by exists fs.
  - destruct (save_step filename seed data fs Hok) as (new & Hsave & Hnew & _).
    cbn [save_sequence]. rewrite Hsave. cbn.
    apply IH. by apply file_ok_insert.
Qed.

Lemma file_ok_table fs filename :
  file_ok fs filename → frame_ok (table fs filename).
Proof.
  unfold table. intros [-> | (df & -> & Hdf)]; [|done].
  split; [constructor|]. intros r c [x Hx]. done.
Qed.
End save_facts.

(** C1, as amended.  From a result file that is absent or holds a table
    without repeated seeds, every sequence of calls to
    [save_test_results] succeeds and leaves a table with at most one row
    per seed.  A further call for [seed] keeps it so, has a row for
    [seed], and in that row every column of [data] whose new value is
    not NaN takes the new value; a column whose new value is NaN, and a
    column not in [data], keep the previous value, and so does every
    row of another seed. *)
Theorem save_test_results_upsert (filename : string) (saves : list (Z * dict))
    (fs : gmap string file) :
  file_ok fs filename →
  ∃ fs1,
    save_sequence filename saves fs = Ok fs1 ∧
    NoDup (index (table fs1 filename)) ∧
    ∀ seed data, ∃ new,
      save_test_results filename seed data fs1 = Ok (<[filename := Csv new]> fs1) ∧
      NoDup (index new) ∧
      seed ∈ index new ∧
      (∀ r, r ≠ seed → r ∈ index new ↔ r ∈ index (table fs1 filename)) ∧
      (∀ c v, dict_get data c = Some v → isna v = false → cell new seed c = v) ∧
      (∀ c, dict_get data c = Some NaN →
            cell new seed c = cell (table fs1 filename) seed c) ∧
      (∀ c, dict_get data c = None →
            cell new seed c = cell (table fs1 filename) seed c) ∧
      (∀ r c, r ≠ seed → cell new r c = cell (table fs1 filename) r c).
Proof.
  intros Hok.
  destruct (save_sequence_ok filename saves fs Hok) as (fs1 & Hseq & Hok1).
  exists fs1. split; [done|]. split; [by apply file_ok_table|].
  intros seed data.
  destruct (save_step filename seed data fs1 Hok1)
    as (new & Hsave & [Hnd _] & Hidx & _ & _ & _ & Hcell).
  exists new. split; [done|]. split; [done|].
  split; [apply Hidx; by left|].
  split; [intros r Hr; rewrite Hidx; tauto|].
  split; [intros c v Hc Hv; by rewrite Hcell, decide_True, Hc, Hv|].
  split; [intros c Hc; by rewrite Hcell, decide_True, Hc|].
  split; [intros c Hc; by rewrite Hcell, decide_True, Hc|].
  intros r c Hr. by rewrite Hcell, decide_False.
Qed.

(** The idempotence example of the specification: after
    [save(f, 3, {"a": 1.0})], the call [save(f, 3, {"a": 2.0})] leaves
    one row for seed 3, with [a = 2.0]. *)
Lemma save_test_results_upsert_example :
  ∃ fs1 new,
    save_sequence "test_results.csv" [(3, [("a"%string, Num 1)])] ∅ = Ok fs1 ∧
    save_test_results "test_results.csv" 3 [("a"%string, Num 2)] fs1
      = Ok (<["test_results.csv"%string := Csv new]> fs1) ∧
    NoDup (index new) ∧ 3 ∈ index new ∧
    (∀ r, r ≠ 3 → r ∈ index new ↔ r ∈ index (table fs1 "test_results.csv")) ∧
    cell new 3 "a" = Num 2.
Proof.
  destruct (save_test_results_upsert "test_results.csv"
              [(3, [("a"%string, Num 1)])] ∅)
    as (fs1 & Hseq & _ & Hstep).
  { left. reflexivity. }
  destruct (Hstep 3 [("a"%string, Num 2)])
    as (new & Hsave & Hnd & Hin & Hrows & Hwin & _).
  exists fs1, new. repeat split; try done; try (by apply Hrows).
  apply Hwin; reflexivity.
Defined.

(** C1 as stated fails where the new value is NaN: [combine_first]
    fills a null cell of the new row from the old table.  After
    [save(f, 3, {"a": 1.0})], the call [save(f, 3, {"a": nan})] leaves
    [a = 1.0] in the row of seed 3, not the new value. *)
Lemma save_test_results_nan_keeps_old :
  dict_get [("a"%string, NaN)] "a" = Some NaN ∧
  (fs ← save_sequence "test_results.csv"
          [(3, [("a"%string, Num 1)]); (3, [("a"%string, NaN)])] ∅;
   Ok (index (table fs "test_results.csv"),
       cell (table fs "test_results.csv") 3 "a"))
  = Ok ([3], Num 1) ∧
  Num 1 ≠ NaN.
Proof. split; [reflexivity|]. split; [vm_compute; reflexivity | discriminate]. Qed.

(** C2.  A call for a seed that the existing table does not have writes
    the old rows and one new row: the new row holds the values of
    [data] and NaN in every other column, and every old row keeps its
    cells, reading NaN in the columns that only [data] has. *)
Theorem save_test_results_new_seed (filename : string) (seed : Z) (data : dict)
    (fs : gmap string file) (old : DataFrame) :
  fs !! filename = Some (Csv old) →
  frame_ok old →
  seed ∉ index old →
  ∃ new,
    save_test_results filename seed data fs = Ok (<[filename := Csv new]> fs) ∧
    index new ≡ₚ seed :: index old ∧
    (∀ c, c ∈ columns new ↔ c ∈ data.*1 ∨ c ∈ columns old) ∧
    (∀ c, cell new seed c = default NaN (dict_get data c)) ∧
    (∀ r c, r ≠ seed → cell new r c = cell old r c) ∧
    (∀ r c, r ≠ seed → c ∉ columns old → cell new r c = NaN).
Proof.
  intros Hold Hok Hseed.
  assert (Htab : table fs filename = old) by (unfold table; by rewrite Hold).
  destruct (save_step filename seed data fs) as (new & Hsave & _ & _ & Hperm & _ & Hcols & Hcell).
  { right. by exists old. }
  rewrite Htab in *.
  assert (Hrow : ∀ c, cell old seed c = NaN).
  { intros c. unfold cell. destruct (values old !! (seed, c)) as [x|] eqn:Hx; [|done].
    exfalso. apply Hseed. apply (proj2 Hok seed c). by rewrite Hx. }
  assert (Hcol : ∀ r c, c ∉ columns old → cell old r c = NaN).
  { intros r c Hc. unfold cell. destruct (values old !! (r, c)) as [x|] eqn:Hx; [|done].
    exfalso. apply Hc. apply (proj2 Hok r c). by rewrite Hx. }
  exists new. split; [done|]. split; [by apply Hperm|]. split; [done|].
  split; [|split].
  - intros c. rewrite Hcell, decide_True by done.
    destruct (dict_get data c) as [[|q]|]; cbn; by rewrite ?Hrow.
  - intros r c Hr. by rewrite Hcell, decide_False.
  - intros r c Hr Hc. rewrite Hcell, decide_False by done. by apply Hcol.
Qed.

(** The merge example of the specification: [save(f, 1, {"a": 1.0})]
    then [save(f, 2, {"b": 2.0})] gives two rows; row 1 has [a = 1.0]
    and [b = NaN], row 2 has [a = NaN] and [b = 2.0]. *)
Lemma save_test_results_new_seed_example :
  ∃ fs1 new,
    save_test_results "test_results.csv" 1 [("a"%string, Num 1)] ∅ = Ok fs1 ∧
    save_test_results "test_results.csv" 2 [("b"%string, Num 2)] fs1
      = Ok (<["test_results.csv"%string := Csv new]> fs1) ∧
    index new ≡ₚ [2; 1] ∧
    cell new 1 "a" = Num 1 ∧ cell new 1 "b" = NaN ∧
    cell new 2 "a" = NaN ∧ cell new 2 "b" = Num 2.
Proof.
  exists {["test_results.csv"%string := Csv (DataFrame_of_dict [1] [("a"%string, Num 1)])]}.
  destruct (save_test_results_new_seed "test_results.csv" 2 [("b"%string, Num 2)]
              {["test_results.csv"%string := Csv (DataFrame_of_dict [1] [("a"%string, Num 1)])]}
              (DataFrame_of_dict [1] [("a"%string, Num 1)]))
    as (new & Hsave & Hidx & _ & Hnew & Hold & Hnan).
  - reflexivity.
  - apply frame_ok_of_dict.
  - cbn. intros H. apply list_elem_of_singleton in H. discriminate H.
  - exists new. split; [reflexivity|]. split; [done|]. split; [done|].
    split; [by rewrite Hold|]. split; [by rewrite Hold|].
    split; by rewrite Hnew.
Defined.

(* ================================================================= *)
(** * Facts about the file lock *)

Section lock_facts.
Variable busy : nat → bool.
Variable lock_filename : string.

Local Abbreviation try_lock ok := (ev_lockf lock_filename (Z.lor LOCK_EX LOCK_NB) ok).

(** The loop returns at the first attempt that is not refused, having
    made every attempt before it. *)
Lemma spin_acquires (k : nat) :
  ∀ (fuel j : nat) (tr : list event),
    (∀ i, (i < k)%nat → busy (j + i) = true) →
    busy (j + k) = false →
    (k < fuel)%nat →
    spin busy lock_filename fuel j tr
    = (true, tr ++ replicate k (try_lock false) ++ [try_lock true]).
Proof.
  induction k as [|k IH]; intros fuel j tr Hbusy Hfree Hfuel.
  - destruct fuel as [|fuel]; [lia|]. cbn [spin].
    rewrite Nat.add_0_r in Hfree. by rewrite Hfree.
  - destruct fuel as [|fuel]; [lia|]. cbn [spin].
    rewrite <- (Nat.add_0_r j) at 1. rewrite (Hbusy 0%nat) by lia.
    rewrite (IH fuel (S j)).
    + cbn [replicate]. by rewrite <- app_assoc.
    + intros i Hi. replace (S j + i)%nat with (j + S i)%nat by lia.
      apply Hbusy. lia.
    + by replace (S j + k)%nat with (j + S k)%nat by lia.
    + lia.
Qed.

(** While every attempt is refused the loop goes on: after [fuel]
    turns it has made [fuel] attempts and holds no lock. *)
Lemma spin_refused (fuel : nat) :
  ∀ (j : nat) (tr : list event),
    (∀ i, (i < fuel)%nat → busy (j + i) = true) →
    spin busy lock_filename fuel j tr
    = (false, tr ++ replicate fuel (try_lock false)).
Proof.
  induction fuel as [|fuel IH]; intros j tr Hbusy.
  - cbn. by rewrite app_nil_r.
  - cbn [spin]. rewrite <- (Nat.add_0_r j) at 1. rewrite (Hbusy 0%nat) by lia.
    rewrite (IH (S j)).
    + cbn [replicate]. by rewrite <- app_assoc.
    + intros i Hi. replace (S j + i)%nat with (j + S i)%nat by lia.
      apply Hbusy. lia.
Qed.

Lemma no_call_in_attempts (k : nat) (ok : bool) :
  filter (λ e, is_call e = true) (replicate k (try_lock ok)) = [].
Proof.
  induction k as [|k IH]; [done|].
  cbn [replicate]. by rewrite filter_cons_False.
Qed.
End lock_facts.

(** The events that end a lock: the predicate tells an unlock and a
    close from the attempts the call makes. *)
Example release_events :
  is_release (ev_lockf "test_results.lock" LOCK_UN true) = true ∧
  is_release (ev_close "test_results.lock") = true ∧
  is_release (ev_lockf "test_results.lock" (Z.lor LOCK_EX LOCK_NB) true) = false.
Proof. by repeat split. Qed.

(** C7.  With the lock file in place, a call opens it and calls
    [lockf] with [LOCK_EX | LOCK_NB] again and again while the lock is
    refused.  At the first attempt that takes the lock it runs the save
    once, and the outcome and the files are those of that one save.
    For as long as every attempt is refused it has made one attempt per
    turn and has not run the save.  Nothing in the call unlocks or
    closes the lock file. *)
Theorem threadsafe_save_locks_then_saves_once (busy : nat → bool)
    (lock_filename filename : string) (seed : Z) (data : dict)
    (fuel : nat) (w : world) :
  is_Some (fs w !! lock_filename) →
  is_exclusive (Z.lor LOCK_EX LOCK_NB) = true ∧
  is_nonblocking (Z.lor LOCK_EX LOCK_NB) = true ∧
  (∀ k : nat,
     (∀ i, (i < k)%nat → busy i = true) → busy k = false → (k < fuel)%nat →
     ∃ st fs' tr,
       threadsafe_save_test_results busy lock_filename filename seed data fuel w
       = (st, mkWorld fs' (trace w ++ tr)) ∧
       tr = [ev_open lock_filename "r+"]
            ++ replicate k (ev_lockf lock_filename (Z.lor LOCK_EX LOCK_NB) false)
            ++ [ev_lockf lock_filename (Z.lor LOCK_EX LOCK_NB) true; ev_call] ∧
       match save_test_results filename seed data (fs w) with
       | Ok fs1 => st = Returned ∧ fs' = fs1
       | Raise e => st = Raised e ∧ fs' = fs w
       end ∧
       length (filter (λ e, is_call e = true) tr) = 1%nat ∧
       Forall (λ e, is_release e = false) tr) ∧
  ((∀ i, (i < fuel)%nat → busy i = true) →
   ∃ tr,
     threadsafe_save_test_results busy lock_filename filename seed data fuel w
     = (Spinning, mkWorld (fs w) (trace w ++ tr)) ∧
     tr = [ev_open lock_filename "r+"]
          ++ replicate fuel (ev_lockf lock_filename (Z.lor LOCK_EX LOCK_NB) false) ∧
     filter (λ e, is_call e = true) tr = [] ∧
     Forall (λ e, is_release e = false) tr).
Proof.
  intros Hlock. split; [done|]. split; [done|].
  unfold threadsafe_save_test_results, threadsafe_fn, lock_and_run_method, open_rw,
    os_path_exists.
  rewrite bool_decide_eq_true_2 by done. cbn [trace fs]. split.
  - intros k Hbusy Hfree Hfuel.
    rewrite (spin_acquires busy lock_filename k fuel 0%nat) by done.
    rewrite <- !app_assoc.
    set (tr := [ev_open lock_filename "r+"]
               ++ replicate k (ev_lockf lock_filename (Z.lor LOCK_EX LOCK_NB) false)
               ++ [ev_lockf lock_filename (Z.lor LOCK_EX LOCK_NB) true; ev_call]).
    assert (Hcalls : length (filter (λ e, is_call e = true) tr) = 1%nat).
    { unfold tr. rewrite !filter_app, no_call_in_attempts. reflexivity. }
    assert (Hrel : Forall (λ e, is_release e = false) tr).
    { unfold tr. rewrite !Forall_app. split; [by repeat constructor|].
      split; [by apply Forall_replicate | by repeat constructor]. }
    destruct (save_test_results filename seed data (fs w)) as [fs1|e].
    + by exists Returned, fs1, tr.
    + by exists (Raised e), (fs w), tr.
  - intros Hbusy.
    rewrite (spin_refused busy lock_filename fuel 0%nat) by done.
    rewrite <- !app_assoc. eexists. split; [done|]. split; [done|]. split.
    + rewrite filter_app, no_call_in_attempts. reflexivity.
    + rewrite Forall_app. split; [by repeat constructor|].
      by apply Forall_replicate.
Qed.

(** A call that finds the lock held twice before it gets it. *)
Lemma threadsafe_save_locks_then_saves_once_example :
  ∃ fs' tr,
    threadsafe_save_test_results (λ i, bool_decide (i < 2)%nat)
      "test_results.lock" "test_results.csv" 0 [("0.02_micro"%string, Num 0.5)] 3
      (mkWorld {["test_results.lock"%string := Empty]} [])
    = (Returned, mkWorld fs' ([] ++ tr)) ∧
    tr = [ev_open "test_results.lock" "r+"]
         ++ replicate 2 (ev_lockf "test_results.lock" (Z.lor LOCK_EX LOCK_NB) false)
         ++ [ev_lockf "test_results.lock" (Z.lor LOCK_EX LOCK_NB) true; ev_call] ∧
    length (filter (λ e, is_call e = true) tr) = 1%nat ∧
    Forall (λ e, is_release e = false) tr.
Proof.
  destruct (threadsafe_save_locks_then_saves_once (λ i, bool_decide (i < 2)%nat)
              "test_results.lock" "test_results.csv" 0
              [("0.02_micro"%string, Num 0.5)] 3
              (mkWorld {["test_results.lock"%string := Empty]} []))
    as (_ & _ & Hacq & _).
  - cbn. by eexists.
  - destruct (Hacq 2%nat) as (st & fs' & tr & Hrun & Htr & Hsave & Hcalls & Hrel).
    + intros i Hi. by apply bool_decide_eq_true_2.
    + reflexivity.
    + lia.
    + vm_compute in Hsave. destruct Hsave as [-> _].
      by exists fs', tr.
Defined.

(** C10.  When the lock file does not exist the call raises
    [FileNotFoundError] for it at [open]; the save is not run: the
    files are as before and the call has left no event. *)
Theorem threadsafe_save_missing_lock_file (busy : nat → bool)
    (lock_filename filename : string) (seed : Z) (data : dict)
    (fuel : nat) (w : world) :
  fs w !! lock_filename = None →
  threadsafe_save_test_results busy lock_filename filename seed data fuel w
  = (Raised (FileNotFoundError lock_filename), w).
Proof.
  intros Hlock.
  unfold threadsafe_save_test_results, threadsafe_fn, lock_and_run_method, open_rw,
    os_path_exists.
  rewrite bool_decide_eq_false_2; [done|].
  rewrite Hlock. by intros [? ?].
Qed.

(** A call in a directory that holds a result file but no lock file. *)
Lemma threadsafe_save_missing_lock_file_example :
  threadsafe_save_test_results (λ _, false) "test_results.lock" "test_results.csv"
    3 [("a"%string, Num 2)] 1
    (mkWorld {["test_results.csv"%string := Csv (DataFrame_of_dict [3] [("a"%string, Num 1)])]} [])
  = (Raised (FileNotFoundError "test_results.lock"),
     mkWorld {["test_results.csv"%string := Csv (DataFrame_of_dict [3] [("a"%string, Num 1)])]} []).
Proof.
  apply (threadsafe_save_missing_lock_file (λ _, false) "test_results.lock"
           "test_results.csv" 3 [("a"%string, Num 2)] 1
           (mkWorld {["test_results.csv"%string := Csv (DataFrame_of_dict [3] [("a"%string, Num 1)])]} [])).
  reflexivity.
Defined.

(* ================================================================= *)
(** * Facts about the evaluator *)

(** The subtraction rounds as the doubles do: [1 - 2 ^ -60] is 1, and
    a difference that a double holds is exact. *)
Example fsub_rounds :
  fsub (Num 1) (Num (1 # 1152921504606846976)) = Num 1 ∧
  fsub (Num 1) (Num (1 # 4)) = Num (3 # 4) ∧
  fsub (Num 1) NaN = NaN.
Proof. repeat split; vm_compute; reflexivity. Qed.

Section array_facts.
Implicit Types (a : ndarray2) (r c : nat) (v : float64).

Lemma get_set_item_eq a r c v row :
  rows a !! r = Some row → (c < length row)%nat →
  get_item (set_item a r c v) r c = Some v.
Proof.
  intros Hrow Hc. unfold get_item, set_item. cbn [rows].
  rewrite list_lookup_alter_eq, Hrow. cbn.
  by apply list_lookup_insert_eq.
Qed.

Lemma get_set_item_ne a r c v r' c' :
  (r', c') ≠ (r, c) →
  get_item (set_item a r c v) r' c' = get_item a r' c'.
Proof.
  intros Hne. unfold get_item, set_item. cbn [rows].
  destruct (decide (r = r')) as [->|Hr].
  - rewrite list_lookup_alter_eq. destruct (rows a !! r') as [row|]; [|done].
    cbn. apply list_lookup_insert_ne. congruence.
  - by rewrite list_lookup_alter_ne.
Qed.

Lemma well_shaped_set_item n k a r c v :
  well_shaped n k a → well_shaped n k (set_item a r c v).
Proof.
  intros (Hc & Hn & Hrows). unfold well_shaped, set_item. cbn [ncols rows].
  split; [done|]. split; [by rewrite length_alter|].
  apply Forall_alter; [done|]. intros row _ Hrow. by rewrite length_insert.
Qed.

Lemma well_shaped_zeros (n : Z) k a :
  np_zeros n k = Some a → well_shaped (Z.to_nat n) k a.
Proof.
  unfold np_zeros. case_decide; [done|]. intros [= <-].
  unfold well_shaped. cbn [ncols rows].
  split; [done|]. split; [by rewrite length_replicate|].
  apply Forall_replicate. by rewrite length_replicate.
Qed.

Lemma well_shaped_row n k a r :
  well_shaped n k a → (r < n)%nat →
  ∃ row, rows a !! r = Some row ∧ length row = k.
Proof.
  intros (_ & Hn & Hrows) Hr.
  destruct (lookup_lt_is_Some_2 (rows a) r) as [row Hrow]; [lia|].
  exists row. split; [done|].
  by apply (proj1 (Forall_lookup _ _) Hrows r).
Qed.
End array_facts.

Section loop_facts.
Context {A S : Type} (body : A → S → option S).

(** The invariant rule of [for_each], by position in the list. *)
Lemma for_each_inv (P : nat → S → Prop) (l : list A) (s0 s : S) :
  P 0%nat s0 →
  (∀ j a s1 s2, l !! j = Some a → P j s1 → body a s1 = Some s2 → P (Datatypes.S j) s2) →
  for_each body l s0 = Some s →
  P (length l) s.
Proof.
  revert P s0. induction l as [|a l IH]; intros P s0 H0 Hstep Hrun.
  - cbn in Hrun. by injection Hrun as <-.
  - cbn in Hrun. destruct (body a s0) as [s1|] eqn:Hb; [|done]. cbn in Hrun.
    apply (IH (λ j, P (Datatypes.S j)) s1); [ | | done].
    + by apply (Hstep 0%nat a s0 s1).
    + intros j b t1 t2 Hj. by apply (Hstep (Datatypes.S j)).
Qed.

(** A loop whose body succeeds from every state that satisfies [Q],
    and keeps [Q], succeeds. *)
Lemma for_each_is_Some (Q : S → Prop) (l : list A) (s0 : S) :
  Q s0 →
  (∀ a s1, a ∈ l → Q s1 → ∃ s2, body a s1 = Some s2 ∧ Q s2) →
  ∃ s, for_each body l s0 = Some s ∧ Q s.
Proof.
  revert s0. induction l as [|a l IH]; intros s0 H0 Hstep.
  - by exists s0.
  - destruct (Hstep a s0) as (s1 & Hb & H1); [by left | done |].
    cbn. rewrite Hb. cbn. apply IH; [done|].
    intros b t1 Hb1. apply Hstep. by right.
Qed.
End loop_facts.

Section evaluate_facts.
Context {sk : Sklearn}.
Implicit Types (X : Embedding) (y : Labels) (cv : splitter) (ps : list float64)
  (st : loop_state) (g : RandomState).

Lemma enumerate_lookup ps j i p :
  enumerate ps !! j = Some (i, p) ↔ i = j ∧ ps !! j = Some p.
Proof.
  unfold enumerate. rewrite lookup_zip_with_Some. split.
  - intros (a & b & [= -> ->] & Ha & Hb). apply lookup_seq in Ha. by destruct Ha as [-> _].
  - intros [-> Hp]. exists j, p. split; [done|]. split; [|done].
    apply lookup_seq. split; [done|]. by apply lookup_lt_Some in Hp.
Qed.

Lemma enumerate_length ps : length (enumerate ps) = length ps.
Proof. unfold enumerate. rewrite length_zip_with, length_seq. lia. Qed.

(** What one pass through the body of the inner loop does. *)
Lemma inner_body_Some X y cv seed i p st st' :
  inner_body X y cv seed (i, p) st = Some st' →
  ∃ train test g0 est' predictions f1_micro f1_macro,
    iter_indices cv (fsub (Num 1) p) X y (RandomState_of_seed (Z.of_nat seed))
      = Some ((train, test), g0) ∧
    fit (model st) (take_rows X train) (take_labels y train) = Some est' ∧
    predict est' (take_rows X test) = Some predictions ∧
    f1_score (take_labels y test) predictions micro = Some f1_micro ∧
    f1_score (take_labels y test) predictions macro = Some f1_macro ∧
    st' = mkLoop est'
            (set_item (f1_micros st) seed i f1_micro)
            (set_item (f1_macros st) seed i f1_macro)
            (np_random st)
            (calls st ++ [call_split cv 1 (fsub (Num 1) p) (Z.of_nat seed);
                          call_fit train; call_predict test;
                          call_f1_score test micro; call_f1_score test macro]).
Proof.
  unfold inner_body, first_split. intros Hrun.
  destruct (iter_indices cv (fsub (Num 1) p) X y (RandomState_of_seed (Z.of_nat seed)))
    as [[[train test] g0]|] eqn:Hsplit; [|done].
  cbn in Hrun.
  destruct (fit (model st) (take_rows X train) (take_labels y train))
    as [est'|] eqn:Hfit; [|done].
  cbn in Hrun.
  destruct (predict est' (take_rows X test)) as [predictions|] eqn:Hpred; [|done].
  cbn in Hrun.
  destruct (f1_score (take_labels y test) predictions micro) as [mi|] eqn:Hmi; [|done].
  cbn in Hrun.
  destruct (f1_score (take_labels y test) predictions macro) as [ma|] eqn:Hma; [|done].
  cbn in Hrun. injection Hrun as <-.
  by exists train, test, g0, est', predictions, mi, ma.
Qed.

Lemma inner_step X y cv ps n g s j p st st' :
  (s < n)%nat → ps !! j = Some p →
  loop_inv X y cv ps n g s j st →
  inner_body X y cv s (j, p) st = Some st' →
  loop_inv X y cv ps n g s (S j) st'.
Proof.
  intros Hs Hp (Hmi & Hma & Hg & Hcalls & Hall & Hcells) Hrun.
  apply inner_body_Some in Hrun
    as (train & test & g0 & est' & preds & mi & ma & Hsplit & Hfit & Hpred & Hf1 & Hf2 & ->).
  unfold loop_inv. cbn [f1_micros f1_macros np_random calls].
  split; [by apply well_shaped_set_item|].
  split; [by apply well_shaped_set_item|].
  split; [done|]. split; [|split].
  - rewrite filter_app, Hcalls, (take_S_r _ _ _ Hp), fmap_app, <- app_assoc.
    reflexivity.
  - rewrite Hall, (take_S_r _ _ _ Hp), bind_app, <- app_assoc. do 2 f_equal.
    cbn [mbind list_bind]. unfold round_calls. rewrite Hsplit. by rewrite app_nil_r.
  - intros seed i q Hpos Hq.
    destruct (decide ((seed, i) = (s, j))) as [[= -> ->]|Hne].
    + assert (q = p) as -> by congruence.
      destruct (well_shaped_row _ _ _ s Hmi Hs) as (row1 & Hrow1 & Hlen1).
      destruct (well_shaped_row _ _ _ s Hma Hs) as (row2 & Hrow2 & Hlen2).
      apply lookup_lt_Some in Hp.
      exists (model st), est', mi, ma. split.
      * by exists train, test, g0, preds.
      * split; eapply get_set_item_eq; eauto; lia.
    + destruct (Hcells seed i q) as (est0 & est1 & m1 & m2 & Hround & H1 & H2);
        [|done|].
      { destruct Hpos as [?|[-> Hi]]; [by left|]. right. split; [done|].
        assert (i ≠ j) by congruence. lia. }
      exists est0, est1, m1, m2. split; [done|].
      by rewrite !get_set_item_ne.
Qed.

Lemma expected_splits_S cv ps s :
  expected_splits cv ps (S s)
  = expected_splits cv ps s
    ++ ((λ p, call_split cv 1 (fsub (Num 1) p) (Z.of_nat s)) <$> ps).
Proof.
  unfold expected_splits. rewrite seq_S, bind_app. cbn [mbind list_bind].
  by rewrite app_nil_r.
Qed.

Lemma expected_calls_S cv X y ps s :
  expected_calls cv X y ps (S s)
  = expected_calls cv X y ps s ++ (p ← ps; round_calls cv X y s p).
Proof.
  unfold expected_calls. rewrite seq_S, bind_app. cbn [mbind list_bind].
  by rewrite app_nil_r.
Qed.

Lemma outer_step X y cv ps n g s st st' :
  (s < n)%nat →
  loop_inv X y cv ps n g s 0 st →
  outer_body X y cv ps s st = Some st' →
  loop_inv X y cv ps n g (S s) 0 st'.
Proof.
  intros Hs Hinv Hrun. unfold outer_body in Hrun.
  apply (for_each_inv _ (λ j, loop_inv X y cv ps n g s j)) in Hrun; [|done|].
  - rewrite enumerate_length in Hrun.
    destruct Hrun as (Hmi & Hma & Hg & Hcalls & Hall & Hcells).
    split; [done|]. split; [done|]. split; [done|]. split; [|split].
    + rewrite Hcalls, expected_splits_S, firstn_all. cbn. by rewrite app_nil_r.
    + rewrite Hall, expected_calls_S, firstn_all. cbn. by rewrite app_nil_r.
    + intros seed i p Hpos Hp. apply Hcells; [|done].
      apply lookup_lt_Some in Hp.
      destruct Hpos as [?|[_ ?]]; [|lia].
      destruct (decide (seed = s)) as [->|]; [by right | left; lia].
  - intros j [i p] s1 s2 Hj Hinv1 Hbody.
    apply enumerate_lookup in Hj as [-> Hp]. by eapply inner_step.
Qed.

Lemma run_repeats_inv X y cv ps n g st st' :
  loop_inv X y cv ps n g 0 0 st →
  run_repeats X y cv ps n st = Some st' →
  loop_inv X y cv ps n g n 0 st'.
Proof.
  intros Hinv Hrun. unfold run_repeats in Hrun.
  apply (for_each_inv _ (λ s, loop_inv X y cv ps n g s 0)) in Hrun; [|done|].
  - by rewrite length_seq in Hrun.
  - intros j s s1 s2 Hj Hinv1 Hbody.
    apply lookup_seq in Hj as [-> Hlt]. cbn in Hbody. by eapply outer_step.
Qed.

Lemma initial_state_inv X y ps (n : Z) g st :
  initial_state y ps n g = Some st →
  0 ≤ n ∧ model st = (select_mode y).1 ∧
  loop_inv X y (select_mode y).2 ps (Z.to_nat n) g 0 0 st.
Proof.
  unfold initial_state. intros Hinit.
  destruct (np_zeros n (length ps)) as [a|] eqn:Ha; [|done].
  cbn in Hinit. injection Hinit as <-.
  split; [unfold np_zeros in Ha; case_decide; [done | lia]|].
  split; [done|].
  split; [by apply well_shaped_zeros|]. split; [by apply well_shaped_zeros|].
  split; [done|]. split; [done|]. split; [done|].
  intros seed i p [?|[_ ?]]; lia.
Qed.

Lemma evaluate_loops_inv X y ps (n : Z) g st :
  evaluate_loops X y ps n g = Some st →
  loop_inv X y (select_mode y).2 ps (Z.to_nat n) g (Z.to_nat n) 0 st.
Proof.
  unfold evaluate_loops. intros Hrun.
  destruct (initial_state y ps n g) as [st0|] eqn:Hinit; [|done].
  cbn in Hrun. apply (initial_state_inv X) in Hinit as (_ & _ & Hinv).
  by eapply run_repeats_inv.
Qed.
End evaluate_facts.

Section chain_facts.
Context {sk : Sklearn}.
Implicit Types (X : Embedding) (y : Labels) (cv : splitter) (ps : list float64)
  (st : loop_state) (g : RandomState) (est : Estimator)
  (row : list (float64 * float64)) (scores : list (list (float64 * float64))).

(** The library calls are functions: a round has one outcome. *)
Lemma split_fit_score_unique cv X y seed p est est1 est2 mi1 ma1 mi2 ma2 :
  split_fit_score cv X y seed p est est1 mi1 ma1 →
  split_fit_score cv X y seed p est est2 mi2 ma2 →
  est1 = est2 ∧ mi1 = mi2 ∧ ma1 = ma2.
Proof.
  intros (train & test & g1 & preds & Hs & Hf & Hp & Hmi & Hma)
         (train' & test' & g2 & preds' & Hs' & Hf' & Hp' & Hmi' & Hma').
  rewrite Hs in Hs'. injection Hs' as <- <- <-.
  rewrite Hf in Hf'. injection Hf' as <-.
  rewrite Hp in Hp'. injection Hp' as <-.
  rewrite Hmi in Hmi'. rewrite Hma in Hma'. by simplify_eq.
Qed.

Lemma scored_row_unique cv X y seed est ps row1 row2 est1 est2 :
  scored_row cv X y seed est ps row1 est1 →
  scored_row cv X y seed est ps row2 est2 →
  row1 = row2 ∧ est1 = est2.
Proof.
  intros H1. revert row2 est2.
  induction H1 as [est|est est' est'' p ps mi ma row Hround Hrest IH];
    intros row2 est2 H2; inversion H2; subst; [done|].
  match goal with
  | H : split_fit_score _ _ _ _ _ _ _ _ _ |- _ =>
      destruct (split_fit_score_unique _ _ _ _ _ _ _ _ _ _ _ _ Hround H)
        as (<- & <- & <-)
  end.
  match goal with
  | H : scored_row _ _ _ _ _ _ _ _ |- _ => destruct (IH _ _ H) as [<- <-]
  end.
  done.
Qed.

Lemma scored_repeats_unique cv X y ps est seeds scores1 scores2 est1 est2 :
  scored_repeats cv X y ps est seeds scores1 est1 →
  scored_repeats cv X y ps est seeds scores2 est2 →
  scores1 = scores2 ∧ est1 = est2.
Proof.
  intros H1. revert scores2 est2.
  induction H1 as [est|est est' est'' seed seeds row scores Hrow Hrest IH];
    intros scores2 est2 H2; inversion H2; subst; [done|].
  match goal with
  | H : scored_row _ _ _ _ _ _ _ _ |- _ =>
      destruct (scored_row_unique _ _ _ _ _ _ _ _ _ _ Hrow H) as [<- <-]
  end.
  match goal with
  | H : scored_repeats _ _ _ _ _ _ _ _ |- _ => destruct (IH _ _ H) as [<- <-]
  end.
  done.
Qed.

Lemma scored_row_snoc cv X y seed est est' est'' ps p row mi ma :
  scored_row cv X y seed est ps row est' →
  split_fit_score cv X y seed p est' est'' mi ma →
  scored_row cv X y seed est (ps ++ [p]) (row ++ [(mi, ma)]) est''.
Proof.
  induction 1 as [est|est e1 e2 q qs m1 m2 row Hround Hrest IH]; intros Hlast; cbn.
  - econstructor; [done | constructor].
  - econstructor; [done | by apply IH].
Qed.

Lemma scored_row_length cv X y seed est ps row est' :
  scored_row cv X y seed est ps row est' → length row = length ps.
Proof. induction 1; cbn; congruence. Qed.

Lemma scored_repeats_snoc cv X y ps est est' est'' seeds seed scores row :
  scored_repeats cv X y ps est seeds scores est' →
  scored_row cv X y seed est' ps row est'' →
  scored_repeats cv X y ps est (seeds ++ [seed]) (scores ++ [row]) est''.
Proof.
  induction 1 as [est|est e1 e2 s ss r rs Hrow Hrest IH]; intros Hlast; cbn.
  - econstructor; [done | constructor].
  - econstructor; [done | by apply IH].
Qed.

Lemma scored_repeats_length cv X y ps est seeds scores est' :
  scored_repeats cv X y ps est seeds scores est' →
  length scores = length seeds ∧ Forall (λ row, length row = length ps) scores.
Proof.
  induction 1 as [est|est e1 e2 s ss r rs Hrow Hrest [IH1 IH2]]; cbn.
  - by split.
  - split; [congruence|]. constructor; [|done]. by eapply scored_row_length.
Qed.

Lemma score_at_app scores row seed i :
  score_at (scores ++ [row]) seed i
  = if decide (seed < length scores)%nat then score_at scores seed i
    else if decide (seed = length scores) then row !! i else None.
Proof.
  unfold score_at. case_decide as Hlt.
  - by rewrite lookup_app_l.
  - rewrite lookup_app_r by lia. case_decide as Heq.
    + subst seed. by rewrite Nat.sub_diag.
    + destruct (seed - length scores)%nat as [|k] eqn:Hk; [lia|]. done.
Qed.

Lemma chain_inner_step X y cv ps n g est0 s j p st st' :
  (s < n)%nat → ps !! j = Some p →
  loop_inv X y cv ps n g s j st →
  chain_inv X y cv ps est0 s j st →
  inner_body X y cv s (j, p) st = Some st' →
  chain_inv X y cv ps est0 s (S j) st'.
Proof.
  intros Hs Hp (Hmi & Hma & _) (scores & row & est_s & Hdone & Hrow & Hcells) Hrun.
  apply inner_body_Some in Hrun
    as (train & test & g0 & est' & preds & mi & ma & Hsplit & Hfit & Hpred & Hf1 & Hf2 & ->).
  destruct (scored_repeats_length _ _ _ _ _ _ _ _ Hdone) as [Hlen _].
  rewrite length_seq in Hlen.
  pose proof (scored_row_length _ _ _ _ _ _ _ _ Hrow) as Hlenrow.
  pose proof (lookup_lt_Some _ _ _ Hp) as Hj.
  rewrite length_take in Hlenrow.
  exists scores, (row ++ [(mi, ma)]), est_s. cbn [model f1_micros f1_macros].
  split; [done|]. split.
  - rewrite (take_S_r _ _ _ Hp). eapply scored_row_snoc; [done|].
    by exists train, test, g0, preds.
  - intros seed i v Hv. rewrite score_at_app in Hv.
    destruct (decide ((seed, i) = (s, j))) as [[= -> ->]|Hne].
    + rewrite decide_False, decide_True in Hv by lia.
      rewrite lookup_app_r, Hlenrow in Hv by lia.
      replace (j - j `min` length ps)%nat with 0%nat in Hv by lia.
      injection Hv as <-.
      destruct (well_shaped_row _ _ _ s Hmi Hs) as (row1 & Hrow1 & Hlen1).
      destruct (well_shaped_row _ _ _ s Hma Hs) as (row2 & Hrow2 & Hlen2).
      split; eapply get_set_item_eq; eauto; lia.
    + rewrite !get_set_item_ne by done. apply Hcells.
      rewrite score_at_app. case_decide; [done|]. case_decide; [|done].
      subst seed. apply lookup_app_Some in Hv as [Hv|[Hge Hv]]; [done|].
      rewrite Hlenrow in Hge, Hv. apply list_lookup_singleton_Some in Hv as [Hi _].
      assert (i = j) by lia. congruence.
Qed.

Lemma chain_outer_step X y cv ps n g est0 s st st' :
  (s < n)%nat →
  loop_inv X y cv ps n g s 0 st →
  chain_inv X y cv ps est0 s 0 st →
  outer_body X y cv ps s st = Some st' →
  chain_inv X y cv ps est0 (S s) 0 st'.
Proof.
  intros Hs Hinv Hchain Hrun. unfold outer_body in Hrun.
  apply (for_each_inv _ (λ j t, loop_inv X y cv ps n g s j t ∧
                                chain_inv X y cv ps est0 s j t)) in Hrun; [|done|].
  - rewrite enumerate_length in Hrun.
    destruct Hrun as (_ & scores & row & est_s & Hdone & Hrow & Hcells).
    rewrite firstn_all in Hrow.
    exists (scores ++ [row]), [], (model st').
    split; [|split].
    + rewrite seq_S. cbn. by eapply scored_repeats_snoc.
    + cbn. constructor.
    + intros seed i v Hv. apply Hcells. rewrite score_at_app in Hv.
      case_decide; [done|]. case_decide; [|done]. by destruct i.
  - intros j [i p] s1 s2 Hj [Hinv1 Hchain1] Hbody.
    apply enumerate_lookup in Hj as [-> Hp].
    split; [by eapply inner_step | by eapply chain_inner_step].
Qed.

(** A completed run is the chain of its rounds, started on the
    classifier and drawn with the splitter that the labels select. *)
Lemma evaluate_loops_scored X y ps (n : Z) g st :
  evaluate_loops X y ps n g = Some st →
  ∃ scores,
    scored_with (select_mode y).2 (select_mode y).1 X y ps (Z.to_nat n) st scores.
Proof.
  unfold evaluate_loops. intros Hrun.
  destruct (initial_state y ps n g) as [st0|] eqn:Hinit; [|done].
  cbn in Hrun. apply (initial_state_inv X) in Hinit as (_ & Hmodel & Hinv).
  unfold run_repeats in Hrun.
  apply (for_each_inv _ (λ s t,
           loop_inv X y (select_mode y).2 ps (Z.to_nat n) g s 0 t ∧
           chain_inv X y (select_mode y).2 ps (select_mode y).1 s 0 t)) in Hrun.
  - rewrite length_seq in Hrun.
    destruct Hrun as (_ & scores & row & est_s & Hdone & Hrow & Hcells).
    cbn in Hrow. inversion Hrow; subst.
    exists scores. split; [done|].
    intros seed i p Hseed Hp.
    destruct (scored_repeats_length _ _ _ _ _ _ _ _ Hdone) as [Hlen Hrows].
    rewrite length_seq in Hlen.
    destruct (lookup_lt_is_Some_2 scores seed) as [r Hr]; [lia|].
    pose proof (proj1 (Forall_lookup _ _) Hrows seed r Hr) as Hlenr. cbn in Hlenr.
    destruct (lookup_lt_is_Some_2 r i) as [[mi ma] Hv].
    { rewrite Hlenr. by eapply lookup_lt_Some. }
    assert (Hat : score_at scores seed i = Some (mi, ma)).
    { unfold score_at. by rewrite Hr. }
    exists mi, ma. split; [done|].
    apply (Hcells seed i (mi, ma)). rewrite score_at_app.
    by rewrite decide_True by lia.
  - split; [done|]. exists [], [], (select_mode y).1.
    split; [constructor|]. split; [rewrite <- Hmodel; constructor|].
    intros seed i v Hv. by destruct seed.
  - intros j s s1 s2 Hj [Hinv1 Hchain1] Hbody.
    apply lookup_seq in Hj as [-> Hlt]. cbn in Hbody.
    split; [by eapply outer_step | by eapply chain_outer_step].
Qed.

(** Column [i] of a score array of a completed run is column [i] of
    the scores. *)
Lemma scored_columns cv est0 X y ps n st scores i :
  scored_with cv est0 X y ps n st scores → (i < length ps)%nat →
  (λ seed, default NaN (get_item (f1_micros st) seed i)) <$> seq 0 n
    = micro_column scores i ∧
  (λ seed, default NaN (get_item (f1_macros st) seed i)) <$> seq 0 n
    = macro_column scores i.
Proof.
  intros [Hchain Hcells] Hi.
  destruct (scored_repeats_length _ _ _ _ _ _ _ _ Hchain) as [Hlen _].
  rewrite length_seq in Hlen.
  destruct (lookup_lt_is_Some_2 ps i Hi) as [p Hp].
  split; apply list_eq; intros seed; unfold micro_column, macro_column;
    rewrite !list_lookup_fmap;
    (destruct (decide (seed < n)%nat) as [Hseed|Hseed];
     [ rewrite lookup_seq_lt by done;
       destruct (Hcells seed i p Hseed Hp) as (mi & ma & Hat & H1 & H2);
       unfold score_at in Hat;
       destruct (scores !! seed) as [r|]; [|done]; cbn in Hat |- *;
       rewrite Hat; cbn; by rewrite ?H1, ?H2
     | rewrite lookup_seq_ge by lia; by rewrite (lookup_ge_None_2 scores) by lia ]).
Qed.
End chain_facts.

Section toy_facts.
(** The scores of the second stand-in library lie between 0 and 1. *)
Lemma toy_correct_le (y predictions : list Z) :
  (toy_correct y predictions ≤ length y)%nat.
Proof.
  unfold toy_correct. etrans; [apply length_filter|].
  rewrite length_zip_with. lia.
Qed.

Lemma share_in_unit (c t : nat) :
  (c ≤ t)%nat → in_unit (Num (Qred (Z.of_nat c # Pos.of_nat t))).
Proof.
  intros Hct. cbn [in_unit]. rewrite Qred_correct. unfold Qle. cbn [Qnum Qden].
  destruct t as [|t].
  - assert (c = 0%nat) as -> by lia. cbn. lia.
  - rewrite <- Pos.of_nat_succ, Zpos_P_of_succ_nat. lia.
Qed.

Lemma toy_f1_score_in_unit (y predictions : list Z) (avg : average) :
  in_unit (toy_f1_score y predictions avg).
Proof.
  pose proof (toy_correct_le y predictions).
  destruct avg; cbn [toy_f1_score]; apply share_in_unit; lia.
Qed.
End toy_facts.

(** C3.  In a run that completes, the evaluator draws one split for
    each repeat index and each percentage, in loop order, each with
    [n_splits = 1], [test_size = 1 - p] and the repeat index as
    [random_state]; its library calls are, round after round, that
    split, one fit on the train partition, one prediction on the test
    partition and the two scores of that prediction.  The rounds form
    one chain on the classifier object: the first fits the classifier
    that the labels select, each next one fits the object as the fit
    before it left it, and the run ends with the object as the last fit
    left it.  Cell (seed, index of p) of the two score arrays holds
    the micro and the macro F1 of the round of repeat [seed] and
    percentage [p] in that chain: the scores of the prediction that the
    classifier, fitted on the train partition of that round's split,
    makes on its test partition. *)
Theorem evaluate_scores_each_round {sk : Sklearn} (X : Embedding) (y : Labels)
    (ps : list float64) (n : Z) (g : RandomState) (st : loop_state) :
  evaluate_loops X y ps n g = Some st →
  filter (λ c, is_split c = true) (calls st)
    = expected_splits (select_mode y).2 ps (Z.to_nat n) ∧
  calls st = expected_calls (select_mode y).2 X y ps (Z.to_nat n) ∧
  ∃ scores,
    scored_repeats (select_mode y).2 X y ps (select_mode y).1
      (seq 0 (Z.to_nat n)) scores (model st) ∧
    ∀ (seed i : nat) (p : float64),
      (seed < Z.to_nat n)%nat → ps !! i = Some p →
      ∃ est est' f1_micro f1_macro,
        split_fit_score (select_mode y).2 X y seed p est est' f1_micro f1_macro ∧
        score_at scores seed i = Some (f1_micro, f1_macro) ∧
        get_item (f1_micros st) seed i = Some f1_micro ∧
        get_item (f1_macros st) seed i = Some f1_macro.
Proof.
  intros Hrun.
  destruct (evaluate_loops_scored _ _ _ _ _ _ Hrun) as (scores & Hchain & Hscores).
  apply evaluate_loops_inv in Hrun as (_ & _ & _ & Hcalls & Hall & Hcells).
  split; [|split].
  - rewrite Hcalls. cbn. by rewrite app_nil_r.
  - rewrite Hall. cbn. by rewrite app_nil_r.
  - exists scores. split; [done|]. intros seed i p Hseed Hp.
    destruct (Hcells seed i p) as (est & est' & mi & ma & Hround & H1 & H2);
      [by left | done |].
    destruct (Hscores seed i p Hseed Hp) as (mi' & ma' & Hat & H1' & H2').
    exists est, est', mi, ma. split; [done|].
    by replace mi' with mi in * by congruence; replace ma' with ma in * by congruence.
Qed.

(** Two repeats over the percentages 0.25 and 0.75 on the second
    stand-in library, where every round scores differently: the cells
    of the two arrays are the scores of the rounds. *)
Lemma evaluate_scores_each_round_example :
  ∃ st scores,
    evaluate_loops (sk := toy_sklearn) [10; 20; 30; 40; 50; 60]
      (1%nat, [0; 1; 1; 0; 1; 1]) [Num 0.25; Num 0.75] 2 7 = Some st ∧
    scored_repeats (sk := toy_sklearn) StratifiedShuffleSplit
      [10; 20; 30; 40; 50; 60] (1%nat, [0; 1; 1; 0; 1; 1]) [Num 0.25; Num 0.75]
      (false, None) [0; 1]%nat scores (model st) ∧
    score_at scores 1 0 = Some (Num (3 # 5), Num (3 # 10)) ∧
    rows (f1_micros st) = [[Num (1 # 5); Num (1 # 4)]; [Num (3 # 5); Num (1 # 2)]] ∧
    rows (f1_macros st) = [[Num (1 # 10); Num (1 # 8)]; [Num (3 # 10); Num (1 # 4)]] ∧
    filter (λ c, is_split c = true) (calls st)
      = [call_split StratifiedShuffleSplit 1 (Num (3 # 4)) 0;
         call_split StratifiedShuffleSplit 1 (Num (1 # 4)) 0;
         call_split StratifiedShuffleSplit 1 (Num (3 # 4)) 1;
         call_split StratifiedShuffleSplit 1 (Num (1 # 4)) 1].
Proof.
  eexists. 
  assert (Hrun : evaluate_loops (sk := toy_sklearn) [10; 20; 30; 40; 50; 60]
            (1%nat, [0; 1; 1; 0; 1; 1]) [Num 0.25; Num 0.75] 2 7 = Some _)
    by (vm_compute; reflexivity).
  destruct (evaluate_scores_each_round (sk := toy_sklearn) _ _ _ _ _ _ Hrun)
    as (Hsplits & _ & scores & Hchain & Hcells).
  exists scores. split; [exact Hrun|]. split; [exact Hchain|].
  split; [|split; [reflexivity|split; [reflexivity|exact Hsplits]]].
  destruct (Hcells 1%nat 0%nat (Num 0.25)) as (_ & _ & mi & ma & _ & Hat & H1 & H2);
    [cbn; lia | reflexivity |].
  vm_compute in H1. vm_compute in H2. injection H1 as <-. injection H2 as <-.
  exact Hat.
Defined.

(** C4.  The strategy follows the number of dimensions of the labels.
    With more than one, a completed run is the chain of rounds that
    starts on the one-vs-rest wrapper of [LogisticRegressionCV] and
    draws every split with [ShuffleSplit]: those are the classifier
    that is fitted and the splitter whose partitions are used, and the
    score arrays hold the scores of that chain.  Otherwise it is the
    chain that starts on the bare [LogisticRegressionCV] and draws
    every split with [StratifiedShuffleSplit]. *)
Theorem evaluate_selects_mode {sk : Sklearn} (X : Embedding) (y : Labels)
    (ps : list float64) (n : Z) (g : RandomState) (st : loop_state) :
  evaluate_loops X y ps n g = Some st →
  ((1 < ndim y)%nat →
     calls st = expected_calls ShuffleSplit X y ps (Z.to_nat n) ∧
     ∃ scores,
       scored_with ShuffleSplit (OneVsRestClassifier LogisticRegressionCV)
         X y ps (Z.to_nat n) st scores) ∧
  (¬ (1 < ndim y)%nat →
     calls st = expected_calls StratifiedShuffleSplit X y ps (Z.to_nat n) ∧
     ∃ scores,
       scored_with StratifiedShuffleSplit LogisticRegressionCV
         X y ps (Z.to_nat n) st scores).
Proof.
  intros Hrun.
  destruct (evaluate_loops_scored _ _ _ _ _ _ Hrun) as (scores & Hscored).
  apply evaluate_loops_inv in Hrun as (_ & _ & _ & _ & Hall & _).
  cbn in Hall. rewrite app_nil_r in Hall. revert Hall Hscored.
  unfold select_mode. split; intros Hdim.
  - rewrite decide_True in Hall, Hscored by done. split; [done | by exists scores].
  - rewrite decide_False in Hall, Hscored by done. split; [done | by exists scores].
Qed.

(** A run on one-dimensional labels and a run on two-dimensional
    labels, on the second stand-in library: the classifier that the
    run leaves is bare in the first and wrapped in the second, and the
    splits, and with them the scores, are those of the two
    splitters. *)
Lemma evaluate_selects_mode_example :
  ∃ st st',
    evaluate_loops (sk := toy_sklearn) [10; 20; 30; 40; 50; 60]
      (1%nat, [0; 1; 1; 0; 1; 1]) [Num 0.25; Num 0.75] 2 7 = Some st ∧
    evaluate_loops (sk := toy_sklearn) [10; 20; 30; 40; 50; 60]
      (2%nat, [0; 1; 1; 0; 1; 1]) [Num 0.25; Num 0.75] 2 7 = Some st' ∧
    (∃ scores,
       scored_with (sk := toy_sklearn) StratifiedShuffleSplit (false, None)
         [10; 20; 30; 40; 50; 60] (1%nat, [0; 1; 1; 0; 1; 1])
         [Num 0.25; Num 0.75] 2 st scores) ∧
    (∃ scores,
       scored_with (sk := toy_sklearn) ShuffleSplit (true, None)
         [10; 20; 30; 40; 50; 60] (2%nat, [0; 1; 1; 0; 1; 1])
         [Num 0.25; Num 0.75] 2 st' scores) ∧
    model st = (false, Some 1) ∧
    model st' = (true, Some 1) ∧
    rows (f1_micros st) = [[Num (1 # 5); Num (1 # 4)]; [Num (3 # 5); Num (1 # 2)]] ∧
    rows (f1_micros st') = [[Num (3 # 5); Num (1 # 2)]; [Num (3 # 5); Num (3 # 4)]].
Proof.
  do 2 eexists.
  assert (Hrun : evaluate_loops (sk := toy_sklearn) [10; 20; 30; 40; 50; 60]
            (1%nat, [0; 1; 1; 0; 1; 1]) [Num 0.25; Num 0.75] 2 7 = Some _)
    by (vm_compute; reflexivity).
  assert (Hrun' : evaluate_loops (sk := toy_sklearn) [10; 20; 30; 40; 50; 60]
            (2%nat, [0; 1; 1; 0; 1; 1]) [Num 0.25; Num 0.75] 2 7 = Some _)
    by (vm_compute; reflexivity).
  split; [exact Hrun|]. split; [exact Hrun'|].
  split; [|split; [|by repeat split]].
  - refine (proj2 (proj2 (evaluate_selects_mode (sk := toy_sklearn) _ _ _ _ _ _ Hrun) _)).
    cbn. lia.
  - refine (proj2 (proj1 (evaluate_selects_mode (sk := toy_sklearn) _ _ _ _ _ _ Hrun') _)).
    cbn. lia.
Defined.

Section evaluate_total.
Context {sk : Sklearn}.
Implicit Types (X : Embedding) (y : Labels) (cv : splitter) (ps : list float64)
  (st : loop_state) (g : RandomState).

Lemma inner_body_succeeds X y cv seed i p st est' f1_micro f1_macro :
  split_fit_score cv X y seed p (model st) est' f1_micro f1_macro →
  is_Some (inner_body X y cv seed (i, p) st).
Proof.
  intros (train & test & g0 & preds & Hsplit & Hfit & Hpred & Hmi & Hma).
  unfold inner_body, first_split. rewrite Hsplit. cbn.
  rewrite Hfit. cbn. rewrite Hpred. cbn. rewrite Hmi. cbn. rewrite Hma. cbn.
  by eexists.
Qed.

Lemma run_repeats_succeeds X y cv ps n st :
  calls_succeed cv X y ps n →
  is_Some (run_repeats X y cv ps n st).
Proof.
  intros Hok. unfold run_repeats.
  destruct (for_each_is_Some (outer_body X y cv ps) (λ _, True) (seq 0 n) st)
    as (st' & Hrun & _); [done| |by exists st'].
  intros seed s1 Hseed _. apply elem_of_seq in Hseed.
  unfold outer_body.
  destruct (for_each_is_Some (inner_body X y cv seed) (λ _, True) (enumerate ps) s1)
    as (s2 & Hinner & _); [done| |by exists s2].
  intros [i p] t1 Hip _. apply list_elem_of_lookup in Hip as [j Hj].
  apply enumerate_lookup in Hj as [-> Hp].
  destruct (Hok seed p (model t1)) as (est' & mi & ma & Hround).
  { lia. }
  { by apply list_elem_of_lookup_2 in Hp. }
  destruct (inner_body_succeeds X y cv seed j p t1 est' mi ma Hround) as [t2 Ht2].
  by exists t2.
Qed.

Lemma evaluate_loops_succeeds X y ps (n : Z) g :
  0 ≤ n →
  calls_succeed (select_mode y).2 X y ps (Z.to_nat n) →
  is_Some (evaluate_loops X y ps n g).
Proof.
  intros Hn Hok. unfold evaluate_loops, initial_state, np_zeros.
  rewrite decide_False by lia. cbn.
  by apply run_repeats_succeeds.
Qed.

Lemma inner_body_np_random X y cv seed ip g st :
  inner_body X y cv seed ip (with_np_random g st)
  = with_np_random g <$> inner_body X y cv seed ip st.
Proof.
  destruct ip as [i p]. unfold inner_body, first_split. cbn [model np_random with_np_random].
  destruct (iter_indices cv (fsub (Num 1) p) X y (RandomState_of_seed (Z.of_nat seed)))
    as [[[train test] g0]|]; [|done].
  cbn.
  destruct (fit (model st) (take_rows X train) (take_labels y train)) as [est'|];
    [|done].
  cbn. destruct (predict est' (take_rows X test)) as [preds|]; [|done].
  cbn. destruct (f1_score (take_labels y test) preds micro) as [mi|]; [|done].
  cbn. destruct (f1_score (take_labels y test) preds macro) as [ma|]; [|done].
  reflexivity.
Qed.

Lemma for_each_fmap {A S : Type} (body : A → S → option S) (f : S → S)
    (l : list A) (s : S) :
  (∀ a s, body a (f s) = f <$> body a s) →
  for_each body l (f s) = f <$> for_each body l s.
Proof.
  intros Hbody. revert s. induction l as [|a l IH]; intros s; [done|].
  cbn. rewrite Hbody. destruct (body a s) as [s1|]; [|done].
  cbn. apply IH.
Qed.

Lemma evaluate_loops_np_random X y ps (n : Z) g1 g2 :
  evaluate_loops X y ps n g2 = with_np_random g2 <$> evaluate_loops X y ps n g1.
Proof.
  unfold evaluate_loops, initial_state.
  destruct (np_zeros n (length ps)) as [a|]; [|done]. cbn.
  change (mkLoop (select_mode y).1 a a g2 [])
    with (with_np_random g2 (mkLoop (select_mode y).1 a a g1 [])).
  unfold run_repeats. apply for_each_fmap. intros seed s.
  unfold outer_body. apply for_each_fmap. intros ip t.
  apply inner_body_np_random.
Qed.
End evaluate_total.

(** C6.  The outputs of the evaluator do not depend on the state of
    the global random generator at the call, and the call leaves that
    generator as it found it: two calls on the same embedding, labels,
    percentages and repeat count return the same result. *)
Theorem evaluate_deterministic {sk : Sklearn} (X : Embedding) (y : Labels)
    (ps : list float64) (n : Z) (g1 g2 : RandomState) :
  (evaluate_node_classification X y ps n g1).1
  = (evaluate_node_classification X y ps n g2).1 ∧
  (evaluate_node_classification X y ps n g1).2 = g1.
Proof.
  unfold evaluate_node_classification.
  rewrite (evaluate_loops_np_random X y ps n g1 g2).
  destruct (evaluate_loops X y ps n g1) as [st|] eqn:Hrun; [|done].
  cbn. split; [done|].
  by apply evaluate_loops_inv in Hrun as (_ & _ & Hg & _).
Qed.

Section mean_facts.
Implicit Types (a : ndarray2) (l : list float64).

Lemma foldl_fadd_bounds l (q0 : Q) :
  Forall in_unit l →
  ∃ q, foldl fadd (Num q0) l = Num q ∧
       (q0 <= q)%Q ∧ (q <= q0 + inject_Z (Z.of_nat (length l)))%Q.
Proof.
  revert q0. induction l as [|x l IH]; intros q0 Hl.
  - exists q0. split; [done|]. cbn [length].
    change (inject_Z (Z.of_nat 0)) with 0%Q. split; Lqa.lra.
  - apply Forall_cons in Hl as [Hx Hl]. destruct x as [|b]; [done|].
    destruct Hx as [Hb0 Hb1].
    destruct (IH (q0 + b)%Q Hl) as (q & Hq & Hlo & Hhi).
    exists q. cbn [foldl fadd]. split; [done|].
    cbn [length]. rewrite Nat2Z.inj_succ, <- Z.add_1_l, inject_Z_plus.
    change (inject_Z 1) with 1%Q. split; Lqa.lra.
Qed.

Lemma mean_in_unit l :
  l ≠ [] → Forall in_unit l → in_unit (fdiv_count (fsum l) (length l)).
Proof.
  intros Hne Hl. unfold fsum.
  destruct (foldl_fadd_bounds l 0 Hl) as (q & -> & Hlo & Hhi).
  destruct l as [|x l]; [done|]. cbn [length fdiv_count in_unit].
  assert (Hpos : (0 < inject_Z (Z.of_nat (S (length l))))%Q).
  { change 0%Q with (inject_Z 0). rewrite <- Zlt_Qlt. lia. }
  cbn [length] in Hhi. split.
  - apply Qle_shift_div_l; [done|]. Lqa.lra.
  - apply Qle_shift_div_r; [done|]. Lqa.lra.
Qed.

Lemma column_get_item n k a i :
  well_shaped n k a →
  column a i = (λ seed, default NaN (get_item a seed i)) <$> seq 0 n.
Proof.
  intros (_ & Hn & _). unfold column, get_item. apply list_eq. intros r.
  rewrite !list_lookup_fmap.
  destruct (decide (r < n)%nat) as [Hr|Hr].
  - rewrite lookup_seq_lt by done. cbn.
    destruct (lookup_lt_is_Some_2 (rows a) r) as [row Hrow]; [lia|].
    by rewrite Hrow.
  - rewrite lookup_seq_ge by lia. rewrite lookup_ge_None_2 by lia. done.
Qed.

Lemma mean_axis0_length a : length (mean_axis0 a) = ncols a.
Proof. unfold mean_axis0. by rewrite length_fmap, length_seq. Qed.

Lemma mean_axis0_lookup n k a i :
  well_shaped n k a → (i < k)%nat →
  mean_axis0 a !! i = Some (mean_over_repeats a n i).
Proof.
  intros Ha Hi. unfold mean_axis0, mean_over_repeats.
  destruct Ha as (Hk & Hn & Hrows).
  rewrite list_lookup_fmap, lookup_seq_lt by lia. cbn.
  by rewrite (column_get_item n k), Hn.
Qed.

Lemma mean_axis0_in_unit n k a :
  (0 < n)%nat → well_shaped n k a →
  (∀ seed i, (seed < n)%nat → (i < k)%nat →
     ∃ v, get_item a seed i = Some v ∧ in_unit v) →
  Forall in_unit (mean_axis0 a).
Proof.
  intros Hn Ha Hcells. apply Forall_lookup. intros i v Hv.
  assert (Hi : (i < k)%nat).
  { apply lookup_lt_Some in Hv. rewrite mean_axis0_length in Hv.
    destruct Ha as (<- & _). done. }
  rewrite (mean_axis0_lookup n k) in Hv by done. injection Hv as <-.
  unfold mean_over_repeats.
  set (col := (λ seed, default NaN (get_item a seed i)) <$> seq 0 n).
  assert (Hlen : length col = n) by (unfold col; by rewrite length_fmap, length_seq).
  assert (Hcol : Forall in_unit col).
  { unfold col. apply Forall_fmap, Forall_forall. intros seed Hseed.
    apply elem_of_seq in Hseed. cbn.
    destruct (Hcells seed i) as (v & -> & Hv); [lia | done | done]. }
  clearbody col. rewrite <- Hlen. apply mean_in_unit.
  - intros Hnil. rewrite Hnil in Hlen. cbn in Hlen. lia.
  - done.
Qed.
End mean_facts.




(* ================================================================= *)
(** * Facts about the loss *)

Section vector_facts.
Import Losses LossSpec.
Local Open Scope R_scope.
Implicit Types (u v l : list R).

Lemma sum_list_snoc l (x : R) : sum_list (l ++ [x]) = sum_list l + x.
Proof.
  induction l as [|a l IH]; cbn.
  - lra.
  - unfold sum_list in IH. rewrite IH. lra.
Qed.

Lemma spatial_sum (n : nat) u v :
  (n ≤ length u)%nat → (n ≤ length v)%nat →
  sum_list (zip_with Rmult (take n u) (take n v))
  = sum_list ((λ j, nth j u 0 * nth j v 0) <$> seq 0 n).
Proof.
  induction n as [|n IH]; intros Hu Hv.
  - by rewrite !take_0.
  - destruct (lookup_lt_is_Some_2 u n) as [a Ha]; [lia|].
    destruct (lookup_lt_is_Some_2 v n) as [b Hb]; [lia|].
    rewrite (take_S_r u n a Ha), (take_S_r v n b Hb).
    rewrite zip_with_app by (rewrite !length_take; lia).
    rewrite seq_S, fmap_app. cbn [fmap list_fmap zip_with].
    rewrite !sum_list_snoc, IH by lia.
    rewrite !nth_lookup. cbn [Nat.add]. by rewrite Ha, Hb.
Qed.

Lemma time_product u v :
  length u = length v →
  sum_list (zip_with Rmult (only_last u) (only_last v))
  = nth (length u - 1) u 0 * nth (length u - 1) v 0.
Proof.
  intros Hlen. unfold only_last. rewrite <- Hlen.
  destruct (decide (length u = 0%nat)) as [H0|H0].
  - apply nil_length_inv in H0 as Hu. subst u.
    symmetry in Hlen. apply nil_length_inv in Hlen. subst v. cbn. lra.
  - destruct (lookup_lt_is_Some_2 u (length u - 1)) as [a Ha]; [lia|].
    destruct (lookup_lt_is_Some_2 v (length u - 1)) as [b Hb]; [lia|].
    rewrite !nth_lookup, Ha, Hb. cbn [default].
    rewrite (drop_S u a _ Ha), (drop_S v b _ Hb).
    rewrite !drop_ge by lia. cbn. lra.
Qed.

(** [minkowski_dot] on one pair of vectors is the bilinear form of the
    specification. *)
Lemma minkowski_pair u v :
  length u = length v →
  sum_list (zip_with Rmult (but_last u) (but_last v))
  - sum_list (zip_with Rmult (only_last u) (only_last v))
  = minkowski_form u v.
Proof.
  intros Hlen. unfold minkowski_form, but_last.
  rewrite time_product by done. rewrite <- Hlen.
  by rewrite spatial_sum by lia.
Qed.
End vector_facts.

Section tensor_facts.
Import Losses LossSpec.
Local Open Scope R_scope.
Implicit Types (u v : list R) (m : list (list R)) (y_pred : list (list (list R))).

Lemma entry2_elementwise (f : R → R) (t : list (list R)) (b k : nat) :
  entry2 (elementwise f t) b k = f <$> entry2 t b k.
Proof.
  unfold entry2, elementwise. rewrite list_lookup_fmap.
  destruct (t !! b) as [row|]; cbn; [|done]. by rewrite list_lookup_fmap.
Qed.

Lemma minkowski_dot_row (x : list (list R)) (y : list (list (list R))) (b : nat) :
  minkowski_dot x y !! b
  = u ← x !! b; vs ← y !! b;
    Some ((λ v, sum_list (zip_with Rmult (but_last u) (but_last v))
                - sum_list (zip_with Rmult (only_last u) (only_last v))) <$> vs).
Proof.
  unfold minkowski_dot, batch_dot.
  rewrite !lookup_zip_with, !list_lookup_fmap.
  destruct (x !! b) as [u|]; [|done]. cbn.
  destruct (y !! b) as [vs|]; [|done]. cbn. f_equal.
  apply list_eq. intros k.
  rewrite lookup_zip_with, !list_lookup_fmap.
  by destruct (vs !! k) as [v|].
Qed.

Lemma u_emb_lookup y_pred b :
  u_emb y_pred !! b = (λ m, nth 0 m []) <$> y_pred !! b.
Proof.
  unfold u_emb. rewrite list_lookup_fmap.
  destruct (y_pred !! b) as [m|]; [|done]. cbn. by rewrite nth_lookup.
Qed.

(** Row [b] of the tensor of line 18, by the bilinear form. *)
Lemma minkowski_dot_example (d : nat) y_pred b m :
  y_pred !! b = Some m →
  Forall (λ v, length v = d) m →
  minkowski_dot (u_emb y_pred) (samples_emb y_pred) !! b
  = Some (minkowski_form (nth 0 m []) <$> drop 1 m).
Proof.
  intros Hm Hlen. rewrite minkowski_dot_row, u_emb_lookup. unfold samples_emb.
  rewrite list_lookup_fmap, Hm. cbn. f_equal.
  apply list_fmap_ext. intros k v Hv.
  rewrite lookup_drop in Hv.
  apply minkowski_pair.
  assert (Hd : length v = d).
  { by apply (proj1 (Forall_lookup _ _) Hlen (1 + k)%nat). }
  destruct m as [|u m']; [done|]. cbn [nth].
  apply Forall_cons in Hlen as [-> _]. done.
Qed.

Lemma logits_row (epsilon sigma : R) (d : nat) y_pred b m :
  y_pred !! b = Some m →
  Forall (λ v, length v = d) m →
  elementwise (λ d, - 0.5 * (d * d) / sigma ^ 2) (d_uv epsilon y_pred) !! b
  = Some (example_logits epsilon sigma m).
Proof.
  intros Hm Hlen. unfold d_uv, inner_uv, elementwise.
  rewrite !list_lookup_fmap, (minkowski_dot_example d _ _ m) by done. cbn.
  f_equal. unfold example_logits. rewrite <- !list_fmap_compose.
  apply list_fmap_ext. intros k v _. cbn.
  unfold logit, hyperbolic_distance. f_equal. f_equal. cbn [pow]. lra.
Qed.

Lemma sum_exp_pos (z : list R) : z ≠ [] → 0 < sum_list (exp <$> z).
Proof.
  intros Hz. destruct z as [|a z]; [done|]. clear Hz. cbn.
  assert (0 <= sum_list (exp <$> z)).
  { induction z as [|c z IH]; cbn; [lra|].
    pose proof (exp_pos c). unfold sum_list in IH. lra. }
  pose proof (exp_pos a). unfold sum_list in *. lra.
Qed.

(** The TensorFlow form of the cross-entropy agrees with the negative
    log of the softmax weight. *)
Lemma sparse_softmax_cross_entropy_1_spec (label : nat) (z : list R) :
  (label < length z)%nat →
  sparse_softmax_cross_entropy_1 label z = Some (cross_entropy z label).
Proof.
  intros Hl. unfold sparse_softmax_cross_entropy_1, cross_entropy, softmax.
  destruct (lookup_lt_is_Some_2 z label Hl) as [x Hx].
  rewrite nth_lookup, Hx. cbn. f_equal.
  assert (Hpos : 0 < sum_list (exp <$> z)).
  { apply sum_exp_pos. intros ->. cbn in Hl. lia. }
  unfold Rdiv. rewrite ln_mult; [|apply exp_pos|by apply Rinv_0_lt_compat].
  rewrite ln_Rinv by done. rewrite ln_exp. lra.
Qed.

Lemma sparse_softmax_cross_entropy_spec (labels : list nat) (logits : list (list R)) :
  Forall2 (λ l z, (l < length z)%nat) labels logits →
  sparse_softmax_cross_entropy_with_logits labels logits
  = Some (zip_with (λ l z, cross_entropy z l) labels logits).
Proof.
  intros Hin. unfold sparse_softmax_cross_entropy_with_logits.
  apply mapM_Some. induction Hin as [|l z labels logits Hl Hin IH]; cbn.
  - constructor.
  - constructor; [|done]. cbn. by apply sparse_softmax_cross_entropy_1_spec.
Qed.

Lemma first_column (w : nat) (y_true : list (list nat)) :
  Forall (λ row, length row = S w) y_true →
  mapM (λ row : list nat, row !! 0%nat) y_true
  = Some ((λ row, nth 0 row 0%nat) <$> y_true).
Proof.
  intros Hrows. apply mapM_Some.
  induction Hrows as [|row y_true Hrow Hrows IH]; cbn; constructor; [|done].
  by destruct row.
Qed.

Lemma logits_tensor (epsilon sigma : R) (k d : nat) y_pred :
  Forall (λ m, length m = k ∧ Forall (λ v, length v = d) m) y_pred →
  elementwise (λ d, - 0.5 * (d * d) / sigma ^ 2) (d_uv epsilon y_pred)
  = example_logits epsilon sigma <$> y_pred.
Proof.
  intros Hshape. apply list_eq. intros b. rewrite list_lookup_fmap.
  destruct (y_pred !! b) as [m|] eqn:Hm.
  - cbn. apply (logits_row _ _ d _ _ m Hm).
    by apply (proj1 (Forall_lookup _ _) Hshape b m).
  - cbn. unfold d_uv, inner_uv, elementwise.
    rewrite !list_lookup_fmap, minkowski_dot_row, u_emb_lookup, Hm. done.
Qed.

(** Where the scaled distances are followed they are the scores of the
    examples. *)
Lemma minus_d_uv_sq_followed (epsilon sigma : R) (k d : nat) y_pred :
  Forall (λ m, length m = k ∧ Forall (λ v, length v = d) m) y_pred →
  logits_in_range epsilon sigma y_pred →
  minus_d_uv_sq epsilon sigma y_pred = Some (example_logits epsilon sigma <$> y_pred).
Proof.
  intros Hshape Hrange. unfold minus_d_uv_sq, stop_gradient.
  rewrite decide_True by done. by rewrite (logits_tensor epsilon sigma k d).
Qed.

Lemma minus_d_uv_sq_Some (epsilon sigma : R) y_pred t :
  minus_d_uv_sq epsilon sigma y_pred = Some t →
  logits_in_range epsilon sigma y_pred ∧
  t = elementwise (λ d, - 0.5 * (d * d) / sigma ^ 2) (d_uv epsilon y_pred).
Proof.
  unfold minus_d_uv_sq, stop_gradient. case_decide; [|done]. by intros [= <-].
Qed.

Lemma cross_entropies (epsilon sigma : R) (y_true : list (list nat))
    y_pred (b k d : nat) :
  has_shape3 y_pred b (S k) d →
  length y_true = b →
  Forall (λ row, (nth 0 row 0 < k)%nat) y_true →
  sparse_softmax_cross_entropy_with_logits
    ((λ row, nth 0 row 0%nat) <$> y_true) (example_logits epsilon sigma <$> y_pred)
  = Some (zip_with (λ (row : list nat) (m : list (list R)),
                      cross_entropy (example_logits epsilon sigma m) (nth 0 row 0%nat))
                   y_true y_pred).
Proof.
  intros [Hlen Hshape] Hlen' Hin.
  rewrite sparse_softmax_cross_entropy_spec.
  - by rewrite zip_with_fmap_l, zip_with_fmap_r.
  - apply Forall2_fmap, Forall2_same_length_lookup. split; [lia|].
    intros i row m Hrow Hm.
    pose proof (proj1 (Forall_lookup _ _) Hin i row Hrow) as Hlt. cbn in Hlt.
    destruct (proj1 (Forall_lookup _ _) Hshape i m Hm) as [Hk _].
    unfold example_logits. rewrite length_fmap, length_drop. lia.
Qed.

(** The loss of a batch that is followed is the mean of the
    cross-entropies against the labels of the first column of
    [y_true]. *)
Lemma loss_mean_cross_entropy (epsilon sigma : R) (y_true : list (list nat))
    y_pred (b k d w : nat) :
  (0 < b)%nat →
  has_shape3 y_pred b (S k) d →
  has_shape2 y_true b (S w) →
  Forall (λ row, (nth 0 row 0 < k)%nat) y_true →
  in_range_batch epsilon sigma y_true y_pred →
  loss epsilon sigma y_true y_pred
  = Some (mean_cross_entropy epsilon sigma y_true y_pred).
Proof.
  intros Hb Hpred [Hlen' Hrows] Hin (Hdist & Hlogits & Hsum). unfold loss.
  rewrite (first_column w) by done. cbn [mbind option_bind].
  rewrite decide_True by done.
  rewrite (minus_d_uv_sq_followed epsilon sigma (S k) d) by (done || apply Hpred).
  cbn [mbind option_bind].
  rewrite (cross_entropies epsilon sigma y_true y_pred b k d) by done.
  cbn [mbind option_bind]. rewrite decide_True by done.
  destruct Hpred as [Hlen Hshape].
  unfold K_mean, mean_cross_entropy, sum_cross_entropy.
  destruct y_true as [|row y_true]; [cbn in Hlen'; lia|].
  destruct y_pred as [|m y_pred]; [cbn in Hlen; lia|].
  cbn [zip_with]. do 3 f_equal.
  cbn [length]. rewrite length_zip_with. cbn [length] in Hlen, Hlen'. lia.
Qed.

(** The loss has a value only on a batch that is followed. *)
Lemma loss_Some_in_range (epsilon sigma : R) (y_true : list (list nat))
    y_pred (b k d w : nat) (v : R) :
  has_shape3 y_pred b (S k) d →
  has_shape2 y_true b (S w) →
  loss epsilon sigma y_true y_pred = Some v →
  (0 < b)%nat ∧
  Forall (λ row, (nth 0 row 0 < k)%nat) y_true ∧
  in_range_batch epsilon sigma y_true y_pred.
Proof.
  intros Hpred [Hlen' Hrows]. unfold loss.
  rewrite (first_column w) by done. cbn [mbind option_bind].
  case_decide as Hdist; [|done].
  destruct (minus_d_uv_sq epsilon sigma y_pred) as [t|] eqn:Ht; [|done].
  apply minus_d_uv_sq_Some in Ht as [Hlogits ->].
  rewrite (logits_tensor epsilon sigma (S k) d) by apply Hpred.
  cbn [mbind option_bind].
  destruct (sparse_softmax_cross_entropy_with_logits _ _) as [ce|] eqn:Hce; [|done].
  cbn [mbind option_bind]. case_decide as Hsum; [|done]. intros Hmean.
  assert (Hin : Forall (λ row, (nth 0 row 0 < k)%nat) y_true).
  { unfold sparse_softmax_cross_entropy_with_logits in Hce.
    apply mapM_Some in Hce. apply Forall_lookup. intros i row Hrow.
    destruct Hpred as [Hlen Hshape].
    destruct (lookup_lt_is_Some_2 y_pred i) as [m Hm].
    { apply lookup_lt_Some in Hrow. lia. }
    assert (Hz : zip ((λ row, nth 0 row 0%nat) <$> y_true)
                     (example_logits epsilon sigma <$> y_pred) !! i
                 = Some (nth 0 row 0%nat, example_logits epsilon sigma m)).
    { apply lookup_zip_with_Some. do 2 eexists. split; [done|].
      by rewrite !list_lookup_fmap, Hrow, Hm. }
    destruct (Forall2_lookup_l _ _ _ _ _ Hce Hz) as (c & _ & Hc).
    cbn in Hc. unfold sparse_softmax_cross_entropy_1 in Hc.
    destruct (example_logits epsilon sigma m !! nth 0 row 0%nat) eqn:Hl; [|done].
    apply lookup_lt_Some in Hl.
    destruct (proj1 (Forall_lookup _ _) Hshape i m Hm) as [Hk _].
    unfold example_logits in Hl. rewrite length_fmap, length_drop in Hl. lia. }
  rewrite (cross_entropies epsilon sigma y_true y_pred b k d) in Hce by done.
  injection Hce as <-.
  split; [|split; [done|by split]].
  destruct y_true as [|row y_true]; [|cbn in Hlen'; lia].
  destruct y_pred as [|m y_pred]; [done|].
  destruct Hpred as [Hlen _]. cbn in Hlen, Hlen'. lia.
Qed.
End tensor_facts.

Section distance_facts.
Import Losses LossSpec.
Local Open Scope R_scope.
Implicit Types (u v : list R) (m : list (list R)) (y_pred : list (list (list R))).

Lemma minkowski_tensor (k d : nat) y_pred :
  Forall (λ m, length m = k ∧ Forall (λ v, length v = d) m) y_pred →
  minkowski_dot (u_emb y_pred) (samples_emb y_pred)
  = (λ m, minkowski_form (nth 0 m []) <$> drop 1 m) <$> y_pred.
Proof.
  intros Hshape. apply list_eq. intros b. rewrite list_lookup_fmap.
  destruct (y_pred !! b) as [m|] eqn:Hm.
  - cbn. apply (minkowski_dot_example d _ _ m Hm).
    by apply (proj1 (Forall_lookup _ _) Hshape b m).
  - cbn. by rewrite minkowski_dot_row, u_emb_lookup, Hm.
Qed.

Lemma d_uv_tensor (epsilon : R) (k d : nat) y_pred :
  Forall (λ m, length m = k ∧ Forall (λ v, length v = d) m) y_pred →
  d_uv epsilon y_pred
  = (λ m, hyperbolic_distance epsilon (nth 0 m []) <$> drop 1 m) <$> y_pred.
Proof.
  intros Hshape. unfold d_uv, inner_uv, elementwise.
  rewrite (minkowski_tensor k d) by done.
  rewrite <- !list_fmap_compose. apply list_fmap_ext. intros b m _. cbn.
  rewrite <- !list_fmap_compose. by apply list_fmap_ext.
Qed.

Lemma acosh_lt (x y : R) : 1 <= x → x < y → acosh x < acosh y.
Proof.
  intros Hx Hxy. unfold acosh.
  assert (0 <= x * x - 1) by nra.
  assert (x * x - 1 < y * y - 1) by nra.
  pose proof (sqrt_pos (x * x - 1)).
  pose proof (sqrt_lt_1 (x * x - 1) (y * y - 1)).
  apply ln_increasing; lra.
Qed.

Lemma acosh_nonneg (x : R) : 1 <= x → 0 <= acosh x.
Proof.
  intros Hx. unfold acosh. pose proof (sqrt_pos (x * x - 1)) as Hs.
  destruct (Req_dec (x + sqrt (x * x - 1)) 1) as [->|Hne].
  - rewrite ln_1. lra.
  - apply Rlt_le. rewrite <- ln_1. apply ln_increasing; lra.
Qed.

Lemma cross_entropy_log_sum_exp (z : list R) (label : nat) :
  (label < length z)%nat →
  cross_entropy z label = ln (sum_list (exp <$> z)) - nth label z 0.
Proof.
  intros Hl. pose proof (sparse_softmax_cross_entropy_1_spec label z Hl) as Hce.
  unfold sparse_softmax_cross_entropy_1 in Hce.
  destruct (lookup_lt_is_Some_2 z label Hl) as [x Hx].
  rewrite Hx in Hce. cbn in Hce. injection Hce as <-.
  by rewrite nth_lookup, Hx.
Qed.
End distance_facts.

Section loss_bounds.
Import Losses LossSpec.
Local Open Scope R_scope.
Implicit Types (z l : list R) (m : list (list R)) (y_pred : list (list (list R))).

Lemma ln_le (x y : R) : 0 < x → x <= y → ln x <= ln y.
Proof.
  intros Hx [Hlt | ->]; [|lra]. apply Rlt_le. by apply ln_increasing.
Qed.

Lemma exp_le (x y : R) : x <= y → exp x <= exp y.
Proof.
  intros [Hlt | ->]; [|lra]. apply Rlt_le. by apply exp_increasing.
Qed.

Lemma acosh_le (x y : R) : 1 <= x → x <= y → acosh x <= acosh y.
Proof.
  intros Hx [Hlt | ->]; [|lra]. apply Rlt_le. by apply acosh_lt.
Qed.

Lemma sum_list_lower (c : R) l :
  Forall (λ x, c <= x) l → INR (length l) * c <= sum_list l.
Proof.
  induction 1 as [|x l Hx Hl IH].
  - cbn. lra.
  - cbn [length]. rewrite S_INR. cbn [sum_list foldr]. unfold sum_list in IH. lra.
Qed.

Lemma sum_list_upper (c : R) l :
  Forall (λ x, x <= c) l → sum_list l <= INR (length l) * c.
Proof.
  induction 1 as [|x l Hx Hl IH].
  - cbn. lra.
  - cbn [length]. rewrite S_INR. cbn [sum_list foldr]. unfold sum_list in IH. lra.
Qed.

Lemma sum_exp_ge z (k : nat) (x : R) :
  z !! k = Some x → exp x <= sum_list (exp <$> z).
Proof.
  revert k. induction z as [|a z IH]; intros k Hk; [done|].
  assert (Hpos : 0 <= sum_list (exp <$> z)).
  { destruct z as [|b z']; [cbn; lra|]. apply Rlt_le, sum_exp_pos. done. }
  pose proof (exp_pos a). cbn [fmap list_fmap sum_list foldr].
  unfold sum_list in *. destruct k as [|k].
  - cbn in Hk. injection Hk as ->. fold (fmap exp z). lra.
  - cbn in Hk. specialize (IH k Hk). fold (fmap exp z). lra.
Qed.

Lemma cross_entropy_nonneg z (label : nat) :
  (label < length z)%nat → 0 <= cross_entropy z label.
Proof.
  intros Hl. rewrite cross_entropy_log_sum_exp by done.
  destruct (lookup_lt_is_Some_2 z label Hl) as [x Hx].
  rewrite nth_lookup, Hx. cbn.
  pose proof (sum_exp_ge z label x Hx) as Hge.
  pose proof (ln_le (exp x) _ (exp_pos x) Hge) as Hln.
  rewrite ln_exp in Hln. lra.
Qed.

(** Where no score exceeds the score of the true index, the
    cross-entropy is at most the log of the number of candidates. *)
Lemma cross_entropy_nearest z (label : nat) (x : R) :
  z !! label = Some x → Forall (λ t, t <= x) z →
  cross_entropy z label <= ln (INR (length z)).
Proof.
  intros Hx Hall.
  assert (Hl : (label < length z)%nat) by (by eapply lookup_lt_Some).
  rewrite cross_entropy_log_sum_exp by done. rewrite nth_lookup, Hx. cbn.
  assert (Hsum : sum_list (exp <$> z) <= INR (length z) * exp x).
  { rewrite <- (length_fmap exp z). apply sum_list_upper.
    apply Forall_fmap. eapply Forall_impl; [exact Hall|].
    intros t Ht. cbn. by apply exp_le. }
  assert (Hpos : 0 < sum_list (exp <$> z)).
  { apply sum_exp_pos. intros ->. cbn in Hl. lia. }
  assert (Hlen : 0 < INR (length z)) by (apply lt_0_INR; lia).
  pose proof (ln_le _ _ Hpos Hsum) as Hln.
  rewrite ln_mult, ln_exp in Hln; [lra | done | apply exp_pos].
Qed.

(** The mean of the batch keeps a bound that holds for every example. *)
Lemma mean_cross_entropy_lower (epsilon sigma lo : R)
    (y_true : list (list nat)) y_pred (b : nat) :
  (0 < b)%nat → length y_true = b → length y_pred = b →
  (∀ i row m, y_true !! i = Some row → y_pred !! i = Some m →
     lo <= cross_entropy (example_logits epsilon sigma m) (nth 0 row 0%nat)) →
  lo <= mean_cross_entropy epsilon sigma y_true y_pred.
Proof.
  intros Hb Htrue Hpred Hall. unfold mean_cross_entropy, sum_cross_entropy.
  set (ces := zip_with _ y_true y_pred).
  assert (Hlen : length ces = b).
  { unfold ces. rewrite length_zip_with. lia. }
  assert (Hces : Forall (λ x, lo <= x) ces).
  { apply Forall_lookup. intros i x Hi. unfold ces in Hi.
    apply lookup_zip_with_Some in Hi as (row & m & -> & Hrow & Hm). eauto. }
  assert (HB : 0 < INR b) by (by apply lt_0_INR).
  pose proof (sum_list_lower lo ces Hces) as Hlo.
  rewrite Hlen in Hlo. rewrite Hpred.
  assert (Hinv : 0 < / INR b) by (by apply Rinv_0_lt_compat).
  replace lo with (INR b * lo / INR b) by (field; lra).
  unfold Rdiv. apply Rmult_le_compat_r; [lra | done].
Qed.

Lemma mean_cross_entropy_upper (epsilon sigma hi : R)
    (y_true : list (list nat)) y_pred (b : nat) :
  (0 < b)%nat → length y_true = b → length y_pred = b →
  (∀ i row m, y_true !! i = Some row → y_pred !! i = Some m →
     cross_entropy (example_logits epsilon sigma m) (nth 0 row 0%nat) <= hi) →
  mean_cross_entropy epsilon sigma y_true y_pred <= hi.
Proof.
  intros Hb Htrue Hpred Hall. unfold mean_cross_entropy, sum_cross_entropy.
  set (ces := zip_with _ y_true y_pred).
  assert (Hlen : length ces = b).
  { unfold ces. rewrite length_zip_with. lia. }
  assert (Hces : Forall (λ x, x <= hi) ces).
  { apply Forall_lookup. intros i x Hi. unfold ces in Hi.
    apply lookup_zip_with_Some in Hi as (row & m & -> & Hrow & Hm). eauto. }
  assert (HB : 0 < INR b) by (by apply lt_0_INR).
  pose proof (sum_list_upper hi ces Hces) as Hhi.
  rewrite Hlen in Hhi. rewrite Hpred.
  assert (Hinv : 0 < / INR b) by (by apply Rinv_0_lt_compat).
  replace hi with (INR b * hi / INR b) by (field; lra).
  unfold Rdiv. apply Rmult_le_compat_r; [lra | done].
Qed.

Lemma example_logits_length (epsilon sigma : R) m :
  length (example_logits epsilon sigma m) = (length m - 1)%nat.
Proof. unfold example_logits. by rewrite length_fmap, length_drop. Qed.
End loss_bounds.

Section loss_entries.
Import Losses LossSpec.
Local Open Scope R_scope.
Implicit Types (m : list (list R)) (y_pred : list (list (list R))).

Lemma acosh_1 : acosh 1 = 0.
Proof.
  unfold acosh. replace (1 * 1 - 1) with 0 by lra.
  rewrite sqrt_0, Rplus_0_r. apply ln_1.
Qed.

(** Every entry of the distance tensor is [acosh] of one plus a value
    that the [max] keeps at or above [epsilon]. *)
Lemma d_uv_entry (epsilon : R) y_pred (b k : nat) (d : R) :
  entry2 (d_uv epsilon y_pred) b k = Some d →
  ∃ t, d = acosh (1 + Rmax t epsilon).
Proof.
  unfold d_uv, inner_uv. rewrite !entry2_elementwise.
  destruct (entry2 _ b k) as [t|]; [|done]. cbn. intros [= <-]. by eexists.
Qed.

Lemma d_uv_entry_shape (epsilon : R) (k0 d0 : nat) y_pred (b k : nat) m
    (u v : list R) :
  Forall (λ m, length m = k0 ∧ Forall (λ v, length v = d0) m) y_pred →
  y_pred !! b = Some m → m !! 0%nat = Some u → m !! S k = Some v →
  entry2 (d_uv epsilon y_pred) b k = Some (hyperbolic_distance epsilon u v).
Proof.
  intros Hshape Hm Hu Hv. rewrite (d_uv_tensor epsilon k0 d0) by done.
  unfold entry2. rewrite list_lookup_fmap, Hm. cbn.
  rewrite list_lookup_fmap, lookup_drop. cbn [Nat.add]. rewrite Hv. cbn.
  by rewrite nth_lookup, Hu.
Qed.

Lemma hyperbolic_distance_nonneg (epsilon : R) (u v : list R) :
  0 <= epsilon → 0 <= hyperbolic_distance epsilon u v.
Proof.
  intros Heps. unfold hyperbolic_distance. apply acosh_nonneg.
  pose proof (Rmax_r (- minkowski_form u v - 1 + epsilon) epsilon). lra.
Qed.
End loss_entries.

Section range_facts.
Import Losses LossSpec.
Local Open Scope R_scope.
Implicit Types (u v l : list R) (m : list (list R)) (y_pred : list (list (list R))).

Lemma ln_le_self (x : R) : 0 < x → ln x <= x.
Proof.
  intros Hx. pose proof (exp_ineq1_le x) as He.
  assert (Hle : x <= exp x) by lra.
  pose proof (ln_le x (exp x) Hx Hle) as Hln. by rewrite ln_exp in Hln.
Qed.

Lemma acosh_upper (x : R) : 1 <= x → acosh x <= 2 * x.
Proof.
  intros Hx. unfold acosh.
  assert (Hs : sqrt (x * x - 1) <= x).
  { etrans; [apply (sqrt_le_1 (x * x - 1) (x * x)); nra|].
    rewrite sqrt_square; lra. }
  pose proof (sqrt_pos (x * x - 1)) as Hs0.
  etrans; [apply ln_le_self; lra|]. lra.
Qed.

Lemma Rabs_le_between (x a : R) : Rabs x <= a → - a <= x <= a.
Proof.
  intros Hx. pose proof (Rle_abs x). pose proof (Rle_abs (- x)) as Hn.
  rewrite Rabs_Ropp in Hn. lra.
Qed.

Lemma sum_list_abs (c : R) l :
  Forall (λ a, Rabs a <= c) l → Rabs (sum_list l) <= INR (length l) * c.
Proof.
  induction 1 as [|a l Ha Hl IH].
  - cbn. rewrite Rabs_R0. lra.
  - cbn [length]. rewrite S_INR. cbn [sum_list foldr].
    pose proof (Rabs_triang a (foldr Rplus 0 l)). unfold sum_list in IH. lra.
Qed.

Lemma zip_with_Rmult_abs (c : R) u v :
  Forall (λ a, Rabs a <= c) u → Forall (λ a, Rabs a <= c) v →
  Forall (λ a, Rabs a <= c * c) (zip_with Rmult u v).
Proof.
  intros Hu. revert v. induction Hu as [|a u Ha Hu IH]; intros v Hv; [constructor|].
  destruct Hv as [|b v Hb Hv]; [constructor|]. cbn. constructor; [|by apply IH].
  rewrite Rabs_mult. pose proof (Rabs_pos a). pose proof (Rabs_pos b). nra.
Qed.

Lemma nth_abs (c : R) l (j : nat) :
  0 <= c → Forall (λ a, Rabs a <= c) l → Rabs (nth j l 0) <= c.
Proof.
  intros Hc Hl. destruct (decide (j < length l)%nat) as [Hj|Hj].
  - destruct (lookup_lt_is_Some_2 l j Hj) as [a Ha].
    rewrite nth_lookup, Ha. cbn. by apply (proj1 (Forall_lookup _ _) Hl j a).
  - rewrite nth_overflow by lia. by rewrite Rabs_R0.
Qed.

Lemma elementwise_Forall (P : R → Prop) (f : R → R) (t : list (list R)) :
  (∀ x, P (f x)) → Forall (Forall P) (elementwise f t).
Proof.
  intros Hf. unfold elementwise. apply Forall_fmap, Forall_forall. intros row _.
  cbn. apply Forall_fmap, Forall_forall. intros x _. apply Hf.
Qed.

Lemma batch_dot_abs (c : R) (n : nat) (x : list (list R)) (y : list (list (list R))) :
  0 <= c →
  Forall (Forall (λ a, Rabs a <= c)) x →
  Forall (Forall (λ v, (length v ≤ n)%nat ∧ Forall (λ a, Rabs a <= c) v)) y →
  Forall (Forall (λ s, Rabs s <= INR n * (c * c))) (batch_dot x y).
Proof.
  intros Hc Hx. revert y. unfold batch_dot.
  induction Hx as [|u x Hu Hx IH]; intros y Hy; [constructor|].
  destruct Hy as [|vs y Hvs Hy]; [constructor|]. cbn. constructor; [|by apply IH].
  apply Forall_fmap. eapply Forall_impl; [exact Hvs|]. intros v [Hlen Hv]. cbn.
  etrans; [apply (sum_list_abs (c * c)); by apply zip_with_Rmult_abs|].
  apply Rmult_le_compat_r; [nra|]. apply le_INR.
  rewrite length_zip_with. lia.
Qed.

Lemma bound_large : 10 ^ 20 <= bound.
Proof. unfold bound. lra. Qed.

(** The Minkowski form, the distance and the score of two vectors of
    moderate length and entries are moderate. *)
Lemma minkowski_form_abs u v :
  (length u ≤ 1000)%nat →
  Forall (λ a, Rabs a <= 10) u → Forall (λ a, Rabs a <= 10) v →
  Rabs (minkowski_form u v) <= 100000.
Proof.
  intros Hlen Hu Hv. unfold minkowski_form.
  set (d := length u) in *.
  assert (Hterm : ∀ j, Rabs (nth j u 0 * nth j v 0) <= 100).
  { intros j. rewrite Rabs_mult.
    pose proof (nth_abs 10 u j ltac:(lra) Hu). pose proof (nth_abs 10 v j ltac:(lra) Hv).
    pose proof (Rabs_pos (nth j u 0)). pose proof (Rabs_pos (nth j v 0)). nra. }
  assert (Hsum : Rabs (sum_list ((λ j, nth j u 0 * nth j v 0) <$> seq 0 (d - 1)))
                 <= INR (d - 1) * 100).
  { etrans; [apply (sum_list_abs 100)|].
    - apply Forall_fmap, Forall_forall. intros j _. apply Hterm.
    - rewrite length_fmap, length_seq. lra. }
  assert (Hd : INR (d - 1) <= 999).
  { replace 999 with (INR 999) by (rewrite INR_IZR_INZ; done).
    apply le_INR. lia. }
  pose proof (Hterm (d - 1)%nat) as Hlast.
  pose proof (Rabs_triang (sum_list ((λ j, nth j u 0 * nth j v 0) <$> seq 0 (d - 1)))
                (- (nth (d - 1) u 0 * nth (d - 1) v 0))) as Htri.
  rewrite Rabs_Ropp in Htri. unfold Rminus. lra.
Qed.

Lemma hyperbolic_distance_moderate (epsilon : R) u v :
  0 <= epsilon <= 1 → (length u ≤ 1000)%nat →
  Forall (λ a, Rabs a <= 10) u → Forall (λ a, Rabs a <= 10) v →
  0 <= hyperbolic_distance epsilon u v <= 200004.
Proof.
  intros Heps Hlen Hu Hv.
  pose proof (minkowski_form_abs u v Hlen Hu Hv) as Hform.
  apply Rabs_le_between in Hform. unfold hyperbolic_distance.
  set (t := Rmax (- minkowski_form u v - 1 + epsilon) epsilon).
  assert (Ht : 0 <= t <= 100001).
  { unfold t. split.
    - pose proof (Rmax_r (- minkowski_form u v - 1 + epsilon) epsilon). lra.
    - apply Rmax_lub; lra. }
  split; [apply acosh_nonneg; lra|].
  etrans; [apply acosh_upper; lra|]. lra.
Qed.

Lemma logit_moderate (epsilon sigma : R) u v :
  0 <= epsilon <= 1 → 1 / 1000 <= sigma ^ 2 <= 1000 → (length u ≤ 1000)%nat →
  Forall (λ a, Rabs a <= 10) u → Forall (λ a, Rabs a <= 10) v →
  - 10 ^ 14 <= logit epsilon sigma u v <= 0.
Proof.
  intros Heps Hsigma Hlen Hu Hv.
  pose proof (hyperbolic_distance_moderate epsilon u v Heps Hlen Hu Hv) as Hd.
  unfold logit. set (d := hyperbolic_distance epsilon u v) in *.
  set (s := sigma ^ 2) in *.
  assert (Hd2 : 0 <= d ^ 2 <= 200004 * 200004) by nra.
  assert (Hinv : 0 < / s <= 1000).
  { split; [apply Rinv_0_lt_compat; lra|].
    replace 1000 with (/ (1 / 1000)) by lra.
    apply Rinv_le_contravar; lra. }
  unfold Rdiv. split; [|nra].
  assert (d ^ 2 * / s <= 200004 * 200004 * 1000) by nra. lra.
Qed.

Lemma cross_entropy_moderate (z : list R) (label : nat) :
  (label < length z)%nat → (length z ≤ 1000)%nat →
  Forall (λ t, - 10 ^ 14 <= t <= 0) z →
  0 <= cross_entropy z label <= 10 ^ 14 + 1000.
Proof.
  intros Hl Hlen Hz. split; [by apply cross_entropy_nonneg|].
  rewrite cross_entropy_log_sum_exp by done.
  destruct (lookup_lt_is_Some_2 z label Hl) as [x Hx].
  rewrite nth_lookup, Hx. cbn.
  pose proof (proj1 (Forall_lookup _ _) Hz label x Hx) as Hxr. cbn in Hxr.
  assert (Hsum : sum_list (exp <$> z) <= INR (length z) * 1).
  { rewrite <- (length_fmap exp z). apply sum_list_upper.
    apply Forall_fmap. eapply Forall_impl; [exact Hz|]. intros t Ht. cbn.
    rewrite <- exp_0. apply exp_le. lra. }
  assert (Hpos : 0 < sum_list (exp <$> z)).
  { apply sum_exp_pos. intros ->. cbn in Hl. lia. }
  assert (Hk : INR (length z) <= 1000).
  { replace 1000 with (INR 1000) by (rewrite INR_IZR_INZ; done). by apply le_INR. }
  pose proof (ln_le_self _ Hpos) as Hln. lra.
Qed.

(** A batch of moderate size and entries is one that the model
    follows. *)
Lemma moderate_batch_in_range (epsilon sigma : R) (y_true : list (list nat))
    y_pred (B K D W : nat) :
  moderate_batch epsilon sigma y_pred B K D →
  has_shape3 y_pred B (S K) D →
  has_shape2 y_true B (S W) →
  Forall (λ row, (nth 0 row 0 < K)%nat) y_true →
  in_range_batch epsilon sigma y_true y_pred.
Proof.
  intros (Heps & Hsigma & HB & HK & HD & Hentries) [Hlen Hshape] [Hlen' Hrows] Hin.
  pose proof bound_large as Hbound.
  assert (Hvec : ∀ b m j v, y_pred !! b = Some m → m !! j = Some v →
            length v = D ∧ Forall (λ a, Rabs a <= 10) v).
  { intros b m j v Hm Hv.
    destruct (proj1 (Forall_lookup _ _) Hshape b m Hm) as [_ Hd].
    split; [by apply (proj1 (Forall_lookup _ _) Hd j v)|].
    pose proof (proj1 (Forall_lookup _ _) Hentries b m Hm) as Hmb.
    by apply (proj1 (Forall_lookup _ _) Hmb j v). }
  assert (Hlogits : ∀ b m, y_pred !! b = Some m →
            length (example_logits epsilon sigma m) = K ∧
            Forall (λ t, - 10 ^ 14 <= t <= 0) (example_logits epsilon sigma m)).
  { intros b m Hm.
    destruct (proj1 (Forall_lookup _ _) Hshape b m Hm) as [Hk _].
    split; [rewrite example_logits_length; lia|].
    destruct (lookup_lt_is_Some_2 m 0) as [u Hu]; [lia|].
    destruct (Hvec b m 0%nat u Hm Hu) as [Hlu Hbu].
    unfold example_logits. rewrite nth_lookup, Hu. cbn.
    apply Forall_fmap, Forall_lookup. intros k v Hv. cbn.
    rewrite lookup_drop in Hv. destruct (Hvec b m _ v Hm Hv) as [_ Hbv].
    apply logit_moderate; try done. lia. }
  split; [|split].
  - split; [|split].
    + unfold in_range. apply Rabs_le. lra.
    + unfold all_in_range, dot_magnitude.
      eapply Forall_impl.
      * apply (batch_dot_abs 10 1000); [lra | |].
        -- unfold u_emb. rewrite <- list_fmap_compose.
           apply Forall_fmap, Forall_lookup. intros b m Hm. cbn.
           apply Forall_fmap. destruct (m !! 0%nat) as [u|] eqn:Hu; [|constructor].
           cbn. destruct (Hvec b m 0%nat u Hm Hu) as [_ Hbu].
           eapply Forall_impl; [exact Hbu|]. intros a Ha. cbn.
           by rewrite Rabs_Rabsolu.
        -- unfold samples_emb. rewrite <- list_fmap_compose.
           apply Forall_fmap, Forall_lookup. intros b m Hm. cbn.
           apply Forall_fmap, Forall_lookup. intros k v Hv. cbn.
           rewrite lookup_drop in Hv. destruct (Hvec b m _ v Hm Hv) as [Hlv Hbv].
           split; [rewrite length_fmap; lia|].
           apply Forall_fmap. eapply Forall_impl; [exact Hbv|]. intros a Ha. cbn.
           by rewrite Rabs_Rabsolu.
      * intros row Hrow. eapply Forall_impl; [exact Hrow|]. intros s Hs. cbn in Hs.
        unfold in_range. replace (INR 1000) with 1000 in Hs by (rewrite INR_IZR_INZ; done).
        lra.
    + unfold inner_uv. apply elementwise_Forall. intros t.
      pose proof (Rmax_r t epsilon). lra.
  - split; [split; [|lra]|].
    + apply Rle_trans with (/ 10 ^ 20); [|lra].
      apply Rinv_le_contravar; lra.
    + rewrite (logits_tensor epsilon sigma (S K) D) by done.
      unfold all_in_range. apply Forall_fmap, Forall_lookup. intros b m Hm. cbn.
      destruct (Hlogits b m Hm) as [_ Hz].
      eapply Forall_impl; [exact Hz|]. intros t Ht. cbn in Ht.
      unfold in_range. apply Rabs_le. lra.
  - unfold sum_cross_entropy.
    set (ces := zip_with _ y_true y_pred).
    assert (Hces : Forall (λ c, 0 <= c <= 10 ^ 14 + 1000) ces).
    { apply Forall_lookup. intros i c Hi. unfold ces in Hi.
      apply lookup_zip_with_Some in Hi as (row & m & -> & Hrow & Hm).
      destruct (Hlogits i m Hm) as [Hk Hz].
      pose proof (proj1 (Forall_lookup _ _) Hin i row Hrow) as Hlt. cbn in Hlt.
      apply cross_entropy_moderate; [lia | lia | done]. }
    assert (Hlenc : length ces = B).
    { unfold ces. rewrite length_zip_with. lia. }
    assert (Hb : 0 <= INR B <= 1000).
    { split; [apply pos_INR|].
      replace 1000 with (INR 1000) by (rewrite INR_IZR_INZ; done). by apply le_INR. }
    pose proof (sum_list_lower 0 ces) as Hlo.
    pose proof (sum_list_upper (10 ^ 14 + 1000) ces) as Hhi.
    rewrite Hlenc in Hlo, Hhi.
    unfold in_range. apply Rabs_le.
    assert (0 <= sum_list ces).
    { etrans; [|apply Hlo]; [lra|].
      eapply Forall_impl; [exact Hces|]. intros c Hc. cbn in Hc. lra. }
    assert (sum_list ces <= INR B * (10 ^ 14 + 1000)).
    { apply Hhi. eapply Forall_impl; [exact Hces|]. intros c Hc. cbn in Hc. lra. }
    nra.
Qed.

(** The value and the gradient of a scaled distance. *)
Lemma minus_d_sq_dual (sigma d : R) :
  Gradient.value (Gradient.minus_d_sq sigma d) = - 0.5 * (d * d) / sigma ^ 2 ∧
  Gradient.d_sigma (Gradient.minus_d_sq sigma d) = 0.
Proof.
  cbv [Gradient.minus_d_sq Gradient.div Gradient.mul Gradient.square
       Gradient.stop_gradient Gradient.constant Gradient.variable
       Gradient.value Gradient.d_sigma].
  split.
  - cbn [pow]. f_equal. lra.
  - unfold Rdiv. lra.
Qed.

(** Without [K.stop_gradient] the gradient is the derivative of the
    score with respect to the bandwidth, which is not zero. *)
Lemma minus_d_sq_through_dual (sigma d : R) :
  sigma ≠ 0 →
  Gradient.value (Gradient.minus_d_sq_through sigma d) = - 0.5 * (d * d) / sigma ^ 2 ∧
  Gradient.d_sigma (Gradient.minus_d_sq_through sigma d) = d * d / sigma ^ 3 ∧
  derivable_pt_lim (λ s, - 0.5 * (d * d) / s ^ 2) sigma (d * d / sigma ^ 3).
Proof.
  intros Hs.
  cbv [Gradient.minus_d_sq_through Gradient.div Gradient.mul Gradient.square
       Gradient.constant Gradient.variable Gradient.value Gradient.d_sigma].
  split; [|split].
  - cbn [pow]. f_equal. lra.
  - assert (Hhalf : -0.5 = - (1 / 2)) by lra. rewrite Hhalf.
    cbn [pow]. field. done.
  - pose proof (derivable_pt_lim_div (fct_cte (- 0.5 * (d * d))) (λ s, s ^ 2) sigma
                  0 (INR 2 * sigma ^ Init.Nat.pred 2)
                  (derivable_pt_lim_const _ _) (derivable_pt_lim_pow sigma 2)) as Hdiv.
    assert (Hne : sigma ^ 2 ≠ 0) by (apply pow_nonzero; done).
    specialize (Hdiv Hne).
    replace (d * d / sigma ^ 3)
      with ((0 * sigma ^ 2 - INR 2 * sigma ^ Init.Nat.pred 2 * fct_cte (- 0.5 * (d * d)) sigma)
            / (sigma ^ 2)²).
    + exact Hdiv.
    + assert (Hhalf : -0.5 = - (1 / 2)) by lra. rewrite Hhalf.
      unfold fct_cte, Rsqr. cbn [INR Init.Nat.pred pow]. field. done.
Qed.
End range_facts.

(** The form on a query at the origin of the hyperboloid and a far
    candidate, and on the query with itself. *)
Example minkowski_form_example :
  LossSpec.minkowski_form [0; 1]%R [1; 2]%R = (-2)%R ∧
  LossSpec.minkowski_form [0; 1]%R [0; 1]%R = (-1)%R.
Proof. unfold LossSpec.minkowski_form. cbn. split; lra. Qed.

(** C8.  For a prediction tensor of shape (B, 1 + K, D), entry (b, k)
    of the tensor that [minkowski_dot] returns is the Minkowski form of
    the query, entry 0 of example [b], and candidate [k], entry [k + 1]:
    the sum of the products of the spatial coordinates minus the product
    of the last coordinates.  The distance tensor has shape (B, K) and
    its entry (b, k) is [acosh (1 + max (- dot - 1 + eps) eps)]; the
    argument of [acosh] is at least [1 + eps]. *)
Theorem hyperbolic_distances (epsilon : R) (y_pred : list (list (list R)))
    (B K D : nat) :
  Losses.has_shape3 y_pred B (S K) D →
  Losses.has_shape2 (Losses.d_uv epsilon y_pred) B K ∧
  ∀ (b k : nat) (m : list (list R)) (u v : list R),
    y_pred !! b = Some m → m !! 0%nat = Some u → m !! S k = Some v →
    Losses.entry2 (Losses.minkowski_dot (Losses.u_emb y_pred) (Losses.samples_emb y_pred)) b k
      = Some (LossSpec.minkowski_form u v) ∧
    Losses.entry2 (Losses.d_uv epsilon y_pred) b k
      = Some (Losses.acosh
                (1 + Rmax (- LossSpec.minkowski_form u v - 1 + epsilon) epsilon))%R ∧
    (1 + epsilon <= 1 + Rmax (- LossSpec.minkowski_form u v - 1 + epsilon) epsilon)%R.
Proof.
  intros [Hlen Hshape].
  rewrite (d_uv_tensor epsilon (S K) D) by done.
  rewrite (minkowski_tensor (S K) D) by done. split.
  - split; [by rewrite length_fmap|].
    apply Forall_fmap, Forall_forall. intros m Hm. cbn.
    destruct (proj1 (Forall_forall _ _) Hshape m Hm) as [Hk _].
    rewrite length_fmap, length_drop. lia.
  - intros b k m u v Hm Hu Hv. unfold Losses.entry2.
    rewrite !list_lookup_fmap, Hm. cbn.
    rewrite !list_lookup_fmap, lookup_drop. cbn [Nat.add]. rewrite Hv. cbn.
    rewrite nth_lookup, Hu. cbn.
    split; [done|]. split; [done|].
    pose proof (Rmax_r (- LossSpec.minkowski_form u v - 1 + epsilon) epsilon).
    lra.
Qed.

(** A batch of one example with a query and two candidates in two
    coordinates. *)
Lemma hyperbolic_distances_example :
  Losses.has_shape2
    (Losses.d_uv (1 / 10 ^ 7) [[[0; 1]; [0; 1]; [1; 2]]]%R) 1 2 ∧
  Losses.entry2 (Losses.d_uv (1 / 10 ^ 7) [[[0; 1]; [0; 1]; [1; 2]]]%R) 0 1
    = Some (Losses.acosh
              (1 + Rmax (- LossSpec.minkowski_form [0; 1] [1; 2] - 1 + 1 / 10 ^ 7)
                        (1 / 10 ^ 7)))%R.
Proof.
  destruct (hyperbolic_distances (1 / 10 ^ 7) [[[0; 1]; [0; 1]; [1; 2]]]%R 1 2 2)
    as [Hshape Hentry].
  - split; [reflexivity|]. repeat constructor.
  - split; [done|].
    by destruct (Hentry 0 1 [[0; 1]; [0; 1]; [1; 2]]%R [0; 1]%R [1; 2]%R
                   eq_refl eq_refl eq_refl)%nat as (_ & Hd & _).
Defined.

(** C9, as amended.  For a prediction tensor of shape (B, 1 + K, D)
    and labels in the first column of [y_true]: whenever the loss has
    a value, it is the mean over the batch of the cross-entropy of each
    example's scores against the index in the first column of [y_true]
    for that example.  It has that value for B > 0, labels below K and
    magnitudes that the model follows (so the squared bandwidth is not
    zero and nothing overflows); then the score of candidate [k] of
    example [b] is [- 0.5 * d ^ 2 / sigma ^ 2] for its distance [d],
    and backpropagation gives it no gradient with respect to [sigma],
    since [sigma ^ 2] passes through [K.stop_gradient]; and where the
    first column of [y_true] is 0 throughout, the loss is the mean
    cross-entropy against index 0. *)
Theorem loss_is_mean_cross_entropy (epsilon sigma : R)
    (y_true : list (list nat)) (y_pred : list (list (list R)))
    (B K D W : nat) :
  Losses.has_shape3 y_pred B (S K) D →
  Losses.has_shape2 y_true B (S W) →
  (∀ v, Losses.hyperbolic_softmax_loss epsilon sigma y_true y_pred = Some v →
        v = LossSpec.mean_cross_entropy epsilon sigma y_true y_pred) ∧
  ((0 < B)%nat →
   Forall (λ row, (nth 0 row 0 < K)%nat) y_true →
   LossSpec.in_range_batch epsilon sigma y_true y_pred →
   (∃ logits,
      Losses.minus_d_uv_sq epsilon sigma y_pred = Some logits ∧
      ∀ (b k : nat) (m : list (list R)) (u v : list R),
        y_pred !! b = Some m → m !! 0%nat = Some u → m !! S k = Some v →
        Losses.entry2 logits b k
        = Some (- 0.5 * LossSpec.hyperbolic_distance epsilon u v ^ 2 / sigma ^ 2)%R ∧
        Gradient.value
          (Gradient.minus_d_sq sigma (LossSpec.hyperbolic_distance epsilon u v))
        = (- 0.5 * LossSpec.hyperbolic_distance epsilon u v ^ 2 / sigma ^ 2)%R ∧
        Gradient.d_sigma
          (Gradient.minus_d_sq sigma (LossSpec.hyperbolic_distance epsilon u v))
        = 0%R) ∧
   Losses.hyperbolic_softmax_loss epsilon sigma y_true y_pred
     = Some (LossSpec.mean_cross_entropy epsilon sigma y_true y_pred) ∧
   (Forall (λ row, nth 0 row 0%nat = 0%nat) y_true →
    Losses.hyperbolic_softmax_loss epsilon sigma y_true y_pred
      = Some (LossSpec.mean_cross_entropy_index_0 epsilon sigma y_pred))).
Proof.
  intros Hpred Htrue. split.
  { intros v Hv. unfold Losses.hyperbolic_softmax_loss in Hv.
    destruct (loss_Some_in_range epsilon sigma y_true y_pred B K D W v Hpred Htrue Hv)
      as (HB & Hin & Hrange).
    rewrite (loss_mean_cross_entropy epsilon sigma y_true y_pred B K D W) in Hv by done.
    by injection Hv as <-. }
  intros HB Hin Hrange.
  pose proof (loss_mean_cross_entropy epsilon sigma y_true y_pred B K D W
                HB Hpred Htrue Hin Hrange) as Hloss.
  destruct Hpred as [Hlen Hshape]. destruct Htrue as [Hlen' Hrows].
  destruct Hrange as (_ & Hlogits & _).
  split; [|split; [done|]].
  - exists (LossSpec.example_logits epsilon sigma <$> y_pred).
    split; [by apply (minus_d_uv_sq_followed epsilon sigma (S K) D)|].
    intros b k m u v Hm Hu Hv.
    destruct (minus_d_sq_dual sigma (LossSpec.hyperbolic_distance epsilon u v))
      as [Hval Hgrad].
    split; [|split; [|done]].
    + unfold Losses.entry2, LossSpec.example_logits.
      rewrite list_lookup_fmap, Hm. cbn.
      rewrite list_lookup_fmap, lookup_drop. cbn [Nat.add]. rewrite Hv. cbn.
      by rewrite nth_lookup, Hu.
    + rewrite Hval. cbn [pow]. f_equal. lra.
  - intros Hzero. unfold Losses.hyperbolic_softmax_loss. rewrite Hloss.
    unfold LossSpec.mean_cross_entropy, LossSpec.sum_cross_entropy,
      LossSpec.mean_cross_entropy_index_0.
    do 3 f_equal. apply list_eq. intros b.
    rewrite lookup_zip_with, list_lookup_fmap.
    destruct (y_true !! b) as [row|] eqn:Hrow.
    + cbn. destruct (y_pred !! b) as [m|]; [|done]. cbn.
      by rewrite (proj1 (Forall_lookup _ _) Hzero b row Hrow).
    + cbn. apply lookup_ge_None in Hrow.
      rewrite (lookup_ge_None_2 y_pred b) by lia. done.
Qed.

(** A batch of one example with two candidates and the label 0: the
    loss is the cross-entropy against index 0, the score of the far
    candidate is [- 0.5 * d ^ 2] for its distance [d], and its gradient
    with respect to the bandwidth is 0. *)
Lemma loss_is_mean_cross_entropy_example :
  Losses.hyperbolic_softmax_loss (1 / 10 ^ 7) 1 [[0%nat]]
    [[[0; 1]; [0; 1]; [1; 2]]]%R
  = Some (LossSpec.mean_cross_entropy_index_0 (1 / 10 ^ 7) 1
            [[[0; 1]; [0; 1]; [1; 2]]]%R) ∧
  (∃ logits,
     Losses.minus_d_uv_sq (1 / 10 ^ 7) 1 [[[0; 1]; [0; 1]; [1; 2]]]%R = Some logits ∧
     Losses.entry2 logits 0 1
     = Some (- 0.5 * LossSpec.hyperbolic_distance (1 / 10 ^ 7) [0; 1] [1; 2] ^ 2 / 1 ^ 2)%R) ∧
  Gradient.d_sigma
    (Gradient.minus_d_sq 1 (LossSpec.hyperbolic_distance (1 / 10 ^ 7) [0; 1] [1; 2]))%R
  = 0%R.
Proof.
  destruct (loss_is_mean_cross_entropy (1 / 10 ^ 7) 1 [[0%nat]]
              [[[0; 1]; [0; 1]; [1; 2]]]%R 1 2 2 0) as [_ Hvalue].
  - split; [reflexivity|]. repeat constructor.
  - split; [reflexivity|]. repeat constructor.
  - destruct Hvalue as ((logits & Hlogits & Hentries) & _ & Hzero).
    + lia.
    + repeat constructor.
    + apply (moderate_batch_in_range _ _ _ _ 1 2 2 0).
      * split; [lra|]. split; [lra|]. split; [lia|]. split; [lia|]. split; [lia|].
        repeat first [apply Forall_nil_2 | apply Forall_cons_2]; apply Rabs_le; lra.
      * split; [reflexivity|]. repeat constructor.
      * split; [reflexivity|]. repeat constructor.
      * repeat constructor.
    + destruct (Hentries 0%nat 1%nat [[0; 1]; [0; 1]; [1; 2]]%R [0; 1]%R [1; 2]%R
                  eq_refl eq_refl eq_refl) as (Hentry & _ & Hgrad).
      split; [apply Hzero; repeat constructor|].
      split; [by exists logits | done].
Defined.

(** C9 as stated fails where [y_true] does not hold 0: the loss follows
    the first column of [y_true].  With the label 1 on a batch of one
    example whose two candidates are at different distances, the loss
    is the cross-entropy against index 1, which differs from the one
    against index 0. *)
Lemma loss_follows_y_true :
  Losses.hyperbolic_softmax_loss (1 / 10 ^ 7) 1 [[1%nat]]
    [[[0; 1]; [0; 1]; [1; 2]]]%R
  = Some (LossSpec.mean_cross_entropy (1 / 10 ^ 7) 1 [[1%nat]]
            [[[0; 1]; [0; 1]; [1; 2]]]%R) ∧
  LossSpec.mean_cross_entropy (1 / 10 ^ 7) 1 [[1%nat]] [[[0; 1]; [0; 1]; [1; 2]]]%R
  ≠ LossSpec.mean_cross_entropy_index_0 (1 / 10 ^ 7) 1 [[[0; 1]; [0; 1]; [1; 2]]]%R.
Proof.
  split.
  - apply (loss_mean_cross_entropy _ _ _ _ 1 2 2 0).
    + lia.
    + split; [reflexivity|]. repeat constructor.
    + split; [reflexivity|]. repeat constructor.
    + repeat constructor.
    + apply (moderate_batch_in_range _ _ _ _ 1 2 2 0).
      * split; [lra|]. split; [lra|]. split; [lia|]. split; [lia|]. split; [lia|].
        repeat first [apply Forall_nil_2 | apply Forall_cons_2]; apply Rabs_le; lra.
      * split; [reflexivity|]. repeat constructor.
      * split; [reflexivity|]. repeat constructor.
      * repeat constructor.
  - unfold LossSpec.mean_cross_entropy, LossSpec.sum_cross_entropy,
      LossSpec.mean_cross_entropy_index_0.
    cbn [zip_with fmap list_fmap Losses.sum_list foldr length nth INR].
    rewrite !cross_entropy_log_sum_exp
      by (unfold LossSpec.example_logits; cbn; lia).
    unfold LossSpec.example_logits.
    cbn [drop fmap list_fmap nth].
    unfold LossSpec.logit, LossSpec.hyperbolic_distance, LossSpec.minkowski_form.
    cbn [length Nat.sub seq fmap list_fmap nth Losses.sum_list foldr].
    set (eps := (1 / 10 ^ 7)%R).
    assert (Heps : (0 < eps)%R) by (unfold eps; lra).
    replace (Rmax (- (0 * 0 + 0 - 1 * 1) - 1 + eps) eps)%R with eps
      by (symmetry; apply Rmax_right; lra).
    replace (Rmax (- (0 * 1 + 0 - 1 * 2) - 1 + eps) eps)%R with (1 + eps)%R
      by (symmetry; rewrite Rmax_left; lra).
    pose proof (acosh_lt (1 + eps) (1 + (1 + eps))) as Hlt.
    pose proof (acosh_nonneg (1 + eps)) as Hnn.
    set (d0 := Losses.acosh (1 + eps)) in *.
    set (d1 := Losses.acosh (1 + (1 + eps))) in *.
    set (lse := ln _).
    intros Heq.
    assert (d0 < d1)%R by lra. assert (0 <= d0)%R by lra.
    assert (d0 * d0 < d1 * d1)%R by nra.
    lra.
Qed.

(* ================================================================= *)
(** * More about the result table *)

(** A save that returns has rewritten the result file and no other
    path; the new table has a row for [seed], every column of [data],
    and every row and column label the old table had. *)
Theorem save_only_grows_result_file (filename : string) (seed : Z) (data : dict)
    (fs fs' : gmap string file) :
  save_test_results filename seed data fs = Ok fs' →
  (∀ path, path ≠ filename → fs' !! path = fs !! path) ∧
  ∃ new,
    fs' !! filename = Some (Csv new) ∧
    seed ∈ index new ∧
    (∀ c, c ∈ data.*1 → c ∈ columns new) ∧
    (∀ r, r ∈ index (table fs filename) → r ∈ index new) ∧
    (∀ c, c ∈ columns (table fs filename) → c ∈ columns new).
Proof.
  unfold save_test_results, os_path_exists, read_csv, table.
  destruct (fs !! filename) as [[|old]|] eqn:Hold.
  - rewrite bool_decide_eq_true_2 by (by eexists). cbn. discriminate.
  - rewrite bool_decide_eq_true_2 by (by eexists). cbn. intros [= <-].
    split; [intros path Hne; by apply lookup_insert_ne|].
    exists (combine_first (DataFrame_of_dict [seed] data) old).
    split; [by apply lookup_insert_eq|]. cbn [combine_first index columns].
    split; [apply elem_of_union_labels; left; by apply list_elem_of_singleton|].
    split; [intros c Hc; apply elem_of_union_labels; by left|].
    split; [intros r Hr | intros c Hc]; apply elem_of_union_labels; by right.
  - rewrite bool_decide_eq_false_2 by (intros [? ?]; done). cbn. intros [= <-].
    split; [intros path Hne; by apply lookup_insert_ne|].
    exists (DataFrame_of_dict [seed] data).
    split; [by apply lookup_insert_eq|]. cbn [DataFrame_of_dict index columns].
    split; [by apply list_elem_of_singleton|]. split; [done|].
    split; [intros r Hr | intros c Hc]; by apply elem_of_nil in Hr || by apply elem_of_nil in Hc.
Qed.

(** A save next to a lock file leaves the lock file alone. *)
Lemma save_only_grows_result_file_example :
  ∃ fs',
    save_test_results "test_results.csv" 3 [("a"%string, Num 1)]
      {["test_results.lock"%string := Empty]} = Ok fs' ∧
    fs' !! "test_results.lock"%string = Some Empty ∧
    ∃ new, fs' !! "test_results.csv"%string = Some (Csv new) ∧ 3 ∈ index new.
Proof.
  exists (<["test_results.csv"%string := Csv (DataFrame_of_dict [3] [("a"%string, Num 1)])]>
            {["test_results.lock"%string := Empty]}).
  split; [reflexivity|].
  destruct (save_only_grows_result_file "test_results.csv" 3 [("a"%string, Num 1)]
              {["test_results.lock"%string := Empty]}
              (<["test_results.csv"%string := Csv (DataFrame_of_dict [3] [("a"%string, Num 1)])]>
                 {["test_results.lock"%string := Empty]}))
    as (Hother & new & Hnew & Hseed & _).
  - reflexivity.
  - split; [by rewrite Hother|]. by exists new.
Defined.

(** A result file without content makes every save raise
    [EmptyDataError]: the file exists, so it is read, and pandas finds
    no columns in it.  Nothing is written. *)
Theorem save_raises_on_empty_file (filename : string) (seed : Z) (data : dict)
    (fs : gmap string file) :
  fs !! filename = Some Empty →
  save_test_results filename seed data fs = Raise EmptyDataError ∧
  ∀ saves, saves ≠ [] → save_sequence filename saves fs = Raise EmptyDataError.
Proof.
  intros Hempty.
  assert (Hone : ∀ s d, save_test_results filename s d fs = Raise EmptyDataError).
  { intros s d. unfold save_test_results, os_path_exists, read_csv. rewrite Hempty.
    by rewrite bool_decide_eq_true_2 by (by eexists). }
  split; [done|]. intros [|[s d] rest] Hne; [done|].
  cbn [save_sequence]. by rewrite Hone.
Qed.

Lemma save_raises_on_empty_file_example :
  save_test_results "test_results.csv" 0 [("a"%string, Num 1)]
    {["test_results.csv"%string := Empty]} = Raise EmptyDataError.
Proof.
  apply (save_raises_on_empty_file "test_results.csv" 0 [("a"%string, Num 1)]
           {["test_results.csv"%string := Empty]}).
  reflexivity.
Defined.

Section save_algebra.
Implicit Types (fs : gmap string file) (filename : string) (data : dict).

(** Two saves in a row, by the cells of the table they leave. *)
Lemma save_two_steps filename s1 d1 s2 d2 fs :
  file_ok fs filename →
  ∃ t,
    save_sequence filename [(s1, d1); (s2, d2)] fs = Ok (<[filename := Csv t]> fs) ∧
    NoDup (index t) ∧
    (∀ r, r ∈ index t ↔ r = s2 ∨ r = s1 ∨ r ∈ index (table fs filename)) ∧
    (∀ c, c ∈ columns t ↔ c ∈ d2.*1 ∨ c ∈ d1.*1 ∨ c ∈ columns (table fs filename)) ∧
    (∀ r c, cell t r c =
       let after1 :=
         match (if decide (r = s1) then dict_get d1 c else None) with
         | Some x => if isna x then cell (table fs filename) r c else x
         | None => cell (table fs filename) r c
         end in
       match (if decide (r = s2) then dict_get d2 c else None) with
       | Some x => if isna x then after1 else x
       | None => after1
       end).
Proof.
  intros Hok.
  destruct (save_step filename s1 d1 fs Hok)
    as (t1 & Hsave1 & Hok1 & Hidx1 & _ & _ & Hcols1 & Hcell1).
  destruct (save_step filename s2 d2 (<[filename := Csv t1]> fs))
    as (t2 & Hsave2 & [Hnd2 _] & Hidx2 & _ & _ & Hcols2 & Hcell2).
  { by apply file_ok_insert. }
  assert (Htab : table (<[filename := Csv t1]> fs) filename = t1).
  { unfold table. by rewrite lookup_insert_eq. }
  rewrite Htab in *. rewrite insert_insert_eq in Hsave2.
  exists t2. cbn [save_sequence]. rewrite Hsave1. cbn. rewrite Hsave2.
  split; [done|]. split; [done|].
  split; [intros r; by rewrite Hidx2, Hidx1|].
  split; [intros c; by rewrite Hcols2, Hcols1|].
  intros r c. cbn zeta. by rewrite Hcell2, Hcell1.
Qed.
End save_algebra.

(** Saving the same record for the same seed twice leaves the table of
    the first save: the same rows, the same columns and the same
    cells. *)
Theorem save_twice_same_table (filename : string) (seed : Z) (data : dict)
    (fs : gmap string file) :
  file_ok fs filename →
  ∃ t1 t2,
    save_test_results filename seed data fs = Ok (<[filename := Csv t1]> fs) ∧
    save_sequence filename [(seed, data); (seed, data)] fs
      = Ok (<[filename := Csv t2]> fs) ∧
    index t2 ≡ₚ index t1 ∧
    (∀ c, c ∈ columns t2 ↔ c ∈ columns t1) ∧
    (∀ r c, cell t2 r c = cell t1 r c).
Proof.
  intros Hok.
  destruct (save_step filename seed data fs Hok)
    as (t1 & Hsave1 & [Hnd1 _] & Hidx1 & _ & _ & Hcols1 & Hcell1).
  destruct (save_two_steps filename seed data seed data fs Hok)
    as (t2 & Hsave2 & Hnd2 & Hidx2 & Hcols2 & Hcell2).
  exists t1, t2. split; [done|]. split; [done|]. split; [|split].
  - apply NoDup_Permutation; [done | done |].
    intros r. rewrite Hidx2, Hidx1. tauto.
  - intros c. rewrite Hcols2, Hcols1. tauto.
  - intros r c. rewrite Hcell2, Hcell1. cbn zeta.
    destruct (decide (r = seed)); [|done].
    by destruct (dict_get data c) as [[|q]|].
Qed.

Lemma save_twice_same_table_example :
  ∃ t1 t2,
    save_test_results "test_results.csv" 3 [("a"%string, Num 1)] ∅
      = Ok (<["test_results.csv"%string := Csv t1]> ∅) ∧
    save_sequence "test_results.csv"
      [(3, [("a"%string, Num 1)]); (3, [("a"%string, Num 1)])] ∅
      = Ok (<["test_results.csv"%string := Csv t2]> ∅) ∧
    index t2 ≡ₚ index t1 ∧
    (∀ c, c ∈ columns t2 ↔ c ∈ columns t1) ∧
    (∀ r c, cell t2 r c = cell t1 r c).
Proof.
  apply (save_twice_same_table "test_results.csv" 3 [("a"%string, Num 1)] ∅).
  left. reflexivity.
Defined.

(** Saves for two different seeds commute: either order leaves a table
    with the same rows, the same columns and the same cells. *)
Theorem save_distinct_seeds_commute (filename : string) (s1 s2 : Z)
    (d1 d2 : dict) (fs : gmap string file) :
  file_ok fs filename →
  s1 ≠ s2 →
  ∃ t12 t21,
    save_sequence filename [(s1, d1); (s2, d2)] fs
      = Ok (<[filename := Csv t12]> fs) ∧
    save_sequence filename [(s2, d2); (s1, d1)] fs
      = Ok (<[filename := Csv t21]> fs) ∧
    index t12 ≡ₚ index t21 ∧
    (∀ c, c ∈ columns t12 ↔ c ∈ columns t21) ∧
    (∀ r c, cell t12 r c = cell t21 r c).
Proof.
  intros Hok Hne.
  destruct (save_two_steps filename s1 d1 s2 d2 fs Hok)
    as (t12 & Hsave12 & Hnd12 & Hidx12 & Hcols12 & Hcell12).
  destruct (save_two_steps filename s2 d2 s1 d1 fs Hok)
    as (t21 & Hsave21 & Hnd21 & Hidx21 & Hcols21 & Hcell21).
  exists t12, t21. split; [done|]. split; [done|]. split; [|split].
  - apply NoDup_Permutation; [done | done |].
    intros r. rewrite Hidx12, Hidx21. tauto.
  - intros c. rewrite Hcols12, Hcols21. tauto.
  - intros r c. rewrite Hcell12, Hcell21. cbn zeta.
    destruct (decide (r = s1)) as [E1|H1], (decide (r = s2)) as [E2|H2];
      [congruence | done..].
Qed.

Lemma save_distinct_seeds_commute_example :
  ∃ t12 t21,
    save_sequence "test_results.csv"
      [(1, [("a"%string, Num 1)]); (2, [("b"%string, Num 2)])] ∅
      = Ok (<["test_results.csv"%string := Csv t12]> ∅) ∧
    save_sequence "test_results.csv"
      [(2, [("b"%string, Num 2)]); (1, [("a"%string, Num 1)])] ∅
      = Ok (<["test_results.csv"%string := Csv t21]> ∅) ∧
    index t12 ≡ₚ index t21 ∧
    (∀ c, c ∈ columns t12 ↔ c ∈ columns t21) ∧
    (∀ r c, cell t12 r c = cell t21 r c).
Proof.
  apply (save_distinct_seeds_commute "test_results.csv" 1 2
           [("a"%string, Num 1)] [("b"%string, Num 2)] ∅).
  - left. reflexivity.
  - discriminate.
Defined.

(* ================================================================= *)
(** * [touch] and the locked save *)

Section touch_facts.
Implicit Types (fs : gmap string file) (path filename : string).

Lemma touch_lookup_ne path filename fs :
  path ≠ filename → touch path fs !! filename = fs !! filename.
Proof.
  intros Hne. unfold touch. destruct (fs !! path); [done|].
  by rewrite lookup_insert_ne.
Qed.

Lemma touch_exists path fs : is_Some (touch path fs !! path).
Proof.
  unfold touch. destruct (fs !! path) as [x|] eqn:Hx.
  - by rewrite Hx.
  - by rewrite lookup_insert_eq.
Qed.

Lemma touch_insert_ne path filename x fs :
  path ≠ filename →
  <[filename := x]> (touch path fs) = touch path (<[filename := x]> fs).
Proof.
  intros Hne. unfold touch. rewrite lookup_insert_ne by done.
  destruct (fs !! path); [done|]. by apply insert_insert_ne.
Qed.

(** A save after a [touch] of another path is the save without it,
    with the touched path added. *)
Lemma save_after_touch path filename seed data fs :
  path ≠ filename →
  save_test_results filename seed data (touch path fs)
  = match save_test_results filename seed data fs with
    | Ok fs1 => Ok (touch path fs1)
    | Raise e => Raise e
    end.
Proof.
  intros Hne. unfold save_test_results, os_path_exists, read_csv, to_csv.
  rewrite touch_lookup_ne by done.
  destruct (fs !! filename) as [[|old]|].
  - by rewrite !bool_decide_eq_true_2 by (by eexists).
  - rewrite !bool_decide_eq_true_2 by (by eexists). cbn.
    by rewrite touch_insert_ne.
  - rewrite !bool_decide_eq_false_2 by (intros [? ?]; done). cbn.
    by rewrite touch_insert_ne.
Qed.
End touch_facts.

(** The sequence of [main]: after [touch(lock_filename)] a locked save
    finds its lock file, whatever the files were, so it does not raise
    [FileNotFoundError] for it; once the lock is taken its outcome is
    that of the plain save on the files before the [touch], and the
    files it leaves are those of that save with the lock file added.
    The lock file and the result file are different paths. *)
Theorem touch_then_threadsafe_save (busy : nat → bool)
    (lock_filename filename : string) (seed : Z) (data : dict)
    (k fuel : nat) (files : gmap string file) (tr0 : list event) :
  lock_filename ≠ filename →
  (∀ i, (i < k)%nat → busy i = true) →
  busy k = false →
  (k < fuel)%nat →
  ∃ st fs' tr,
    threadsafe_save_test_results busy lock_filename filename seed data fuel
      (mkWorld (touch lock_filename files) tr0)
    = (st, mkWorld fs' (tr0 ++ tr)) ∧
    st ≠ Raised (FileNotFoundError lock_filename) ∧
    match save_test_results filename seed data files with
    | Ok fs1 => st = Returned ∧ fs' = touch lock_filename fs1
    | Raise e => st = Raised e ∧ fs' = touch lock_filename files
    end.
Proof.
  intros Hne Hbusy Hfree Hfuel.
  unfold threadsafe_save_test_results, threadsafe_fn, lock_and_run_method, open_rw,
    os_path_exists.
  cbn [fs trace].
  rewrite bool_decide_eq_true_2 by apply touch_exists. cbn [fs trace].
  rewrite (spin_acquires busy lock_filename k fuel 0%nat) by done.
  rewrite save_after_touch by done.
  rewrite <- !app_assoc.
  unfold save_test_results, os_path_exists, read_csv.
  destruct (files !! filename) as [[|old]|].
  - rewrite !bool_decide_eq_true_2 by (by eexists). cbn.
    do 3 eexists. split; [done|]. split; [discriminate | done].
  - rewrite !bool_decide_eq_true_2 by (by eexists). cbn.
    do 3 eexists. split; [done|]. split; [discriminate | done].
  - rewrite !bool_decide_eq_false_2 by (intros [? ?]; done). cbn.
    do 3 eexists. split; [done|]. split; [discriminate | done].
Qed.

(** A first run in an empty results directory. *)
Lemma touch_then_threadsafe_save_example :
  ∃ fs' tr,
    threadsafe_save_test_results (λ _, false) "test_results.lock"
      "test_results.csv" 0 [("0.02_micro"%string, Num 0.5)] 1
      (mkWorld (touch "test_results.lock" ∅) [])
    = (Returned, mkWorld fs' ([] ++ tr)) ∧
    fs' !! "test_results.lock"%string = Some Empty ∧
    cell (table fs' "test_results.csv") 0 "0.02_micro" = Num 0.5.
Proof.
  destruct (touch_then_threadsafe_save (λ _, false) "test_results.lock"
              "test_results.csv" 0 [("0.02_micro"%string, Num 0.5)] 0 1 ∅ [])
    as (st & fs' & tr & Hrun & _ & Hsave).
  - discriminate.
  - intros i Hi. lia.
  - reflexivity.
  - lia.
  - assert (Hplain : save_test_results "test_results.csv" 0
                       [("0.02_micro"%string, Num 0.5)] ∅
                     = Ok (<["test_results.csv"%string :=
                              Csv (DataFrame_of_dict [0] [("0.02_micro"%string, Num 0.5)])]> ∅))
      by reflexivity.
    rewrite Hplain in Hsave. destruct Hsave as [-> ->].
    eexists _, tr. split; [exact Hrun|]. split; reflexivity.
Defined.

(** One path used as lock file and as result file does not work: the
    [touch] leaves a file without content there, the locked save finds
    it, reads it as a table and raises [EmptyDataError]; the file stays
    without content. *)
Theorem same_path_for_lock_and_results_raises (busy : nat → bool)
    (path : string) (seed : Z) (data : dict)
    (k fuel : nat) (files : gmap string file) (tr0 : list event) :
  files !! path = None →
  (∀ i, (i < k)%nat → busy i = true) →
  busy k = false →
  (k < fuel)%nat →
  ∃ tr,
    threadsafe_save_test_results busy path path seed data fuel
      (mkWorld (touch path files) tr0)
    = (Raised EmptyDataError, mkWorld (<[path := Empty]> files) (tr0 ++ tr)).
Proof.
  intros Hnone Hbusy Hfree Hfuel.
  unfold threadsafe_save_test_results, threadsafe_fn, lock_and_run_method, open_rw,
    os_path_exists.
  cbn [fs trace].
  rewrite bool_decide_eq_true_2 by apply touch_exists. cbn [fs trace].
  rewrite (spin_acquires busy path k fuel 0%nat) by done.
  unfold touch. rewrite Hnone.
  unfold save_test_results, os_path_exists, read_csv.
  rewrite lookup_insert_eq.
  rewrite bool_decide_eq_true_2 by (by eexists). cbn.
  rewrite <- !app_assoc. by eexists.
Qed.

Lemma same_path_for_lock_and_results_raises_example :
  ∃ tr,
    threadsafe_save_test_results (λ _, false) "test_results.csv"
      "test_results.csv" 0 [("a"%string, Num 1)] 1
      (mkWorld (touch "test_results.csv" ∅) [])
    = (Raised EmptyDataError,
       mkWorld (<["test_results.csv"%string := Empty]> ∅) ([] ++ tr)).
Proof.
  apply (same_path_for_lock_and_results_raises (λ _, false) "test_results.csv"
           0 [("a"%string, Num 1)] 0 1 ∅ []).
  - reflexivity.
  - intros i Hi. lia.
  - reflexivity.
  - lia.
Defined.

(* ================================================================= *)
(** * More about the evaluator *)

Section evaluate_edges.
Context {sk : Sklearn}.
Implicit Types (X : Embedding) (y : Labels) (cv : splitter) (ps : list float64)
  (st : loop_state) (g : RandomState).

Lemma for_each_no_op {A S : Type} (body : A → S → option S) (l : list A) (s : S) :
  (∀ a s, body a s = Some s) → for_each body l s = Some s.
Proof.
  intros Hbody. induction l as [|a l IH]; [done|].
  cbn. rewrite Hbody. cbn. apply IH.
Qed.

Lemma filter_always {A : Type} (l : list A) :
  filter (λ _, true = true) l = l.
Proof.
  induction l as [|a l IH]; [done|]. rewrite filter_cons_True by done. by rewrite IH.
Qed.

(** In a run that completes every split succeeded. *)
Lemma completed_run_splits X y ps (n : Z) g st :
  evaluate_loops X y ps n g = Some st →
  ∀ seed p, (seed < Z.to_nat n)%nat → p ∈ ps →
    ∃ est est' f1_micro f1_macro,
      split_fit_score (select_mode y).2 X y seed p est est' f1_micro f1_macro.
Proof.
  intros Hrun seed p Hseed Hp.
  apply evaluate_loops_inv in Hrun as (_ & _ & _ & _ & _ & Hcells).
  apply list_elem_of_lookup in Hp as [i Hi].
  destruct (Hcells seed i p) as (est & est' & mi & ma & Hround & _);
    [by left | done |].
  by exists est, est', mi, ma.
Qed.

Lemma count_round_calls (P : call → bool) (c1 : nat) cv X y (seeds : list nat) ps :
  (∀ seed p, seed ∈ seeds → p ∈ ps →
     length (filter (λ c, P c = true) (round_calls cv X y seed p)) = c1) →
  length (filter (λ c, P c = true)
            (seed ← seeds; p ← ps; round_calls cv X y seed p))
  = (length seeds * (length ps * c1))%nat.
Proof.
  intros Hround. induction seeds as [|seed seeds IH]; [done|].
  rewrite bind_cons, filter_app, length_app, IH.
  - assert (Hinner : ∀ qs, (∀ p, p ∈ qs → p ∈ ps) →
      length (filter (λ c, P c = true) (p ← qs; round_calls cv X y seed p))
      = (length qs * c1)%nat).
    { induction qs as [|q qs IHq]; intros Hsub; [done|].
      rewrite bind_cons, filter_app, length_app, IHq.
      - rewrite (Hround seed q); [cbn; lia | by left | apply Hsub; by left].
      - intros p Hp. apply Hsub. by right. }
    rewrite Hinner by done. cbn [length]. lia.
  - intros s p Hs Hp. apply Hround; [by right | done].
Qed.
End evaluate_edges.



(** One round that cannot succeed makes the whole evaluation fail: if,
    for some repeat index below the count and some percentage of the
    list, the split, the fit, the prediction or a score fails whatever
    state the classifier is in, the evaluator raises; no partial result
    is returned. *)
Theorem evaluate_fails_when_a_round_fails {sk : Sklearn} (X : Embedding)
    (y : Labels) (ps : list float64) (n : Z) (g : RandomState)
    (seed : nat) (p : float64) :
  (seed < Z.to_nat n)%nat →
  p ∈ ps →
  (∀ est est' f1_micro f1_macro,
     ¬ split_fit_score (select_mode y).2 X y seed p est est' f1_micro f1_macro) →
  evaluate_node_classification X y ps n g = (None, g).
Proof.
  intros Hseed Hp Hfail. unfold evaluate_node_classification.
  destruct (evaluate_loops X y ps n g) as [st|] eqn:Hrun; [|done].
  destruct (completed_run_splits X y ps n g st Hrun seed p Hseed Hp)
    as (est & est' & mi & ma & Hround).
  by destruct (Hfail est est' mi ma).
Qed.

(** On the stand-in library a classifier fitted on no label cannot
    predict; with an empty label vector every round fails there. *)
Lemma evaluate_fails_when_a_round_fails_example :
  evaluate_node_classification (sk := stub_sklearn) [10; 20] (1%nat, [])
    [Num 0.05; Num 0.1] 2 0 = (None, 0).
Proof.
  apply (evaluate_fails_when_a_round_fails (sk := stub_sklearn) [10; 20]
           (1%nat, []) [Num 0.05; Num 0.1] 2 0 1 (Num 0.1)).
  - cbn. lia.
  - right. left.
  - intros est est' mi ma (train & test & g0 & preds & Hsplit & Hfit & Hpred & _).
    cbn in Hsplit, Hfit, Hpred. injection Hsplit as <- <- _.
    cbn in Hfit. injection Hfit as <-. discriminate Hpred.
Defined.

(** With no percentage to evaluate the evaluator makes no library call
    and returns three empty sequences, for any repeat count that is
    not negative. *)
Theorem evaluate_no_percentages {sk : Sklearn} (X : Embedding) (y : Labels)
    (n : Z) (g : RandomState) :
  0 ≤ n →
  evaluate_node_classification X y [] n g = (Some ([], [], []), g) ∧
  ∃ st, evaluate_loops X y [] n g = Some st ∧ calls st = [].
Proof.
  intros Hn.
  assert (Hrun : evaluate_loops X y [] n g
            = Some (mkLoop (select_mode y).1
                      (mkArray 0 (replicate (Z.to_nat n) []))
                      (mkArray 0 (replicate (Z.to_nat n) [])) g [])).
  { unfold evaluate_loops, initial_state, np_zeros.
    rewrite decide_False by lia. cbn.
    unfold run_repeats. by apply for_each_no_op. }
  split; [|by eexists].
  unfold evaluate_node_classification. by rewrite Hrun.
Qed.

Lemma evaluate_no_percentages_example :
  evaluate_node_classification (sk := stub_sklearn) [10; 20] (1%nat, [0; 1])
    [] 10 0 = (Some ([], [], []), 0) ∧
  ∃ st, evaluate_loops (sk := stub_sklearn) [10; 20] (1%nat, [0; 1]) [] 10 0
        = Some st ∧ calls st = [].
Proof.
  apply (evaluate_no_percentages (sk := stub_sklearn) [10; 20] (1%nat, [0; 1]) 10 0).
  lia.
Defined.

(** The cost of a run that completes: with [n] repeats over [k]
    percentages the evaluator draws [n * k] splits, fits the classifier
    [n * k] times, predicts [n * k] times and computes [2 * n * k]
    scores, and makes no other library call. *)
Theorem evaluate_call_counts {sk : Sklearn} (X : Embedding) (y : Labels)
    (ps : list float64) (n : Z) (g : RandomState) (st : loop_state) :
  evaluate_loops X y ps n g = Some st →
  length (filter (λ c, is_split c = true) (calls st))
    = (Z.to_nat n * length ps)%nat ∧
  length (filter (λ c, is_fit c = true) (calls st))
    = (Z.to_nat n * length ps)%nat ∧
  length (filter (λ c, is_predict c = true) (calls st))
    = (Z.to_nat n * length ps)%nat ∧
  length (filter (λ c, is_f1_score c = true) (calls st))
    = (2 * (Z.to_nat n * length ps))%nat ∧
  length (calls st) = (5 * (Z.to_nat n * length ps))%nat.
Proof.
  intros Hrun.
  pose proof (completed_run_splits X y ps n g st Hrun) as Hsplits.
  apply evaluate_loops_inv in Hrun as (_ & _ & _ & _ & Hall & _).
  cbn in Hall. rewrite app_nil_r in Hall. rewrite Hall at 1 2 3 4.
  unfold expected_calls.
  assert (Hround : ∀ seed p, seed ∈ seq 0 (Z.to_nat n) → p ∈ ps →
    ∃ train test,
      round_calls (select_mode y).2 X y seed p
      = [call_split (select_mode y).2 1 (fsub (Num 1) p) (Z.of_nat seed);
         call_fit train; call_predict test;
         call_f1_score test micro; call_f1_score test macro]).
  { intros seed p Hseed Hp. apply elem_of_seq in Hseed.
    destruct (Hsplits seed p) as (est & est' & mi & ma & Hr); [lia | done |].
    destruct Hr as (train & test & g0 & preds & Hsplit & _).
    exists train, test. unfold round_calls. by rewrite Hsplit. }
  assert (Hcount : ∀ (P : call → bool) c1,
    (∀ cv ts rs train test,
       length (filter (λ c, P c = true)
                 [call_split cv 1 ts rs; call_fit train; call_predict test;
                  call_f1_score test micro; call_f1_score test macro]) = c1) →
    length (filter (λ c, P c = true)
              (seed ← seq 0 (Z.to_nat n); p ← ps;
               round_calls (select_mode y).2 X y seed p))
    = (Z.to_nat n * (length ps * c1))%nat).
  { intros P c1 HP. rewrite (count_round_calls P c1), length_seq; [done|].
    intros seed p Hseed Hp. destruct (Hround seed p Hseed Hp) as (tr & te & ->).
    apply HP. }
  rewrite (Hcount is_split 1%nat), (Hcount is_fit 1%nat),
    (Hcount is_predict 1%nat), (Hcount is_f1_score 2%nat) by done.
  repeat split; try lia.
  rewrite <- (filter_always (calls st)), Hall.
  unfold expected_calls. rewrite (Hcount (λ _, true) 5%nat) by done. lia.
Qed.

Lemma evaluate_call_counts_example :
  ∃ st,
    evaluate_loops (sk := stub_sklearn) [10; 20] (1%nat, [0; 1])
      [Num 0.05; Num 0.1] 3 0 = Some st ∧
    length (filter (λ c, is_fit c = true) (calls st)) = 6%nat ∧
    length (calls st) = 30%nat.
Proof.
  eexists. split; [vm_compute; reflexivity|].
  refine ((λ H, conj (proj1 (proj2 H)) (proj2 (proj2 (proj2 (proj2 H)))))
            (evaluate_call_counts (sk := stub_sklearn) [10; 20] (1%nat, [0; 1])
               [Num 0.05; Num 0.1] 3 0 _ _)).
  vm_compute. reflexivity.
Defined.

(* ================================================================= *)
(** * More about the loss *)




(** The loss is never negative.  For well-shaped tensors, whenever the
    loss has a value that value is at or above zero; and it has a value
    for every non-empty batch with labels among the candidates and
    magnitudes that the model follows. *)
Theorem loss_not_negative (epsilon sigma : R)
    (y_true : list (list nat)) (y_pred : list (list (list R)))
    (B K D W : nat) :
  Losses.has_shape3 y_pred B (S K) D →
  Losses.has_shape2 y_true B (S W) →
  (∀ v, Losses.hyperbolic_softmax_loss epsilon sigma y_true y_pred = Some v →
        (0 <= v)%R) ∧
  ((0 < B)%nat →
   Forall (λ row, (nth 0 row 0 < K)%nat) y_true →
   LossSpec.in_range_batch epsilon sigma y_true y_pred →
   is_Some (Losses.hyperbolic_softmax_loss epsilon sigma y_true y_pred)).
Proof.
  intros Hpred Htrue. split.
  - intros v Hv. unfold Losses.hyperbolic_softmax_loss in Hv.
    destruct (loss_Some_in_range epsilon sigma y_true y_pred B K D W v Hpred Htrue Hv)
      as (HB & Hin & Hrange).
    rewrite (loss_mean_cross_entropy epsilon sigma y_true y_pred B K D W) in Hv by done.
    injection Hv as <-.
    destruct Hpred as [Hlen Hshape]. destruct Htrue as [Hlen' Hrows].
    apply (mean_cross_entropy_lower _ _ _ _ _ B); try done.
    intros i row m Hrow Hm. apply cross_entropy_nonneg.
    pose proof (proj1 (Forall_lookup _ _) Hin i row Hrow) as Hlt. cbn in Hlt.
    destruct (proj1 (Forall_lookup _ _) Hshape i m Hm) as [Hk _].
    rewrite example_logits_length. lia.
  - intros HB Hin Hrange. unfold Losses.hyperbolic_softmax_loss.
    rewrite (loss_mean_cross_entropy epsilon sigma y_true y_pred B K D W) by done.
    by eexists.
Qed.

Lemma loss_not_negative_example :
  ∃ v, Losses.hyperbolic_softmax_loss (1 / 10 ^ 7) 1 [[1%nat]]
         [[[0; 1]; [0; 1]; [1; 2]]]%R = Some v ∧ (0 <= v)%R.
Proof.
  destruct (loss_not_negative (1 / 10 ^ 7) 1 [[1%nat]]
              [[[0; 1]; [0; 1]; [1; 2]]]%R 1 2 2 0) as [Hnonneg Hvalue].
  - split; [reflexivity|]. repeat constructor.
  - split; [reflexivity|]. repeat constructor.
  - destruct Hvalue as [v Hv].
    + lia.
    + repeat constructor.
    + apply (moderate_batch_in_range _ _ _ _ 1 2 2 0).
      * split; [lra|]. split; [lra|]. split; [lia|]. split; [lia|]. split; [lia|].
        repeat first [apply Forall_nil_2 | apply Forall_cons_2]; apply Rabs_le; lra.
      * split; [reflexivity|]. repeat constructor.
      * split; [reflexivity|]. repeat constructor.
      * repeat constructor.
    + exists v. split; [done | by apply Hnonneg].
Defined.

(** When the positive sample is the nearest candidate of every example
    (no candidate is at a smaller distance from the query than
    candidate 0), the labels are 0 and the model follows the
    magnitudes, the loss is at most the log of the number of
    candidates. *)
Theorem loss_at_most_log_candidates (epsilon sigma : R)
    (y_true : list (list nat)) (y_pred : list (list (list R)))
    (B K D W : nat) :
  (0 <= epsilon)%R →
  (0 < B)%nat → (0 < K)%nat →
  Losses.has_shape3 y_pred B (S K) D →
  Losses.has_shape2 y_true B (S W) →
  Forall (λ row, nth 0 row 0%nat = 0%nat) y_true →
  LossSpec.in_range_batch epsilon sigma y_true y_pred →
  (∀ (b k : nat) (d0 dk : R),
     Losses.entry2 (Losses.d_uv epsilon y_pred) b 0 = Some d0 →
     Losses.entry2 (Losses.d_uv epsilon y_pred) b k = Some dk →
     (d0 <= dk)%R) →
  ∃ v, Losses.hyperbolic_softmax_loss epsilon sigma y_true y_pred = Some v ∧
       (0 <= v <= ln (INR K))%R.
Proof.
  intros Heps HB HK Hpred Htrue Hzero Hrange Hnear.
  assert (Hin : Forall (λ row, (nth 0 row 0 < K)%nat) y_true).
  { eapply Forall_impl; [exact Hzero|]. cbn. intros row ->. done. }
  assert (Hs2 : (0 < sigma ^ 2)%R).
  { destruct Hrange as (_ & [[Hlo _] _] & _).
    assert (0 < / Losses.bound)%R; [|lra].
    apply Rinv_0_lt_compat. pose proof bound_large. lra. }
  exists (LossSpec.mean_cross_entropy epsilon sigma y_true y_pred). split.
  { by apply (loss_mean_cross_entropy epsilon sigma y_true y_pred B K D W). }
  destruct Hpred as [Hlen Hshape]. destruct Htrue as [Hlen' Hrows].
  assert (Hrowlen : ∀ i m, y_pred !! i = Some m →
            length (LossSpec.example_logits epsilon sigma m) = K).
  { intros i m Hm. destruct (proj1 (Forall_lookup _ _) Hshape i m Hm) as [Hk _].
    rewrite example_logits_length. lia. }
  split.
  - apply (mean_cross_entropy_lower _ _ _ _ _ B); try done.
    intros i row m Hrow Hm. apply cross_entropy_nonneg.
    rewrite (Hrowlen i m Hm).
    by rewrite (proj1 (Forall_lookup _ _) Hzero i row Hrow).
  - apply (mean_cross_entropy_upper _ _ _ _ _ B); try done.
    intros i row m Hrow Hm.
    rewrite (proj1 (Forall_lookup _ _) Hzero i row Hrow).
    rewrite <- (Hrowlen i m Hm).
    destruct (proj1 (Forall_lookup _ _) Hshape i m Hm) as [Hk _].
    destruct (lookup_lt_is_Some_2 m 0) as [u Hu]; [lia|].
    destruct (lookup_lt_is_Some_2 m 1) as [v0 Hv0]; [lia|].
    apply (cross_entropy_nearest _ _
             (LossSpec.logit epsilon sigma u v0)).
    + unfold LossSpec.example_logits.
      rewrite list_lookup_fmap, lookup_drop. cbn [Nat.add]. rewrite Hv0. cbn.
      by rewrite nth_lookup, Hu.
    + unfold LossSpec.example_logits. apply Forall_fmap, Forall_lookup.
      intros k v Hv. rewrite lookup_drop in Hv. cbn [Nat.add] in Hv. cbn.
      rewrite nth_lookup, Hu. cbn.
      pose proof (Hnear i k _ _
                    (d_uv_entry_shape epsilon (S K) D _ _ _ m u v0 Hshape Hm Hu Hv0)
                    (d_uv_entry_shape epsilon (S K) D _ _ _ m u v Hshape Hm Hu Hv))
        as Hle.
      pose proof (hyperbolic_distance_nonneg epsilon u v0 Heps) as H0.
      unfold LossSpec.logit.
      set (d0 := LossSpec.hyperbolic_distance epsilon u v0) in *.
      set (dk := LossSpec.hyperbolic_distance epsilon u v) in *.
      assert (Hsq : (d0 ^ 2 <= dk ^ 2)%R) by nra.
      assert (Hinv : (0 < / sigma ^ 2)%R) by (by apply Rinv_0_lt_compat).
      unfold Rdiv. nra.
Qed.

(** The query and the positive sample coincide; the negative sample is
    far. *)
Lemma loss_at_most_log_candidates_example :
  ∃ v, Losses.hyperbolic_softmax_loss (1 / 10 ^ 7) 1 [[0%nat]]
         [[[0; 1]; [0; 1]; [1; 2]]]%R = Some v ∧
       (0 <= v <= ln (INR 2))%R.
Proof.
  apply (loss_at_most_log_candidates (1 / 10 ^ 7) 1 [[0%nat]]
           [[[0; 1]; [0; 1]; [1; 2]]]%R 1 2 2 0).
  - lra.
  - lia.
  - lia.
  - split; [reflexivity|]. repeat constructor.
  - split; [reflexivity|]. repeat constructor.
  - repeat constructor.
  - apply (moderate_batch_in_range _ _ _ _ 1 2 2 0).
    + split; [lra|]. split; [lra|]. split; [lia|]. split; [lia|]. split; [lia|].
      repeat first [apply Forall_nil_2 | apply Forall_cons_2]; apply Rabs_le; lra.
    + split; [reflexivity|]. repeat constructor.
    + split; [reflexivity|]. repeat constructor.
    + repeat constructor.
  - intros b k d0 dk.
    remember (1 / 10 ^ 7)%R as eps eqn:Eeps.
    assert (Heps : (0 < eps)%R) by (subst eps; lra). clear Eeps.
    intros H0 Hk.
    apply d_uv_entry in Hk as [t ->].
    rewrite (d_uv_tensor eps 3 2) in H0 by repeat constructor.
    destruct b as [|b]; [|discriminate H0].
    injection H0 as <-. unfold LossSpec.hyperbolic_distance, LossSpec.minkowski_form.
    cbn [length Nat.sub seq fmap list_fmap nth drop Losses.sum_list foldr].
    apply acosh_le.
    + pose proof (Rmax_r (- (0 * 0 + 0 - 1 * 1) - 1 + eps) eps). lra.
    + rewrite (Rmax_right (- (0 * 0 + 0 - 1 * 1) - 1 + eps)) by lra.
      pose proof (Rmax_r t eps). lra.
Defined.

(** With a single candidate per example, the positive sample alone,
    the loss is zero or has no value: the softmax over one score gives
    it weight one.  It is zero on every non-empty batch with labels 0
    whose magnitudes the model follows. *)
Theorem loss_single_candidate_is_zero (epsilon sigma : R)
    (y_true : list (list nat)) (y_pred : list (list (list R)))
    (B D W : nat) :
  Losses.has_shape3 y_pred B 2 D →
  Losses.has_shape2 y_true B (S W) →
  (∀ v, Losses.hyperbolic_softmax_loss epsilon sigma y_true y_pred = Some v →
        v = 0%R) ∧
  ((0 < B)%nat →
   Forall (λ row, nth 0 row 0%nat = 0%nat) y_true →
   LossSpec.in_range_batch epsilon sigma y_true y_pred →
   Losses.hyperbolic_softmax_loss epsilon sigma y_true y_pred = Some 0%R).
Proof.
  intros Hpred Htrue.
  assert (Hzero : ∀ v, Losses.hyperbolic_softmax_loss epsilon sigma y_true y_pred = Some v →
            v = 0%R).
  { intros v Hv. unfold Losses.hyperbolic_softmax_loss in Hv.
    destruct (loss_Some_in_range epsilon sigma y_true y_pred B 1 D W v Hpred Htrue Hv)
      as (HB & Hin & Hrange).
    rewrite (loss_mean_cross_entropy epsilon sigma y_true y_pred B 1 D W) in Hv by done.
    injection Hv as <-.
    destruct Hpred as [Hlen Hshape]. destruct Htrue as [Hlen' Hrows].
    assert (Hone : ∀ i row m, y_true !! i = Some row → y_pred !! i = Some m →
      LossSpec.cross_entropy (LossSpec.example_logits epsilon sigma m) (nth 0 row 0%nat)
      = 0%R).
    { intros i row m Hrow Hm.
      pose proof (proj1 (Forall_lookup _ _) Hin i row Hrow) as Hlt. cbn in Hlt.
      replace (nth 0 row 0%nat) with 0%nat by lia.
      destruct (proj1 (Forall_lookup _ _) Hshape i m Hm) as [Hk _].
      destruct m as [|u [|v [|w m]]]; try discriminate Hk.
      unfold LossSpec.example_logits. cbn [drop fmap list_fmap nth].
      rewrite cross_entropy_log_sum_exp by (cbn; lia).
      cbn [fmap list_fmap Losses.sum_list foldr nth].
      rewrite Rplus_0_r, ln_exp. lra. }
    apply Rle_antisym.
    - apply (mean_cross_entropy_upper _ _ _ _ _ B); try done.
      intros i row m Hrow Hm. rewrite (Hone i row m Hrow Hm). lra.
    - apply (mean_cross_entropy_lower _ _ _ _ _ B); try done.
      intros i row m Hrow Hm. rewrite (Hone i row m Hrow Hm). lra. }
  split; [done|]. intros HB Hlabels Hrange.
  assert (Hin : Forall (λ row, (nth 0 row 0 < 1)%nat) y_true).
  { eapply Forall_impl; [exact Hlabels|]. cbn. intros row ->. lia. }
  pose proof (loss_mean_cross_entropy epsilon sigma y_true y_pred B 1 D W
                HB Hpred Htrue Hin Hrange) as Hloss.
  unfold Losses.hyperbolic_softmax_loss in *. rewrite Hloss. f_equal.
  by apply Hzero.
Qed.

Lemma loss_single_candidate_is_zero_example :
  Losses.hyperbolic_softmax_loss (1 / 10 ^ 7) 1 [[0%nat]; [0%nat]]
    [[[0; 1]; [1; 2]]; [[3; 4]; [0; 1]]]%R = Some 0%R.
Proof.
  refine (proj2 (loss_single_candidate_is_zero (1 / 10 ^ 7) 1 [[0%nat]; [0%nat]]
                   [[[0; 1]; [1; 2]]; [[3; 4]; [0; 1]]]%R 2 2 0 _ _) _ _ _).
  - split; [reflexivity|]. repeat constructor.
  - split; [reflexivity|]. repeat constructor.
  - lia.
  - repeat constructor.
  - apply (moderate_batch_in_range _ _ _ _ 2 1 2 0).
    + split; [lra|]. split; [lra|]. split; [lia|]. split; [lia|]. split; [lia|].
      repeat first [apply Forall_nil_2 | apply Forall_cons_2]; apply Rabs_le; lra.
    + split; [reflexivity|]. repeat constructor.
    + split; [reflexivity|]. repeat constructor.
    + repeat constructor; cbn; lia.
Defined.

(** A label that is not the index of a candidate is an error: if some
    example's label is [K] or more, the loss has no value. *)
Theorem loss_label_out_of_range (epsilon sigma : R)
    (y_true : list (list nat)) (y_pred : list (list (list R)))
    (B K D W : nat) :
  Losses.has_shape3 y_pred B (S K) D →
  Losses.has_shape2 y_true B (S W) →
  Exists (λ row, (K ≤ nth 0 row 0)%nat) y_true →
  Losses.hyperbolic_softmax_loss epsilon sigma y_true y_pred = None.
Proof.
  intros [Hlen Hshape] [Hlen' Hrows] Hbad.
  unfold Losses.hyperbolic_softmax_loss, Losses.loss.
  rewrite (first_column W) by done. cbn [mbind option_bind].
  case_decide; [|done].
  destruct (Losses.minus_d_uv_sq epsilon sigma y_pred) as [t|] eqn:Ht; [|done].
  apply minus_d_uv_sq_Some in Ht as [_ ->].
  rewrite (logits_tensor epsilon sigma (S K) D) by done. cbn [mbind option_bind].
  unfold Losses.sparse_softmax_cross_entropy_with_logits.
  rewrite (mapM_None_2 _ (zip _ _)); [done|].
  apply Exists_exists in Hbad as (row & Hrow & Hge).
  apply list_elem_of_lookup in Hrow as [i Hi].
  destruct (lookup_lt_is_Some_2 y_pred i) as [m Hm].
  { apply lookup_lt_Some in Hi. lia. }
  apply Exists_exists.
  exists (nth 0 row 0%nat, LossSpec.example_logits epsilon sigma m). split.
  - apply list_elem_of_lookup. exists i. apply lookup_zip_with_Some.
    exists (nth 0 row 0%nat), (LossSpec.example_logits epsilon sigma m).
    split; [done|]. rewrite !list_lookup_fmap, Hi, Hm. done.
  - cbn. unfold Losses.sparse_softmax_cross_entropy_1.
    rewrite lookup_ge_None_2; [done|].
    destruct (proj1 (Forall_lookup _ _) Hshape i m Hm) as [Hk _].
    rewrite example_logits_length. lia.
Qed.

Lemma loss_label_out_of_range_example :
  Losses.hyperbolic_softmax_loss (1 / 10 ^ 7) 1 [[2%nat]]
    [[[0; 1]; [0; 1]; [1; 2]]]%R = None.
Proof.
  apply (loss_label_out_of_range (1 / 10 ^ 7) 1 [[2%nat]]
           [[[0; 1]; [0; 1]; [1; 2]]]%R 1 2 2 0).
  - split; [reflexivity|]. repeat constructor.
  - split; [reflexivity|]. repeat constructor.
  - left. cbn. lia.
Defined.


(* ================================================================= *)
(** * The edge list reader *)

Section edgelist_facts.
Import Edgelist.
Implicit Types (c : ascii) (s l f : list ascii) (z : Z) (n : N).

Lemma is_digit_range c : is_digit c ↔ (48 ≤ N_of_ascii c ≤ 57)%N.
Proof.
  unfold is_digit. rewrite andb_true_iff, !N.leb_le. tauto.
Qed.

Lemma digit_value_digit c :
  is_digit c → digit_value c = Some (Z.of_N (N_of_ascii c - 48)).
Proof. unfold is_digit, digit_value. by intros ->. Qed.

Lemma digit_not_space c : is_digit c → is_space c = false.
Proof.
  intros Hc%is_digit_range. unfold is_space. cbn zeta.
  rewrite !orb_false_iff, !andb_false_iff, !N.eqb_neq, !N.leb_gt. lia.
Qed.

Lemma digit_not_int_space c : is_digit c → is_int_space c = false.
Proof.
  intros Hc%is_digit_range. unfold is_int_space. cbn zeta.
  rewrite !orb_false_iff, !andb_false_iff, !N.eqb_neq, !N.leb_gt. lia.
Qed.

Lemma digit_ne c (k : ascii) :
  is_digit c → ¬ (48 ≤ N_of_ascii k ≤ 57)%N → c ≠ k.
Proof. intros Hc%is_digit_range Hk ->. by apply Hk. Qed.

Lemma digit_char_digit n : (n < 10)%N → is_digit (digit_char n).
Proof.
  intros Hn. apply is_digit_range. unfold digit_char.
  rewrite N_ascii_embedding by lia. lia.
Qed.

Lemma digit_char_value n :
  (n < 10)%N → digit_value (digit_char n) = Some (Z.of_N n).
Proof.
  intros Hn. rewrite digit_value_digit by (by apply digit_char_digit).
  unfold digit_char. rewrite N_ascii_embedding by lia. do 2 f_equal. lia.
Qed.

Lemma horner_cons c r :
  is_digit c → horner 0 (c :: r) = horner (Z.of_N (N_of_ascii c - 48)) r.
Proof.
  intros Hc. unfold horner. cbn [foldl]. rewrite (digit_value_digit c Hc).
  cbn [default]. f_equal.
Qed.

Lemma digits_from_plain (acc : Z) ds :
  Forall is_digit ds → digits_from acc ds = Some (horner acc ds).
Proof.
  intros Hds. revert acc. induction Hds as [|c ds Hc Hds IH]; intros acc; [done|].
  cbn [digits_from horner foldl]. rewrite (digit_value_digit c Hc). cbn.
  apply IH.
Qed.

Lemma dec_digits_S (fuel : nat) n acc :
  dec_digits (S fuel) n acc
  = if (n <? 10)%N then digit_char (n mod 10) :: acc
    else dec_digits fuel (n / 10) (digit_char (n mod 10) :: acc).
Proof. reflexivity. Qed.

Lemma dec_digits_spec (fuel : nat) :
  ∀ n acc, (n < 2 ^ N.of_nat (S fuel))%N →
    ∃ ds c, dec_digits (S fuel) n acc = (ds ++ [c]) ++ acc ∧
            Forall is_digit (ds ++ [c]) ∧
            horner 0 (ds ++ [c]) = Z.of_N n.
Proof.
  induction fuel as [|fuel IH]; intros n acc Hn.
  - assert (n < 10)%N by (cbn in Hn; lia).
    exists [], (digit_char (n mod 10)). rewrite dec_digits_S.
    rewrite (proj2 (N.ltb_lt _ _)) by done. rewrite N.mod_small by done.
    split; [done|]. split.
    + repeat constructor. by apply digit_char_digit.
    + cbn. rewrite digit_char_value by done. cbn. lia.
  - rewrite dec_digits_S. destruct (n <? 10)%N eqn:Hlt.
    + apply N.ltb_lt in Hlt. rewrite N.mod_small by done.
      exists [], (digit_char n). split; [done|]. split.
      * repeat constructor. by apply digit_char_digit.
      * cbn. rewrite digit_char_value by done. cbn. lia.
    + apply N.ltb_ge in Hlt.
      assert (Hdiv : (n / 10 < 2 ^ N.of_nat (S fuel))%N).
      { apply N.Div0.div_lt_upper_bound.
        replace (N.of_nat (S (S fuel))) with (N.succ (N.of_nat (S fuel))) in Hn by lia.
        rewrite N.pow_succ_r' in Hn. lia. }
      destruct (IH (n / 10)%N (digit_char (n mod 10) :: acc) Hdiv)
        as (ds & c & Hrun & Hds & Hval).
      exists (ds ++ [c]), (digit_char (n mod 10)). split.
      { rewrite Hrun. by rewrite <- !app_assoc. }
      assert (Hmod : (n mod 10 < 10)%N) by (apply N.mod_lt; lia).
      split.
      * apply Forall_app. split; [done|]. repeat constructor.
        by apply digit_char_digit.
      * unfold horner in *. rewrite foldl_app, Hval. cbn.
        rewrite digit_char_value by done. cbn.
        rewrite (N.div_mod n 10) at 3 by lia. lia.
Qed.

Lemma str_digits n :
  ∃ ds c, dec_digits (S (N.to_nat (N.log2 n))) n [] = ds ++ [c] ∧
          Forall is_digit (ds ++ [c]) ∧ horner 0 (ds ++ [c]) = Z.of_N n.
Proof.
  destruct (dec_digits_spec (N.to_nat (N.log2 n)) n []) as (ds & c & Hrun & Hds & Hval).
  - destruct (decide (n = 0%N)) as [->|Hn0]; [done|].
    pose proof (N.log2_spec n ltac:(lia)) as [_ Hhi].
    replace (N.of_nat (S (N.to_nat (N.log2 n)))) with (N.succ (N.log2 n)) by lia.
    done.
  - exists ds, c. rewrite Hrun, app_nil_r. done.
Qed.

Lemma dec_digits_length (fuel : nat) :
  ∀ n acc (k : nat), (0 < k)%nat → (n < 10 ^ N.of_nat k)%N →
    (length (dec_digits fuel n acc) ≤ k + length acc)%nat.
Proof.
  induction fuel as [|fuel IH]; intros n acc k Hk Hn; [cbn; lia|].
  rewrite dec_digits_S. destruct (n <? 10)%N eqn:Hlt; [cbn; lia|].
  apply N.ltb_ge in Hlt. destruct k as [|[|k]]; [lia | cbn in Hn; lia |].
  assert (Hdiv : (n / 10 < 10 ^ N.of_nat (S k))%N).
  { apply N.Div0.div_lt_upper_bound.
    replace (N.of_nat (S (S k))) with (N.succ (N.of_nat (S k))) in Hn by lia.
    by rewrite N.pow_succ_r' in Hn. }
  pose proof (IH (n / 10)%N (digit_char (n mod 10) :: acc) (S k) ltac:(lia) Hdiv)
    as Hlen.
  cbn [length] in Hlen. lia.
Qed.

Lemma mapM_fmap_Forall {A B : Type} (f : A → option B) (g : B → A) (l : list B) :
  Forall (λ x, f (g x) = Some x) l → mapM f (g <$> l) = Some l.
Proof.
  induction 1 as [|x l Hx Hl IH]; [done|].
  rewrite fmap_cons. cbn [mapM]. rewrite Hx. cbn. by rewrite IH.
Qed.

Lemma lstrip_id (space : ascii → bool) s :
  match s with c :: _ => space c = false | [] => True end →
  lstrip space s = s.
Proof. destruct s as [|c s]; [done|]. cbn. by intros ->. Qed.

Lemma rstrip_snoc (space : ascii → bool) s c :
  space c = false → rstrip space (s ++ [c]) = s ++ [c].
Proof.
  intros Hc. unfold rstrip. rewrite reverse_snoc. cbn [lstrip]. rewrite Hc.
  by rewrite reverse_cons, reverse_involutive.
Qed.

Lemma rstrip_dropped (space : ascii → bool) s c :
  space c = true → rstrip space (s ++ [c]) = rstrip space s.
Proof.
  intros Hc. unfold rstrip. rewrite reverse_snoc. cbn [lstrip]. by rewrite Hc.
Qed.

(** [int] reads back what [str] writes, up to the most digits it
    accepts. *)
Lemma int_str z :
  Z.abs z < 10 ^ Z.of_nat max_str_digits → int (str z) = Some z.
Proof.
  intros Hz. unfold str. cbn zeta.
  assert (Hlen : (length (dec_digits (S (N.to_nat (N.log2 (Z.to_N (Z.abs z)))))
                            (Z.to_N (Z.abs z)) []) ≤ max_str_digits)%nat).
  { pose proof (dec_digits_length (S (N.to_nat (N.log2 (Z.to_N (Z.abs z)))))
                  (Z.to_N (Z.abs z)) [] max_str_digits) as Hlen.
    cbn [length] in Hlen. rewrite Nat.add_0_r in Hlen. apply Hlen.
    - unfold max_str_digits. lia.
    - apply N2Z.inj_lt. rewrite Z2N.id by lia. rewrite N2Z.inj_pow.
      by rewrite nat_N_Z. }
  destruct (str_digits (Z.to_N (Z.abs z))) as (ds & c & Heq & Hds & Hval).
  rewrite Heq in Hlen |- *.
  assert (Hc : is_digit c).
  { pose proof Hds as Hds2. apply Forall_app in Hds2 as [_ Hc].
    by apply Forall_cons in Hc as [Hc _]. }
  assert (Hfirst : ∃ c0 r, ds ++ [c] = c0 :: r ∧ is_digit c0 ∧ Forall is_digit r).
  { destruct ds as [|c0 ds'].
    - exists c, []. by repeat split.
    - exists c0, (ds' ++ [c]). cbn in Hds. apply Forall_cons in Hds as [? ?].
      by repeat split. }
  destruct Hfirst as (c0 & r & Hcr & Hc0 & Hr).
  assert (Hcount : (length (filter (λ c, is_Some (digit_value c)) (c0 :: r))
                    ≤ max_str_digits)%nat).
  { rewrite <- Hcr. etrans; [apply length_filter | done]. }
  rewrite Hcr, (horner_cons c0 r Hc0) in Hval.
  unfold int. case_decide as Hneg.
  - rewrite app_comm_cons, rstrip_snoc by (by apply digit_not_int_space).
    cbn [lstrip app]. replace (is_int_space "-"%char) with false by done.
    rewrite decide_True by done.
    rewrite Hcr. rewrite (digit_value_digit c0 Hc0). cbn [mbind option_bind].
    rewrite (digits_from_plain _ r Hr). cbn [mbind option_bind].
    rewrite decide_True by done. f_equal. rewrite Hval. lia.
  - rewrite rstrip_snoc by (by apply digit_not_int_space).
    rewrite Hcr. rewrite lstrip_id by (by apply digit_not_int_space).
    rewrite decide_False by (apply (digit_ne _ _ Hc0); cbn; lia).
    rewrite decide_False by (apply (digit_ne _ _ Hc0); cbn; lia).
    rewrite (digit_value_digit c0 Hc0). cbn [mbind option_bind].
    rewrite (digits_from_plain _ r Hr). cbn [mbind option_bind].
    rewrite decide_True by done. f_equal. rewrite Hval. lia.
Qed.

(** [str] writes digits after at most one minus sign, the last of them
    a digit. *)
Lemma str_shape z :
  Forall field_char (str z) ∧ ∃ s c, str z = s ++ [c] ∧ is_digit c.
Proof.
  unfold str. cbn zeta.
  destruct (str_digits (Z.to_N (Z.abs z))) as (ds & c & -> & Hds & _).
  assert (Hc : is_digit c).
  { pose proof Hds as Hds2. apply Forall_app in Hds2 as [_ Hc].
    by apply Forall_cons in Hc as [Hc _]. }
  assert (Hfield : Forall field_char (ds ++ [c])).
  { eapply Forall_impl; [exact Hds|]. intros x Hx. by left. }
  case_decide.
  - split; [constructor; [by right | done]|].
    exists ("-"%char :: ds), c. by split.
  - split; [done|]. exists ds, c. by split.
Qed.

Lemma field_char_plain c :
  field_char c → c ≠ TAB ∧ c ≠ LF ∧ c ≠ CR.
Proof.
  intros [Hc%is_digit_range | ->]; [|by repeat split].
  repeat split; intros ->; cbn in Hc; lia.
Qed.

Lemma split_no_sep (sep : ascii) f :
  Forall (λ c, c ≠ sep) f → split sep f = [f].
Proof.
  induction 1 as [|c f Hc Hf IH]; [done|].
  cbn [split]. rewrite decide_False by done. by rewrite IH.
Qed.

Lemma split_app_sep (sep : ascii) f rest :
  Forall (λ c, c ≠ sep) f → split sep (f ++ sep :: rest) = f :: split sep rest.
Proof.
  induction 1 as [|c f Hc Hf IH].
  - cbn [app split]. by rewrite decide_True.
  - cbn [app split]. rewrite decide_False by done. by rewrite IH.
Qed.

Lemma split_join (sep : ascii) (fields : list (list ascii)) :
  fields ≠ [] → Forall (Forall (λ c, c ≠ sep)) fields →
  split sep (join sep fields) = fields.
Proof.
  intros Hne Hfields. induction Hfields as [|f fs Hf Hfs IH]; [done|].
  destruct fs as [|f' fs].
  - cbn [join]. by apply split_no_sep.
  - cbn [join]. rewrite split_app_sep by done. f_equal. by apply IH.
Qed.

Lemma join_chars (P : ascii → Prop) (sep : ascii) (fields : list (list ascii)) :
  P sep → Forall (Forall P) fields → Forall P (join sep fields).
Proof.
  intros Hsep Hfields. induction Hfields as [|f fs Hf Hfs IH]; [constructor|].
  destruct fs as [|f' fs]; [done|].
  cbn [join]. apply Forall_app. split; [done|]. by constructor.
Qed.

Lemma join_last (sep : ascii) (fields : list (list ascii)) :
  fields ≠ [] →
  Forall (λ f, ∃ s c, f = s ++ [c] ∧ is_digit c) fields →
  ∃ s c, join sep fields = s ++ [c] ∧ is_digit c.
Proof.
  intros Hne Hfields. induction Hfields as [|f fs Hf Hfs IH]; [done|].
  destruct fs as [|f' fs]; [done|].
  destruct IH as (s & c & Hs & Hc); [done|].
  exists (f ++ sep :: s), c. split; [|done].
  cbn [join]. cbn [join] in Hs. rewrite Hs. by rewrite <- app_assoc.
Qed.

Lemma readlines_line l rest :
  Forall (λ c, c ≠ LF ∧ c ≠ CR) l →
  readlines (l ++ LF :: rest) = (l ++ [LF]) :: readlines rest.
Proof.
  induction 1 as [|c l [Hlf Hcr] Hl IH].
  - cbn [app readlines]. by rewrite decide_True.
  - cbn [app readlines]. rewrite decide_False by done.
    rewrite decide_False by done. by rewrite IH.
Qed.

Lemma rstrip_all_space (space : ascii → bool) l :
  Forall (λ c, space c = true) l → rstrip space l = [].
Proof.
  intros Hl. unfold rstrip.
  assert (Hrev : Forall (λ c, space c = true) (reverse l)).
  { by rewrite Forall_reverse. }
  induction Hrev as [|c r Hc Hr IH]; [done|]. cbn [lstrip]. by rewrite Hc.
Qed.

(** The line of one edge. *)
Lemma edge_line (edge : list Z) :
  edge ≠ [] →
  Forall (λ z, Z.abs z < 10 ^ Z.of_nat max_str_digits) edge →
  Forall (λ c, c ≠ LF ∧ c ≠ CR) (join TAB (str <$> edge)) ∧
  mapM int (split TAB (rstrip is_space (join TAB (str <$> edge) ++ [LF])))
  = Some edge.
Proof.
  intros Hne Hsmall.
  assert (Hfields : Forall (Forall field_char) (str <$> edge)).
  { apply Forall_fmap, Forall_forall. intros z _. apply str_shape. }
  split.
  - apply join_chars; [done|].
    eapply Forall_impl; [exact Hfields|]. intros f Hf.
    eapply Forall_impl; [exact Hf|]. intros c Hc.
    by destruct (field_char_plain c Hc) as (_ & ? & ?).
  - destruct (join_last TAB (str <$> edge)) as (s & c & Hs & Hc).
    { by destruct edge. }
    { apply Forall_fmap, Forall_forall. intros z _. apply str_shape. }
    rewrite rstrip_dropped by done.
    rewrite Hs, rstrip_snoc by (by apply digit_not_space). rewrite <- Hs.
    rewrite split_join.
    + apply mapM_fmap_Forall.
      eapply Forall_impl; [exact Hsmall|]. intros z Hz. by apply int_str.
    + by destruct edge.
    + eapply Forall_impl; [exact Hfields|]. intros f Hf.
      eapply Forall_impl; [exact Hf|]. intros x Hx.
      by destruct (field_char_plain x Hx) as (? & _).
Qed.

Lemma edge_line_plain (edge : list Z) :
  Forall (λ c, c ≠ LF ∧ c ≠ CR) (join TAB (str <$> edge)).
Proof.
  apply join_chars; [done|].
  apply Forall_fmap, Forall_forall. intros z _. cbn.
  eapply Forall_impl; [apply str_shape|]. intros c Hc.
  by destruct (field_char_plain c Hc) as (_ & ? & ?).
Qed.

Lemma readlines_write_edgelist (edges : list (list Z)) :
  readlines (write_edgelist edges)
  = (λ edge, join TAB (str <$> edge) ++ [LF]) <$> edges.
Proof.
  unfold write_edgelist. induction edges as [|edge edges IH]; [done|].
  rewrite bind_cons, fmap_cons, <- app_assoc. cbn [app].
  rewrite readlines_line by apply edge_line_plain. by rewrite IH.
Qed.

Lemma split_length (sep : ascii) s : (0 < length (split sep s))%nat.
Proof.
  induction s as [|c s IH]; cbn [split length]; [lia|].
  case_decide; [cbn; lia|]. destruct (split sep s); cbn; lia.
Qed.

Lemma parse_edges_shape content (edges : list (list Z)) :
  parse_edges content = Some edges →
  length edges = length (readlines content) ∧
  Forall (λ edge, edge ≠ []) edges.
Proof.
  unfold parse_edges. intros Hparse%mapM_Some. split.
  - symmetry. by eapply Forall2_length.
  - induction Hparse as [|l edge ls edges' Hl _ IH]; constructor; [|done].
    apply mapM_Some, Forall2_length in Hl. intros ->.
    pose proof (split_length TAB (rstrip is_space l)). cbn in Hl. lia.
Qed.

Lemma parse_write_edgelist (edges : list (list Z)) :
  Forall (λ edge, edge ≠ []) edges →
  Forall (Forall (λ z, Z.abs z < 10 ^ Z.of_nat max_str_digits)) edges →
  parse_edges (write_edgelist edges) = Some edges.
Proof.
  intros Hedges Hsmall. unfold parse_edges.
  rewrite readlines_write_edgelist.
  apply mapM_Some. apply Forall2_fmap_l, Forall2_same_length_lookup.
  split; [done|]. intros i e1 e2 H1 H2. assert (e1 = e2) as -> by congruence.
  apply edge_line.
  - by apply (proj1 (Forall_lookup _ _) Hedges i e2).
  - by apply (proj1 (Forall_lookup _ _) Hsmall i e2).
Qed.
End edgelist_facts.

(** Reading back an edge list written one edge per line, integers in
    decimal notation with tabs between them, gives the edges, provided
    no edge is empty and no integer has more digits than [int]
    accepts. *)
Theorem read_edgelist_round_trip (texts : gmap string string) (fn : string)
    (edges : list (list Z)) :
  Forall (λ edge, edge ≠ []) edges →
  Forall (Forall (λ z, Z.abs z < 10 ^ Z.of_nat Edgelist.max_str_digits)) edges →
  texts !! fn = Some (string_of_list_ascii (Edgelist.write_edgelist edges)) →
  Edgelist.read_edgelist texts fn = Edgelist.Edges edges.
Proof.
  intros Hedges Hsmall Htext. unfold Edgelist.read_edgelist. rewrite Htext.
  rewrite list_ascii_of_string_of_list_ascii.
  by rewrite parse_write_edgelist.
Qed.

Lemma read_edgelist_round_trip_example :
  Edgelist.read_edgelist
    {["edgelist.tsv"%string :=
        string_of_list_ascii
          (Edgelist.write_edgelist [[0; 1]; [1; -2]; [2; 1000; 0]])]}
    "edgelist.tsv"
  = Edgelist.Edges [[0; 1]; [1; -2]; [2; 1000; 0]].
Proof.
  apply (read_edgelist_round_trip _ "edgelist.tsv" [[0; 1]; [1; -2]; [2; 1000; 0]]).
  - repeat constructor; discriminate.
  - repeat constructor; unfold Edgelist.max_str_digits; lia.
  - reflexivity.
Defined.

(** When [read_edgelist] returns, it returns one edge for each line of
    the text and no edge is the empty tuple. *)
Theorem read_edgelist_one_edge_per_line (texts : gmap string string)
    (fn : string) (content : string) (edges : list (list Z)) :
  texts !! fn = Some content →
  Edgelist.read_edgelist texts fn = Edgelist.Edges edges →
  length edges = length (Edgelist.readlines (list_ascii_of_string content)) ∧
  Forall (λ edge, edge ≠ []) edges.
Proof.
  intros Htext. unfold Edgelist.read_edgelist. rewrite Htext.
  destruct (Edgelist.parse_edges _) as [edges'|] eqn:Hparse; [|done].
  intros [= <-]. by apply parse_edges_shape.
Qed.

Lemma read_edgelist_one_edge_per_line_example :
  length [[1; 2]; [3]]
  = length (Edgelist.readlines (list_ascii_of_string
      (String "1" (String "009" (String "2" (String "013" (String "010"
        (String "3" EmptyString)))))))) ∧
  Forall (λ edge : list Z, edge ≠ []) [[1; 2]; [3]].
Proof.
  apply (read_edgelist_one_edge_per_line
           {["edgelist.tsv"%string :=
               String "1" (String "009" (String "2" (String "013" (String "010"
                 (String "3" EmptyString)))))]}
           "edgelist.tsv").
  - reflexivity.
  - reflexivity.
Defined.

(** A line of white space only, an empty line among them, makes
    [read_edgelist] raise [ValueError]: its single field is the empty
    string, which is no integer. *)
Theorem read_edgelist_blank_line (texts : gmap string string) (fn : string)
    (content : string) :
  texts !! fn = Some content →
  Exists (Forall (λ c, Edgelist.is_space c = true))
         (Edgelist.readlines (list_ascii_of_string content)) →
  Edgelist.read_edgelist texts fn = Edgelist.ValueError.
Proof.
  intros Htext Hblank. unfold Edgelist.read_edgelist, Edgelist.parse_edges.
  rewrite Htext. rewrite mapM_None_2; [done|].
  eapply Exists_impl; [exact Hblank|]. intros l Hl. cbn.
  by rewrite rstrip_all_space.
Qed.

Lemma read_edgelist_blank_line_example :
  Edgelist.read_edgelist
    {["edgelist.tsv"%string := String "1" (String "009" (String "2"
        (String "010" (String "010" EmptyString))))]}
    "edgelist.tsv"
  = Edgelist.ValueError.
Proof.
  apply (read_edgelist_blank_line _ "edgelist.tsv"
           (String "1" (String "009" (String "2"
              (String "010" (String "010" EmptyString)))))).
  - reflexivity.
  - right. left. repeat constructor.
Defined.
